(** * Threads client: comment threading, voting and reply submission

    A shallow embedding of the logic found in
    [src/components/PostDetail.tsx], [PostFeed.tsx], [PostCard.tsx],
    [SearchResults.tsx] and [TrendingPage.tsx], together with the properties
    the design document states about it.

    Conventions.
    - TypeScript [string] is [string], the bytes of the text in UTF-8; a JS
      [number] holding a counter is [Z], and one that holds a fraction or a
      time value is a binary64 [float]; an optional or nullable field is an
      [option].
    - A JS object that is shared by reference is a cell of an explicit heap:
      the [Map<string, Comment>] of [buildCommentTree] is a [gmap] from the
      key to the cell, and a reference to a cell is its key.
    - The record store behind [blink.db] is an external service.  Each
      collection is a list of rows in storage order; only the successful
      outcome of a call is modelled (a rejected call throws into the
      handler's [catch], which logs and changes nothing further). *)

From stdpp Require Import gmap strings list fin_maps sorting.
From Stdlib Require Import ZArith Floats.

Open Scope Z_scope.
Set Warnings "-register-all".

(** ** Data model ([src/App.tsx]) *)

Inductive VoteType := upvote | downvote.
Inductive TargetType := post | comment.

Global Instance VoteType_eq_dec : EqDecision VoteType.
Proof. solve_decision. Defined.
Global Instance TargetType_eq_dec : EqDecision TargetType.
Proof. solve_decision. Defined.

(** [interface Comment].  The transient fields [author] and [replies] are
    not part of a stored row: [author] is presentation only, and [replies]
    lives in the heap cell below. *)
Record Comment := mkComment {
  comment_id : string;
  comment_content : string;
  comment_authorId : string;
  comment_postId : string;
  comment_parentId : option string;
  comment_upvotes : Z;
  comment_downvotes : Z;
  comment_depth : Z;
  comment_isDeleted : bool;
  comment_createdAt : string
}.

(** [interface Post], without the media and presentation fields. *)
Record Post := mkPost {
  post_id : string;
  post_title : string;
  post_authorId : string;
  post_communityId : string;
  post_upvotes : Z;
  post_downvotes : Z;
  post_commentCount : Z;
  post_createdAt : string
}.

(** A row of the [votes] collection, as written by [handleVote]. *)
Record Vote := mkVote {
  vote_id : string;
  vote_userId : string;
  vote_targetId : string;
  vote_targetType : TargetType;
  vote_voteType : VoteType
}.

Global Instance Comment_eq_dec : EqDecision Comment.
Proof. solve_decision. Defined.
Global Instance Post_eq_dec : EqDecision Post.
Proof. solve_decision. Defined.
Global Instance Vote_eq_dec : EqDecision Vote.
Proof. solve_decision. Defined.

(** ** The comment tree builder ([PostDetail.tsx], [buildCommentTree]) *)

(** A cell of [commentMap]: the copied comment [{ ...comment, replies: [] }].
    [replies] holds references, i.e. keys of [commentMap]. *)
Record CommentObj := mkObj {
  obj_data : Comment;
  obj_replies : list string
}.

(** JS truthiness of [comment.parentId]: [undefined], [null] and the empty
    string all take the [else] branch. *)
Definition parentRef (c : Comment) : option string :=
  match comment_parentId c with
  | Some p => if decide (p = "") then None else Some p
  | None => None
  end.

(** First pass: [commentMap.set(comment.id, { ...comment, replies: [] })]. *)
Definition firstPass (comments : list Comment) : gmap string CommentObj :=
  foldl (λ m c, <[comment_id c := mkObj c []]> m) ∅ comments.

(** [parent.replies.push(commentWithReplies)] on the cell stored at [p]. *)
Definition pushReply (child : string) (parent : CommentObj) : CommentObj :=
  mkObj (obj_data parent) (obj_replies parent ++ [child]).

(** Body of the second [forEach].  [commentWithReplies] is the cell at
    [comment.id], so the reference pushed is that key.  The statement
    [parent.replies = parent.replies || []] changes nothing: the first pass
    gave every cell an array. *)
Definition secondPassStep (st : gmap string CommentObj * list string)
    (c : Comment) : gmap string CommentObj * list string :=
  let commentWithReplies := comment_id c in
  match parentRef c with
  | Some p =>
      match st.1 !! p with
      | Some parent => (<[p := pushReply commentWithReplies parent]> st.1, st.2)
      | None => st
      end
  | None => (st.1, st.2 ++ [commentWithReplies])
  end.

(** The returned [rootComments] array, with the heap its entries point into. *)
Definition buildCommentTree (comments : list Comment)
    : gmap string CommentObj * list string :=
  foldl secondPassStep (firstPass comments, []) comments.

(** The nested value a reader of [rootComments] sees. *)
Inductive Tree := Node (c : Comment) (replies : list Tree).

(** Follow the references from the cell at [k], at most [fuel] levels deep.
    [None] when a reference dangles or the fuel runs out. *)
Fixpoint unfold (fuel : nat) (m : gmap string CommentObj) (k : string)
    : option Tree :=
  match fuel with
  | O => None
  | S f =>
      match m !! k with
      | Some o =>
          match mapM (unfold f m) (obj_replies o) with
          | Some ts => Some (Node (obj_data o) ts)
          | None => None
          end
      | None => None
      end
  end.

(** The nested value of [buildCommentTree comments].  A chain of replies
    that repeats no cell has at most [length comments] cells, so the fuel
    runs out only on a heap in which a cell reaches itself, where the JS
    value has no finite nesting either. *)
Definition commentTree (comments : list Comment) : option (list Tree) :=
  let '(m, roots) := buildCommentTree comments in
  mapM (unfold (S (length comments)) m) roots.

(** Pre-order listing of the nodes of a tree, and of a forest. *)
Fixpoint flatten (t : Tree) : list Comment :=
  match t with
  | Node c ts => c :: concat (map flatten ts)
  end.

Definition flattenForest (ts : list Tree) : list Comment :=
  concat (map flatten ts).

(** Number of nodes: roots plus all nested replies. *)
Fixpoint nodeCount (t : Tree) : nat :=
  match t with
  | Node _ ts => S (sum_list (map nodeCount ts))
  end.

Definition forestCount (ts : list Tree) : nat :=
  sum_list (map nodeCount ts).

(** Input lists as the comment query delivers them for one post: ascending
    creation time, so a reply comes after the comment it answers.
    [parentsEarlier seen cs] checks that every parent reference in [cs]
    names a comment in [seen] or earlier in [cs]. *)
Fixpoint parentsEarlier (seen : list string) (cs : list Comment) : bool :=
  match cs with
  | [] => true
  | c :: rest =>
      match parentRef c with
      | Some p => bool_decide (p ∈ seen)
      | None => true
      end && parentsEarlier (comment_id c :: seen) rest
  end.

(** Append the leaf [c] below every node that [c] names as its parent. *)
Fixpoint graft (c : Comment) (t : Tree) : Tree :=
  match t with
  | Node d ts =>
      Node d (map (graft c) ts ++
              if decide (parentRef c = Some (comment_id d))
              then [Node c []] else [])
  end.

(** Specification-side views of the input list. *)
Definition childrenOf (comments : list Comment) (k : string) : list Comment :=
  filter (λ c, parentRef c = Some k) comments.

Definition rootsOf (comments : list Comment) : list Comment :=
  filter (λ c, parentRef c = None) comments.

Definition withId (comments : list Comment) (k : string) : list Comment :=
  filter (λ c, comment_id c = k) comments.

(** ** The record store ([blink.db])

    The client [blink] of [src/blink/client] and the service behind it are
    not among the sources.  The design document describes it as a generic
    record store with [list(filter, order, limit)], [create(record)],
    [update(id, partialRecord)] and [delete(id)] per collection. *)

(** Modelled from the spec: the collections of [blink.db] that the handlers
    touch, each a list of rows in storage order. *)
Record DB := mkDB {
  db_votes : list Vote;
  db_comments : list Comment;
  db_posts : list Post
}.

(** [where: { AND: [{ userId }, { targetId }, { targetType }] }] *)
Definition voteMatches (userId targetId : string) (targetType : TargetType)
    (v : Vote) : Prop :=
  vote_userId v = userId ∧ vote_targetId v = targetId ∧
  vote_targetType v = targetType.

Global Instance voteMatches_dec u t tt v : Decision (voteMatches u t tt v).
Proof. unfold voteMatches. apply _. Defined.

(** Modelled from the spec: [blink.db.votes.list] with the filter above and
    a limit; the matching rows in storage order, cut at [limit]. *)
Definition votes_list (userId targetId : string) (targetType : TargetType)
    (limit : nat) (rows : list Vote) : list Vote :=
  take limit (filter (voteMatches userId targetId targetType) rows).

(** Modelled from the spec: [blink.db.votes.delete(id)] removes the row
    with that id. *)
Definition votes_delete (id : string) (rows : list Vote) : list Vote :=
  filter (λ v, vote_id v ≠ id) rows.

Definition setVoteType (voteType : VoteType) (v : Vote) : Vote :=
  mkVote (vote_id v) (vote_userId v) (vote_targetId v) (vote_targetType v)
    voteType.

(** Modelled from the spec: [blink.db.votes.update(id, { voteType })]
    rewrites that field of the row with that id. *)
Definition votes_update (id : string) (voteType : VoteType)
    (rows : list Vote) : list Vote :=
  (λ v, if decide (vote_id v = id) then setVoteType voteType v else v) <$> rows.

(** Modelled from the spec: [blink.db.votes.create(record)] appends the
    row. *)
Definition votes_create (v : Vote) (rows : list Vote) : list Vote :=
  rows ++ [v].

(** Modelled from the spec: [blink.db.posts.list({ where: { id }, limit })]. *)
Definition posts_list (id : string) (limit : nat) (rows : list Post)
    : list Post :=
  take limit (filter (λ p, post_id p = id) rows).

(** Modelled from the spec: [blink.db.posts.update(id, partialRecord)], the
    partial record being a rewrite of the fields it names. *)
Definition posts_update (id : string) (patch : Post → Post)
    (rows : list Post) : list Post :=
  (λ p, if decide (post_id p = id) then patch p else p) <$> rows.

Definition setUpvotes (n : Z) (p : Post) : Post :=
  mkPost (post_id p) (post_title p) (post_authorId p) (post_communityId p)
    n (post_downvotes p) (post_commentCount p) (post_createdAt p).

Definition setDownvotes (n : Z) (p : Post) : Post :=
  mkPost (post_id p) (post_title p) (post_authorId p) (post_communityId p)
    (post_upvotes p) n (post_commentCount p) (post_createdAt p).

Definition setCommentCount (n : Z) (p : Post) : Post :=
  mkPost (post_id p) (post_title p) (post_authorId p) (post_communityId p)
    (post_upvotes p) (post_downvotes p) n (post_createdAt p).

Definition createdAtLe (a b : Comment) : Prop :=
  (comment_createdAt a ≤ comment_createdAt b)%string.

Global Instance createdAtLe_dec : RelDecision createdAtLe.
Proof. intros a b. unfold createdAtLe. apply _. Defined.

(** Modelled from the spec: [blink.db.comments.list] with
    [where: { postId }] and [orderBy: { createdAt: 'asc' }]; the creation
    time is a string and is compared as one. *)
Definition comments_list (postId : string) (rows : list Comment)
    : list Comment :=
  merge_sort createdAtLe (filter (λ c, comment_postId c = postId) rows).

(** Modelled from the spec: [blink.db.comments.create(record)] appends the
    row. *)
Definition comments_create (c : Comment) (rows : list Comment)
    : list Comment :=
  rows ++ [c].

Definition withVotes (d : DB) (vs : list Vote) : DB :=
  mkDB vs (db_comments d) (db_posts d).
Definition withComments (d : DB) (cs : list Comment) : DB :=
  mkDB (db_votes d) cs (db_posts d).
Definition withPosts (d : DB) (ps : list Post) : DB :=
  mkDB (db_votes d) (db_comments d) ps.

(** The key under which the data model allows one vote at most. *)
Definition voteKey (v : Vote) : string * string * TargetType :=
  (vote_userId v, vote_targetId v, vote_targetType v).

(** Invariant of the vote collection: at most one row per (user, target). *)
Definition oneVotePerTarget (rows : list Vote) : Prop :=
  NoDup (voteKey <$> rows).

(** ** Text

    A [string] holds text as its UTF-8 bytes: a code point below U+0080 is
    one byte, one below U+0800 two, one below U+10000 three, and the others
    four. *)

Definition byteOf (n : N) : Stdlib.Strings.Ascii.ascii :=
  Stdlib.Strings.Ascii.ascii_of_N n.

Definition byteCode (a : Stdlib.Strings.Ascii.ascii) : N :=
  Stdlib.Strings.Ascii.N_of_ascii a.

(** The UTF-8 bytes of a code point. *)
Definition utf8 (c : N) : string :=
  if (c <? 0x80)%N then String (byteOf c) ""
  else if (c <? 0x800)%N then
    String (byteOf (0xC0 + c / 0x40)) (String (byteOf (0x80 + c mod 0x40)) "")
  else if (c <? 0x10000)%N then
    String (byteOf (0xE0 + c / 0x1000))
      (String (byteOf (0x80 + c / 0x40 mod 0x40))
         (String (byteOf (0x80 + c mod 0x40)) ""))
  else
    String (byteOf (0xF0 + c / 0x40000))
      (String (byteOf (0x80 + c / 0x1000 mod 0x40))
         (String (byteOf (0x80 + c / 0x40 mod 0x40))
            (String (byteOf (0x80 + c mod 0x40)) ""))).

(** The text of a list of code points. *)
Definition textOf (cs : list N) : string :=
  foldr (λ c s, String.app (utf8 c) s) "" cs.

(** The code points a text can hold: not a surrogate, not above U+10FFFF. *)
Definition scalar (c : N) : bool :=
  ((c <? 0xD800) || (0xDFFF <? c) && (c <? 0x110000))%N.

(** What [String.prototype.trim] strips: the code points of the ECMAScript
    productions WhiteSpace (tab, vertical tab, form feed, U+FEFF and the
    Unicode space separators) and LineTerminator (line feed, carriage
    return, U+2028, U+2029). *)
Definition whiteSpaceCodePoints : list N :=
  [0x9; 0xB; 0xC; 0xFEFF;
   0x20; 0xA0; 0x1680; 0x2000; 0x2001; 0x2002; 0x2003; 0x2004; 0x2005;
   0x2006; 0x2007; 0x2008; 0x2009; 0x200A; 0x202F; 0x205F; 0x3000;
   0xA; 0xD; 0x2028; 0x2029]%N.

Definition whiteSpace : list string := utf8 <$> whiteSpaceCodePoints.

Definition isWhiteSpace (w : string) : bool := bool_decide (w ∈ whiteSpace).

(** The text after its leading white space.  A white space code point takes
    one, two or three bytes, and none of them begins another. *)
Fixpoint trimStart (s : string) : string :=
  match s with
  | String a r1 =>
      if isWhiteSpace (String a "") then trimStart r1
      else
        match r1 with
        | String b r2 =>
            if isWhiteSpace (String a (String b "")) then trimStart r2
            else
              match r2 with
              | String c r3 =>
                  if isWhiteSpace (String a (String b (String c "")))
                  then trimStart r3 else s
              | EmptyString => s
              end
        | EmptyString => s
        end
  | EmptyString => EmptyString
  end.

(** The text before its trailing white space: it ends where the rest is
    white space only.  In well-formed UTF-8 no code point begins inside
    another, so that rest is made of whole code points. *)
Fixpoint trimEnd (s : string) : string :=
  match s with
  | String a rest =>
      if decide (trimStart s = "") then "" else String a (trimEnd rest)
  | EmptyString => EmptyString
  end.

(** [String.prototype.trim].  On every well-formed text it leaves the code
    points between the leading and the trailing white space: lemma
    [trim_code_points]. *)
Definition trim (s : string) : string := trimEnd (trimStart s).

(** ** The post page ([PostDetail.tsx]) *)

Module PostDetail.

(** Component state: [post], [comments], [newComment], [replyingTo],
    [replyText].  [comments] is the root array with the heap behind it. *)
Record State := mkState {
  st_post : option Post;
  st_comments : gmap string CommentObj * list string;
  st_newComment : string;
  st_replyingTo : option string;
  st_replyText : string
}.

Definition setComments (st : State)
    (cs : gmap string CommentObj * list string) : State :=
  mkState (st_post st) cs (st_newComment st) (st_replyingTo st)
    (st_replyText st).

Definition setPost (st : State) (p : Post) : State :=
  mkState (Some p) (st_comments st) (st_newComment st) (st_replyingTo st)
    (st_replyText st).

Definition loadComments (postId : string) (d : DB) (st : State) : State :=
  setComments st (buildCommentTree (comments_list postId (db_comments d))).

(** When the post is gone the page shows a notice, switches to the home
    view and keeps its state. *)
Definition loadPostAndComments (postId : string) (d : DB) (st : State)
    : State :=
  match posts_list postId 1 (db_posts d) with
  | [] => st
  | p :: _ => loadComments postId d (setPost st p)
  end.

(** [newId] is the identifier the handler generates from the clock and
    the random generator. *)
Definition handleVote (postId userId newId : string)
    (targetId : string) (targetType : TargetType) (voteType : VoteType)
    (w : DB * State) : DB * State :=
  let d := w.1 in
  let existingVote := votes_list userId targetId targetType 1 (db_votes d) in
  let d' :=
    match existingVote with
    | v :: _ =>
        if decide (vote_voteType v = voteType)
        then withVotes d (votes_delete (vote_id v) (db_votes d))
        else withVotes d (votes_update (vote_id v) voteType (db_votes d))
    | [] =>
        withVotes d
          (votes_create (mkVote newId userId targetId targetType voteType)
             (db_votes d))
    end in
  match targetType with
  | post => (d', loadPostAndComments postId d' w.2)
  | comment => (d', loadComments postId d' w.2)
  end.

(** [now] is the creation time the store stamps on the new row. *)
Definition handleSubmitReply (postId userId newId now : string)
    (parentId : string) (depth : Z) (w : DB * State) : DB * State :=
  let st := w.2 in
  if decide (trim (st_replyText st) = "") then w
  else
    let d1 := withComments w.1
      (comments_create
         (mkComment newId (trim (st_replyText st)) userId postId (Some parentId)
            0 0 (Z.min (depth + 1) 10) false now)
         (db_comments w.1)) in
    let d2 :=
      match st_post st with
      | Some p =>
          withPosts d1
            (posts_update postId (setCommentCount (post_commentCount p + 1))
               (db_posts d1))
      | None => d1
      end in
    let st' :=
      mkState (st_post st) (st_comments st) (st_newComment st) None "" in
    (d2, loadComments postId d2 st').

Definition handleSubmitComment (postId userId newId now : string)
    (w : DB * State) : DB * State :=
  let st := w.2 in
  if decide (trim (st_newComment st) = "") then w
  else
    let d1 := withComments w.1
      (comments_create
         (mkComment newId (trim (st_newComment st)) userId postId None
            0 0 0 false now)
         (db_comments w.1)) in
    let d2 :=
      match st_post st with
      | Some p =>
          withPosts d1
            (posts_update postId (setCommentCount (post_commentCount p + 1))
               (db_posts d1))
      | None => d1
      end in
    let st' := mkState (st_post st) (st_comments st) "" (st_replyingTo st)
                 (st_replyText st) in
    (d2, loadComments postId d2 st').

(** The score [renderComment] prints next to a comment. *)
Definition commentScore (c : Comment) : Z :=
  comment_upvotes c - comment_downvotes c.

(** What the page prints for the loaded comments: each rendered comment
    with its score, or [None] when the object graph has no finite
    nesting. *)
Definition displayedScores (st : State) : option (list (string * Z)) :=
  (λ forest, (λ c, (comment_id c, commentScore c)) <$> flattenForest forest)
    <$> mapM (unfold (S (size (st_comments st).1)) (st_comments st).1)
          (st_comments st).2.

End PostDetail.

(** ** The home feed ([PostFeed.tsx]) *)

Module PostFeed.

Definition find (postId : string) (posts : list Post) : option Post :=
  head (filter (λ p, post_id p = postId) posts).

Definition replacePost (postId : string) (updatedPost : Post)
    (posts : list Post) : list Post :=
  (λ p, if decide (post_id p = postId) then updatedPost else p) <$> posts.

(** State is the [posts] array of the component. *)
Definition handleVote (userId newId : string)
    (postId : string) (voteType : VoteType)
    (w : DB * list Post) : DB * list Post :=
  let d := w.1 in
  let posts := w.2 in
  let existingVote := votes_list userId postId post 1 (db_votes d) in
  match existingVote with
  | v :: _ =>
      if decide (vote_voteType v = voteType) then
        let d1 := withVotes d (votes_delete (vote_id v) (db_votes d)) in
        match find postId posts with
        | Some p =>
            let updatedPost :=
              match voteType with
              | upvote => setUpvotes (post_upvotes p - 1) p
              | downvote => setDownvotes (post_downvotes p - 1) p
              end in
            let patch :=
              match voteType with
              | upvote => setUpvotes (post_upvotes updatedPost)
              | downvote => setDownvotes (post_downvotes updatedPost)
              end in
            (withPosts d1 (posts_update postId patch (db_posts d1)),
             replacePost postId updatedPost posts)
        | None => (d1, posts)
        end
      else
        let d1 :=
          withVotes d (votes_update (vote_id v) voteType (db_votes d)) in
        match find postId posts with
        | Some p =>
            let updatedPost :=
              setDownvotes
                (if decide (voteType = downvote)
                 then post_downvotes p + 1 else post_downvotes p - 1)
                (setUpvotes
                   (if decide (voteType = upvote)
                    then post_upvotes p + 1 else post_upvotes p - 1) p) in
            let patch q :=
              setDownvotes (post_downvotes updatedPost)
                (setUpvotes (post_upvotes updatedPost) q) in
            (withPosts d1 (posts_update postId patch (db_posts d1)),
             replacePost postId updatedPost posts)
        | None => (d1, posts)
        end
  | [] =>
      let d1 := withVotes d
        (votes_create (mkVote newId userId postId post voteType)
           (db_votes d)) in
      match find postId posts with
      | Some p =>
          let updatedPost :=
            match voteType with
            | upvote => setUpvotes (post_upvotes p + 1) p
            | downvote => setDownvotes (post_downvotes p + 1) p
            end in
          let patch :=
            match voteType with
            | upvote => setUpvotes (post_upvotes updatedPost)
            | downvote => setDownvotes (post_downvotes updatedPost)
            end in
          (withPosts d1 (posts_update postId patch (db_posts d1)),
           replacePost postId updatedPost posts)
      | None => (d1, posts)
      end
  end.

End PostFeed.

(** ** The post card ([PostCard.tsx]) *)

Module PostCard.

Definition getVoteScore (p : Post) : Z := post_upvotes p - post_downvotes p.

(** The card calls the page's [onVote] and toggles its own highlight
    [userVote]. *)
Definition handleVote {W : Type} (onVote : string → VoteType → W → W)
    (p : Post) (voteType : VoteType) (w : W * option VoteType)
    : W * option VoteType :=
  (onVote (post_id p) voteType w.1,
   if decide (w.2 = Some voteType) then None else Some voteType).

End PostCard.

(** ** Pages whose vote handler only logs *)

Definition voteTypeName (v : VoteType) : string :=
  match v with upvote => "upvote" | downvote => "downvote" end.

(** What a page holds besides the store: the posts it shows and the
    browser console. *)
Record Page := mkPage {
  page_db : DB;
  page_posts : list Post;
  page_console : list (list string)
}.

Definition consoleLog (line : list string) (w : Page) : Page :=
  mkPage (page_db w) (page_posts w) (page_console w ++ [line]).

Module SearchResults.
Definition handleVote (postId : string) (voteType : VoteType) (w : Page)
    : Page :=
  consoleLog ["Vote:"; postId; voteTypeName voteType] w.
End SearchResults.

Module TrendingPage.
Definition handleVote (postId : string) (voteType : VoteType) (w : Page)
    : Page :=
  consoleLog ["Vote:"; postId; voteTypeName voteType] w.
End TrendingPage.

(** ** What a vote submission does to the vote collection *)

(** The effect on [votes] that [PostDetail.handleVote] and
    [PostFeed.handleVote] have in common (lemmas [PostDetail_votes] and
    [PostFeed_votes] below). *)
Definition voteRows (userId newId targetId : string) (targetType : TargetType)
    (voteType : VoteType) (rows : list Vote) : list Vote :=
  match votes_list userId targetId targetType 1 rows with
  | v :: _ =>
      if decide (vote_voteType v = voteType)
      then votes_delete (vote_id v) rows
      else votes_update (vote_id v) voteType rows
  | [] => votes_create (mkVote newId userId targetId targetType voteType) rows
  end.

(** The three cases of the design document, as a relation between the
    collection before and after: retract, change of direction, create. *)
Definition voteOutcome (userId newId targetId : string)
    (targetType : TargetType) (voteType : VoteType)
    (rows rows' : list Vote) : Prop :=
  (∀ v, v ∈ rows → voteMatches userId targetId targetType v →
        vote_voteType v = voteType →
        rows' = filter (λ x, x ≠ v) rows ∧ (v ∉ rows') ∧
        (∀ x, x ∈ rows' → ¬ voteMatches userId targetId targetType x)) ∧
  (∀ v, v ∈ rows → voteMatches userId targetId targetType v →
        vote_voteType v ≠ voteType →
        rows' = (λ x, if decide (x = v) then setVoteType voteType v else x)
                  <$> rows) ∧
  ((∀ v, v ∈ rows → ¬ voteMatches userId targetId targetType v) →
   rows' = rows ++ [mkVote newId userId targetId targetType voteType]).

(** ** Sample inputs *)

(** The thread of the design document: A, B answering A, C answering B and
    D answering A, in creation order. *)
Definition cA := mkComment "A" "first" "u1" "p1" None 0 0 0 false "t1".
Definition cB := mkComment "B" "second" "u2" "p1" (Some "A") 0 0 1 false "t2".
Definition cC := mkComment "C" "third" "u1" "p1" (Some "B") 0 0 2 false "t3".
Definition cD := mkComment "D" "fourth" "u3" "p1" (Some "A") 0 0 1 false "t4".

(** Two rows with the same identifier, the second answering the first, and
    two comments answering each other. *)
Definition cA' := mkComment "A" "again" "u2" "p1" (Some "A") 0 0 1 false "t2".
Definition cP := mkComment "P" "ping" "u1" "p1" (Some "Q") 0 0 1 false "t1".
Definition cQ := mkComment "Q" "pong" "u2" "p1" (Some "P") 0 0 1 false "t2".

(** A reply whose parent is not among the comments of the post. *)
Definition cX := mkComment "X" "lost" "u2" "p1" (Some "gone") 0 0 1 false "t5".

(** A post with one comment, on which user [u1] has an upvote. *)
Definition post1 := mkPost "p1" "title" "u0" "g1" 3 1 1 "t0".
Definition comment1 := mkComment "c1" "hello" "u2" "p1" None 1 0 0 false "t1".
Definition vote1 := mkVote "v1" "u1" "c1" comment upvote.
Definition db1 := mkDB [vote1] [comment1] [post1].

(** The post page before anything is loaded. *)
Definition initState : PostDetail.State :=
  PostDetail.mkState None (∅, []) "" None "".

(** The user opens the reply form of [commentId] and types [text]
    ([setReplyingTo], [setReplyText]). *)
Definition typeReply (commentId text : string) (st : PostDetail.State)
    : PostDetail.State :=
  PostDetail.mkState (PostDetail.st_post st) (PostDetail.st_comments st)
    (PostDetail.st_newComment st) (Some commentId) text.

(** ** Collapsing and rendering the thread ([PostDetail.tsx]) *)

(** [collapsedComments] is a [Set<string>]; the handler copies it and flips
    the membership of [commentId]. *)
Definition toggleCommentCollapse (commentId : string)
    (collapsedComments : gset string) : gset string :=
  if decide (commentId ∈ collapsedComments)
  then collapsedComments ∖ {[commentId]}
  else collapsedComments ∪ {[commentId]}.

(** What [renderComment] puts on the page for one comment: the left margin
    class [ml-N] if any, the border for nested comments, the score, the
    collapse button with its state when there are replies, the text, and
    whether the action row and the reply form are there. *)
Record CommentRow := mkRow {
  row_comment : Comment;
  row_depth : Z;
  row_indent : option Z;
  row_border : bool;
  row_score : Z;
  row_collapseButton : option bool;
  row_text : string;
  row_actions : bool;
  row_replyForm : bool
}.

Global Instance CommentRow_eq_dec : EqDecision CommentRow.
Proof. solve_decision. Defined.

Definition maxDepth : Z := 8.

(** [renderComment(comment, depth = 0)]: the row of the comment, then the
    rows of its replies one level deeper unless the comment is collapsed.
    The reply button of a row calls [handleSubmitReply(comment.id, depth)]. *)
Fixpoint renderComment (collapsedComments : gset string)
    (replyingTo : option string) (depth : Z) (t : Tree) {struct t}
    : list CommentRow :=
  match t with
  | Node c replies =>
      let isCollapsed := bool_decide (comment_id c ∈ collapsedComments) in
      let shouldIndent := bool_decide (depth < maxDepth) in
      mkRow c depth
        (if shouldIndent then Some (Z.min (depth * 4) 32) else None)
        (bool_decide (depth > 0))
        (comment_upvotes c - comment_downvotes c)
        (match replies with [] => None | _ :: _ => Some isCollapsed end)
        (if comment_isDeleted c then "[Comment deleted]"
         else comment_content c)
        (negb isCollapsed)
        (bool_decide (replyingTo = Some (comment_id c)))
      :: (if isCollapsed then []
          else concat (map (renderComment collapsedComments replyingTo
                              (depth + 1)) replies))
  end.

(** [comments.map(comment => renderComment(comment))] *)
Definition renderComments (collapsedComments : gset string)
    (replyingTo : option string) (forest : list Tree) : list CommentRow :=
  concat (map (renderComment collapsedComments replyingTo 0) forest).

(** Every node of a tree with the identifiers of the comments above it,
    nearest first. *)
Fixpoint withAncestors (above : list string) (t : Tree)
    : list (Comment * list string) :=
  match t with
  | Node c replies =>
      (c, above)
      :: concat (map (withAncestors (comment_id c :: above)) replies)
  end.

(** No comment above is collapsed. *)
Definition allExpanded (collapsed : gset string)
    (p : Comment * list string) : Prop :=
  Forall (λ k, k ∉ collapsed) p.2.

Global Instance allExpanded_dec collapsed p :
  Decision (allExpanded collapsed p).
Proof. unfold allExpanded. apply _. Defined.

(** A rendered row, and a node of the thread, as comment and depth. *)
Definition shownAt (r : CommentRow) : Comment * Z :=
  (row_comment r, row_depth r).

Definition nestedAt (p : Comment * list string) : Comment * Z :=
  (p.1, Z.of_nat (length p.2)).

(** Text made of ASCII white space only (tab, line feed, vertical tab, form
    feed, carriage return, space). *)
Fixpoint allSpace (s : string) : bool :=
  match s with
  | String a rest => Ascii.is_space a && allSpace rest
  | EmptyString => true
  end.

Fixpoint isPrefix (w s : string) : bool :=
  match w, s with
  | EmptyString, _ => true
  | String a w', String b s' => bool_decide (a = b) && isPrefix w' s'
  | String _ _, EmptyString => false
  end.

Definition isSuffix (w s : string) : bool :=
  isPrefix (String.rev w) (String.rev s).

(** Text that begins, or ends, with a white space code point. *)
Definition startsWithSpace (s : string) : bool :=
  existsb (λ w, isPrefix w s) whiteSpace.

Definition endsWithSpace (s : string) : bool :=
  existsb (λ w, isSuffix w s) whiteSpace.

(** Well-formed UTF-8 (Unicode Standard, table 3-7): the shortest encoding
    of each code point, no surrogate, nothing above U+10FFFF.  The text of
    an input field is of this kind. *)
Definition within (lo hi : N) (a : Stdlib.Strings.Ascii.ascii) : bool :=
  ((lo <=? byteCode a) && (byteCode a <=? hi))%N.

Definition continuation : Stdlib.Strings.Ascii.ascii → bool :=
  within 0x80 0xBF.

Definition twoBytes (a b : Stdlib.Strings.Ascii.ascii) : bool :=
  within 0xC2 0xDF a && continuation b.

Definition threeBytes (a b c : Stdlib.Strings.Ascii.ascii) : bool :=
  (within 0xE0 0xE0 a && within 0xA0 0xBF b
   || within 0xE1 0xEC a && continuation b
   || within 0xED 0xED a && within 0x80 0x9F b
   || within 0xEE 0xEF a && continuation b)
  && continuation c.

Definition fourBytes (a b c d : Stdlib.Strings.Ascii.ascii) : bool :=
  (within 0xF0 0xF0 a && within 0x90 0xBF b
   || within 0xF1 0xF3 a && continuation b
   || within 0xF4 0xF4 a && within 0x80 0x8F b)
  && continuation c && continuation d.

Fixpoint wellFormed (s : string) : bool :=
  match s with
  | String a r1 =>
      if within 0x00 0x7F a then wellFormed r1
      else
        match r1 with
        | String b r2 =>
            if twoBytes a b then wellFormed r2
            else
              match r2 with
              | String c r3 =>
                  if threeBytes a b c then wellFormed r3
                  else
                    match r3 with
                    | String d r4 => fourBytes a b c d && wellFormed r4
                    | EmptyString => false
                    end
              | EmptyString => false
              end
        | EmptyString => false
        end
  | EmptyString => true
  end.

(** White space code points, and a body: code points of a text, at least
    one, that neither begin nor end with white space. *)
Definition spaces (ws : list N) : Prop :=
  Forall (λ c, c ∈ whiteSpaceCodePoints) ws.

Definition solid (body : list N) : Prop :=
  body ≠ [] ∧ Forall (λ c, scalar c = true) body ∧
  (∀ c, head body = Some c → c ∉ whiteSpaceCodePoints) ∧
  (∀ c, last body = Some c → c ∉ whiteSpaceCodePoints).

Global Instance spaces_dec ws : Decision (spaces ws).
Proof. unfold spaces. apply _. Defined.

(** The code points of "well said", and that text with white space around
    it: a no-break space and a space before, an ideographic space and
    U+FEFF after. *)
Definition wellSaid : list N :=
  [0x77; 0x65; 0x6C; 0x6C; 0x20; 0x73; 0x61; 0x69; 0x64]%N.

Definition paddedText : string :=
  textOf ([0xA0; 0x20]%N ++ wellSaid ++ [0x3000; 0xFEFF]%N).

(** ** Votes and counters on the home feed *)

(** The number of vote rows of one direction on a post. *)
Definition countsFor (postId : string) (voteType : VoteType) (v : Vote)
    : Prop :=
  vote_targetId v = postId ∧ vote_targetType v = post ∧
  vote_voteType v = voteType.

Global Instance countsFor_dec postId voteType v :
  Decision (countsFor postId voteType v).
Proof. unfold countsFor. apply _. Defined.

Definition countVotes (postId : string) (voteType : VoteType)
    (rows : list Vote) : Z :=
  Z.of_nat (length (filter (countsFor postId voteType) rows)).

(** The counters of a post agree with the vote rows. *)
Definition tallied (rows : list Vote) (p : Post) : Prop :=
  post_upvotes p = countVotes (post_id p) upvote rows ∧
  post_downvotes p = countVotes (post_id p) downvote rows.

(** The direction of the user's vote on a post, if there is one. *)
Definition userVoteOf (userId postId : string) (rows : list Vote)
    : option VoteType :=
  vote_voteType <$> head (filter (voteMatches userId postId post) rows).

(** The change of (upvotes, downvotes) that [PostFeed.handleVote] applies
    to the page's copy of the post, by the user's vote before the click and
    the direction clicked. *)
Definition voteDelta (existing : option VoteType) (voteType : VoteType)
    : Z * Z :=
  match existing, voteType with
  | None, upvote => (1, 0)
  | None, downvote => (0, 1)
  | Some upvote, upvote => (-1, 0)
  | Some downvote, downvote => (0, -1)
  | Some downvote, upvote => (1, -1)
  | Some upvote, downvote => (-1, 1)
  end.

(** The rewrite of a post row by a change [(du, dd)] computed from the
    page's copy [p]: a counter that changes is set from the copy, the other
    one is kept. *)
Definition bump (du dd : Z) (p q : Post) : Post :=
  setDownvotes
    (if decide (dd = 0) then post_downvotes q else post_downvotes p + dd)
    (setUpvotes
       (if decide (du = 0) then post_upvotes q else post_upvotes p + du) q).

(** 1 when the proposition holds, else 0. *)
Definition indicator (P : Prop) `{!Decision P} : Z :=
  if decide P then 1 else 0.

(** A feed whose only post has one upvote, by user [u1]. *)
Definition postF := mkPost "p1" "title" "u0" "g1" 1 0 0 "t0".
Definition voteF := mkVote "v1" "u1" "p1" post upvote.
Definition dbF := mkDB [voteF] [] [postF].

(** ** Loading the home feed ([PostFeed.tsx], [loadPosts]) *)

Module PostFeedLoad.

Inductive SortBy := hot | new | top.

Definition byUpvotesDesc (a b : Post) : Prop :=
  post_upvotes b ≤ post_upvotes a.

Definition byCreatedAtDesc (a b : Post) : Prop :=
  (post_createdAt b ≤ post_createdAt a)%string.

(** The [orderBy] the function computes: creation time descending, replaced
    by upvotes descending for [hot] and, in a second branch, for [top]. *)
Definition orderBy (sortBy : SortBy) : relation Post :=
  match sortBy with
  | hot => byUpvotesDesc
  | top => byUpvotesDesc
  | new => byCreatedAtDesc
  end.

Global Instance orderBy_dec sortBy : RelDecision (orderBy sortBy).
Proof.
  intros a b. destruct sortBy; unfold orderBy, byUpvotesDesc, byCreatedAtDesc;
    apply _.
Defined.

(** Modelled from the spec: [blink.db.posts.list({ orderBy, limit })], the
    rows sorted by the requested order and cut at [limit]. *)
Definition posts_listOrdered (R : relation Post) `{!RelDecision R}
    (limit : nat) (rows : list Post) : list Post :=
  take limit (merge_sort R rows).

(** The posts the feed shows after [loadPosts]. *)
Definition loadPosts (sortBy : SortBy) (d : DB) : list Post :=
  posts_listOrdered (orderBy sortBy) 20 (db_posts d).

End PostFeedLoad.

(** ** The trending page ([TrendingPage.tsx], [loadTrendingContent])

    The part of [loadTrendingContent] that fills [trendingPosts].  The
    author and the community of a post, and its [viewCount] and
    [shareCount] drawn with [Math.random], are for display only and are
    left out. *)

Module TrendingLoad.

(** [interface TrendingPost]: a post with its score. *)
Record TrendingPost := mkTrendingPost {
  tp_post : Post;
  tp_trendingScore : float
}.

(** A counter as the JS number it is. *)
Definition number (z : Z) : float :=
  match z with
  | Z0 => 0%float
  | Zpos _ => of_uint63 (Uint63.of_Z z)
  | Zneg _ => (- of_uint63 (Uint63.of_Z (- z)))%float
  end.

(** [Array.prototype.sort(compare)].  ECMAScript reads a NaN from the
    comparator as 0 and puts [a] after [b] only when [compare a b] is
    positive.  For a consistent comparator the result is the sorted order
    in which entries that compare equal keep their places (the sort is
    stable), which sorting by insertion gives; for any other comparator
    ECMAScript leaves the order to the engine, and the result is a
    permutation. *)
Definition notAfter {A} (compare : A → A → float) (a b : A) : Prop :=
  (0 <? compare a b)%float = false.

Global Instance notAfter_dec {A} (compare : A → A → float) :
  RelDecision (notAfter compare).
Proof. intros a b. unfold notAfter. apply _. Defined.

Fixpoint Array_insert {A} (compare : A → A → float) (x : A) (l : list A)
    : list A :=
  match l with
  | [] => [x]
  | y :: l' =>
      if decide (notAfter compare x y) then x :: l
      else y :: Array_insert compare x l'
  end.

Definition Array_sort {A} (compare : A → A → float) (l : list A) : list A :=
  foldr (Array_insert compare) [] l.

Global Instance byCreatedAtDesc_dec : RelDecision PostFeedLoad.byCreatedAtDesc.
Proof. intros a b. unfold PostFeedLoad.byCreatedAtDesc. apply _. Defined.

Section builtins.

(** Built-ins of the language: [Math.pow], and [new Date(s).getTime()],
    the time value of a date string in milliseconds, NaN when the string is
    no date. *)
Variable Math_pow : float → float → float.
Variable Date_getTime : string → float.

(** The score computed in the callback of one post; [dateNow] is what
    [Date.now()] returns there. *)
Definition trendingScore (dateNow : float) (p : Post) : float :=
  let hoursOld :=
    ((dateNow - Date_getTime (post_createdAt p)) / (1000 * 60 * 60))%float in
  let score := (number (post_upvotes p) - number (post_downvotes p))%float in
  (score / Math_pow (hoursOld + 2) 1.5)%float.

(** [new Date(post.createdAt) >= timeframeCutoff]: two dates compare by
    their time values, and no comparison with NaN holds. *)
Definition insideCutoff (timeframeCutoff : float) (tp : TrendingPost)
    : Prop :=
  (timeframeCutoff <=? Date_getTime (post_createdAt (tp_post tp)))%float
    = true.

Global Instance insideCutoff_dec c tp : Decision (insideCutoff c tp).
Proof. unfold insideCutoff. apply _. Defined.

(** [(a, b) => b.trendingScore - a.trendingScore] *)
Definition byTrendingScore (a b : TrendingPost) : float :=
  (tp_trendingScore b - tp_trendingScore a)%float.

(** The fifty newest posts, each with its score.  [dateNow i] is the clock
    as the callback of the [i]-th fetched post reads it. *)
Definition enrichedPosts (dateNow : nat → float) (d : DB)
    : list TrendingPost :=
  let postsData :=
    PostFeedLoad.posts_listOrdered PostFeedLoad.byCreatedAtDesc 50
      (db_posts d) in
  imap (λ i p, mkTrendingPost p (trendingScore (dateNow i) p)) postsData.

(** The posts the page shows.  [timeframeCutoff] is the time value of the
    date that the switch on [timeframe] computes from the clock and the
    local calendar. *)
Definition loadTrendingContent (dateNow : nat → float)
    (timeframeCutoff : float) (d : DB) : list TrendingPost :=
  take 20
    (Array_sort byTrendingScore
       (filter (insideCutoff timeframeCutoff) (enrichedPosts dateNow d))).

End builtins.

(** A list in non-increasing order of score: every entry has a score not
    below that of the entry after it. *)
Definition nonIncreasing (l : list TrendingPost) : Prop :=
  ∀ (i : nat) a b, l !! i = Some a → l !! S i = Some b →
    (tp_trendingScore b <=? tp_trendingScore a)%float = true.

End TrendingLoad.

(** The order in which the score does not go up. *)
Definition scoreNotAbove (a b : TrendingLoad.TrendingPost) : Prop :=
  (TrendingLoad.tp_trendingScore b <=? TrendingLoad.tp_trendingScore a)%float
    = true.

(** A binary64 number above zero, in the representation the Standard
    Library specifies the operations on. *)
Definition SFpos (r : spec_float) : bool :=
  match r with
  | S754_finite false _ _ | S754_infinity false => true
  | _ => false
  end.

(** Three posts, stamped three hours and one hour before 2024-05-01 11:00
    UTC and three hours after it, with sample built-ins: a [Math.pow] for
    the exponent 1.5 and the time values of the three stamps. *)
Definition postOlder : Post :=
  mkPost "p4" "older" "u0" "g1" 3 1 0 "2024-05-01T08:00:00.000Z".
Definition postPast : Post :=
  mkPost "p3" "early" "u0" "g1" 8 0 0 "2024-05-01T10:00:00.000Z".

Definition powSample (b e : float) : float :=
  if (b <? 0)%float then nan else (b * sqrt b)%float.

Definition getTimeSample (s : string) : float :=
  if decide (s = "2024-05-01T14:00:00.000Z") then 1714572000000%float
  else if decide (s = "2024-05-01T10:00:00.000Z") then 1714557600000%float
  else if decide (s = "2024-05-01T08:00:00.000Z") then 1714550400000%float
  else nan.

(** The user types [text] into the comment box ([setNewComment]). *)
Definition typeComment (text : string) (st : PostDetail.State)
    : PostDetail.State :=
  PostDetail.mkState (PostDetail.st_post st) (PostDetail.st_comments st)
    text (PostDetail.st_replyingTo st) (PostDetail.st_replyText st).

(** ** Notifications ([App.tsx], [NotificationCenter.tsx]) *)

(** [interface Notification]; [type] is kept as the string it is. *)
Record Notification := mkNotification {
  notification_id : string;
  notification_userId : string;
  notification_type : string;
  notification_title : string;
  notification_message : string;
  notification_isRead : bool;
  notification_actionUrl : option string;
  notification_createdAt : string
}.

Global Instance Notification_eq_dec : EqDecision Notification.
Proof. solve_decision. Defined.

(** [{ ...n, isRead: true }] *)
Definition markRead (n : Notification) : Notification :=
  mkNotification (notification_id n) (notification_userId n)
    (notification_type n) (notification_title n) (notification_message n)
    true (notification_actionUrl n) (notification_createdAt n).

Definition markReadAt (id : string) (n : Notification) : Notification :=
  if decide (notification_id n = id) then markRead n else n.

(** Modelled from the spec: [blink.db.notifications.update(id,
    { isRead: true })] rewrites that field of the row with that id. *)
Definition notifications_update (id : string) (rows : list Notification)
    : list Notification :=
  markReadAt id <$> rows.

(** [notifications.filter(n => !n.isRead)] *)
Definition unread (ns : list Notification) : list Notification :=
  filter (λ n, notification_isRead n = false) ns.

(** Mark the notification as read when its identifier is one of [ids]. *)
Definition markReadIn (ids : list string) (n : Notification) : Notification :=
  if decide (notification_id n ∈ ids) then markRead n else n.

Module App.

(** The part of the application state that holds the notifications and
    the number on the bell. *)
Record Inbox := mkInbox {
  notifications : list Notification;
  unreadCount : Z
}.

(** The store is updated, then the two state updates run on the state as
    it is at that moment ([setNotifications(prev => ...)],
    [setUnreadCount(prev => Math.max(0, prev - 1))]). *)
Definition markNotificationAsRead (notificationId : string)
    (w : list Notification * Inbox) : list Notification * Inbox :=
  (notifications_update notificationId w.1,
   mkInbox (markReadAt notificationId <$> notifications w.2)
     (Z.max 0 (unreadCount w.2 - 1))).

End App.

Module NotificationCenter.

(** Every unread notification of the list is updated in the store, then
    the parent's [onMarkAsRead] is called for each of them.  The calls are
    started together; their state updates are functional and are applied
    one after the other. *)
Definition markAllAsRead (w : list Notification * App.Inbox)
    : list Notification * App.Inbox :=
  let unreadNotifications := unread (App.notifications w.2) in
  let rows :=
    foldl (λ rows n, notifications_update (notification_id n) rows) w.1
      unreadNotifications in
  foldl (λ w' n, App.markNotificationAsRead (notification_id n) w')
    (rows, w.2) unreadNotifications.

End NotificationCenter.

(** Two notifications of one user, the first one unread. *)
Definition note1 :=
  mkNotification "n1" "u1" "reply" "New reply" "someone replied" false
    (Some "/post/p1") "t1".
Definition note2 :=
  mkNotification "n2" "u1" "upvote" "Upvote" "someone upvoted" true None "t2".

(** * Properties of the tree builder *)

Section build_heap.
Implicit Types (m : gmap string CommentObj) (cs : list Comment) (k : string).

Lemma firstPass_snoc cs c :
  firstPass (cs ++ [c]) = <[comment_id c := mkObj c []]> (firstPass cs).
Proof. unfold firstPass. by rewrite foldl_app. Qed.

Lemma firstPass_lookup cs k :
  firstPass cs !! k = (λ c, mkObj c []) <$> last (withId cs k).
Proof.
  induction cs as [|c cs IH] using rev_ind; [done|].
  rewrite firstPass_snoc. unfold withId in *. rewrite filter_app, filter_cons.
  destruct (decide (comment_id c = k)) as [->|Hne].
  - rewrite lookup_insert_eq. by rewrite filter_nil, last_snoc.
  - rewrite lookup_insert_ne by done. by rewrite filter_nil, app_nil_r.
Qed.

Lemma secondPass_roots m (r : list string) cs :
  (foldl secondPassStep (m, r) cs).2 = r ++ (comment_id <$> rootsOf cs).
Proof.
  revert m r. induction cs as [|c cs IH]; intros m r; simpl.
  - by rewrite app_nil_r.
  - unfold rootsOf in *. rewrite filter_cons. unfold secondPassStep at 2.
    destruct (parentRef c) as [p|] eqn:Hp; simpl.
    + destruct (m !! p); simpl; apply IH.
    + rewrite IH. by rewrite <- app_assoc.
Qed.

Lemma secondPass_lookup m (r : list string) cs k :
  (foldl secondPassStep (m, r) cs).1 !! k =
  (λ o, mkObj (obj_data o) (obj_replies o ++ (comment_id <$> childrenOf cs k)))
    <$> m !! k.
Proof.
  revert m r. induction cs as [|c cs IH]; intros m r; simpl.
  - destruct (m !! k) as [[d rs]|]; simpl; [|done]. by rewrite app_nil_r.
  - unfold childrenOf in *. rewrite filter_cons. unfold secondPassStep at 2.
    destruct (parentRef c) as [p|] eqn:Hp; simpl.
    + destruct (m !! p) as [o|] eqn:Hmp; simpl.
      * rewrite IH. destruct (decide (p = k)) as [->|Hne].
        -- rewrite lookup_insert_eq, Hmp, decide_True by done. simpl.
           by rewrite <- app_assoc.
        -- rewrite lookup_insert_ne by done.
           rewrite decide_False by congruence. done.
      * rewrite IH. destruct (decide (p = k)) as [->|Hne].
        -- by rewrite Hmp.
        -- rewrite decide_False by congruence. done.
    + apply IH.
Qed.

(** The heap and the root array that [buildCommentTree] returns, in
    closed form. *)
Lemma build_roots cs :
  (buildCommentTree cs).2 = comment_id <$> rootsOf cs.
Proof. unfold buildCommentTree. by rewrite secondPass_roots. Qed.

Lemma build_lookup cs k :
  (buildCommentTree cs).1 !! k =
  (λ c, mkObj c (comment_id <$> childrenOf cs k)) <$> last (withId cs k).
Proof.
  unfold buildCommentTree. rewrite secondPass_lookup, firstPass_lookup.
  by destruct (last (withId cs k)).
Qed.

Lemma withId_notin cs k : k ∉ comment_id <$> cs → withId cs k = [].
Proof.
  unfold withId. induction cs as [|x cs IH]; intros Hk; [done|].
  rewrite fmap_cons in Hk. apply not_elem_of_cons in Hk as [Hx Hk].
  rewrite filter_cons, decide_False by done. by apply IH.
Qed.

Lemma withId_unique cs c :
  NoDup (comment_id <$> cs) → c ∈ cs → withId cs (comment_id c) = [c].
Proof.
  unfold withId. induction cs as [|x cs IH]; intros Hnd Hin.
  - by apply elem_of_nil in Hin.
  - rewrite fmap_cons in Hnd. apply NoDup_cons in Hnd as [Hx Hnd].
    rewrite filter_cons. apply elem_of_cons in Hin as [->|Hin].
    + rewrite decide_True by done. f_equal. by apply withId_notin.
    + rewrite decide_False; [by apply IH|].
      intros Heq. apply Hx. rewrite Heq. by apply list_elem_of_fmap_2.
Qed.

Lemma withId_elem cs k c : c ∈ withId cs k ↔ c ∈ cs ∧ comment_id c = k.
Proof. unfold withId. by rewrite list_elem_of_filter, (comm and). Qed.

(** With distinct identifiers the cell at [comment.id] is that comment. *)
Lemma build_lookup_unique cs c :
  NoDup (comment_id <$> cs) → c ∈ cs →
  (buildCommentTree cs).1 !! comment_id c =
  Some (mkObj c (comment_id <$> childrenOf cs (comment_id c))).
Proof.
  intros Hnd Hin. by rewrite build_lookup, withId_unique.
Qed.

Lemma build_lookup_Some cs k o :
  (buildCommentTree cs).1 !! k = Some o →
  comment_id (obj_data o) = k ∧ obj_data o ∈ cs ∧
  obj_replies o = comment_id <$> childrenOf cs k.
Proof.
  rewrite build_lookup. destruct (last (withId cs k)) as [c|] eqn:Hl; [|done].
  intros [= <-]. simpl. apply last_Some_elem_of in Hl.
  destruct (proj1 (withId_elem _ _ _) Hl) as [Hin Hid]. done.
Qed.

Lemma build_lookup_None cs k :
  k ∉ comment_id <$> cs → (buildCommentTree cs).1 !! k = None.
Proof. intros Hk. by rewrite build_lookup, withId_notin. Qed.
End build_heap.

Section trees.
Implicit Types (m : gmap string CommentObj) (cs : list Comment) (k : string).
Implicit Types (t : Tree) (ts : list Tree).

(** Induction on trees, with the hypothesis for every direct reply. *)
Lemma Tree_ind_Forall (P : Tree → Prop) :
  (∀ c ts, Forall P ts → P (Node c ts)) → ∀ t, P t.
Proof.
  intros step. fix IH 1. intros [c ts]. apply step.
  induction ts as [|t ts IHts]; constructor; [apply IH | apply IHts].
Qed.

Lemma nodeCount_flatten t : nodeCount t = length (flatten t).
Proof.
  induction t as [c ts IH] using Tree_ind_Forall. simpl. f_equal.
  induction IH as [|t ts Ht _ IHts]; simpl; [done|].
  by rewrite length_app, Ht, IHts.
Qed.

Lemma forestCount_flatten ts : forestCount ts = length (flattenForest ts).
Proof.
  unfold forestCount, flattenForest.
  induction ts as [|t ts IH]; simpl; [done|].
  by rewrite length_app, nodeCount_flatten, IH.
Qed.

Lemma flattenForest_cons t ts :
  flattenForest (t :: ts) = flatten t ++ flattenForest ts.
Proof. done. Qed.

Lemma flattenForest_app ts1 ts2 :
  flattenForest (ts1 ++ ts2) = flattenForest ts1 ++ flattenForest ts2.
Proof. unfold flattenForest. by rewrite map_app, concat_app. Qed.

(** More fuel never changes a result. *)
Lemma unfold_fuel_S f m k t :
  unfold f m k = Some t → unfold (S f) m k = Some t.
Proof.
  revert k t. induction f as [|f IH]; intros k t; [done|].
  intros H. simpl in H. destruct (m !! k) as [o|] eqn:Hk; [|done].
  destruct (mapM (unfold f m) (obj_replies o)) as [ts|] eqn:Hts; [|done].
  injection H as <-. change (unfold (S (S f)) m k) with
    (match m !! k with
     | Some o => match mapM (unfold (S f) m) (obj_replies o) with
                 | Some ts => Some (Node (obj_data o) ts)
                 | None => None
                 end
     | None => None
     end).
  rewrite Hk. apply mapM_Some in Hts.
  assert (mapM (unfold (S f) m) (obj_replies o) = Some ts) as ->; [|done].
  apply mapM_Some. eapply Forall2_impl; [exact Hts|].
  intros r t' Hr. by apply IH.
Qed.

Lemma Forall2_map_r {A B C} (P : A → B → Prop) (Q : A → C → Prop)
    (g : B → C) (l : list A) (l' : list B) :
  (∀ x y, P x y → Q x (g y)) → Forall2 P l l' → Forall2 Q l (map g l').
Proof.
  intros HPQ H. induction H as [|x y l l' Hxy _ IH]; cbn [map]; constructor;
    [by apply HPQ | exact IH].
Qed.

Lemma unfold_leaf m c f :
  m !! comment_id c = Some (mkObj c []) →
  unfold (S f) m (comment_id c) = Some (Node c []).
Proof. intros H. simpl. by rewrite H. Qed.

(** Appending one comment to the input grafts one leaf into every tree
    that was already there.  [m] is the heap before, [m'] the heap after. *)
Lemma unfold_graft m m' c f k t :
  (∀ k o, m !! k = Some o →
     comment_id (obj_data o) = k ∧
     m' !! k = Some (mkObj (obj_data o)
       (obj_replies o ++
        if decide (parentRef c = Some k) then [comment_id c] else []))) →
  m' !! comment_id c = Some (mkObj c []) →
  unfold f m k = Some t → unfold (S f) m' k = Some (graft c t).
Proof.
  intros Hext Hc. revert k t. induction f as [|f IH]; intros k t; [done|].
  intros H. simpl in H. destruct (m !! k) as [o|] eqn:Hk; [|done].
  destruct (mapM (unfold f m) (obj_replies o)) as [ts|] eqn:Hts; [|done].
  injection H as <-. destruct (Hext _ _ Hk) as [Hid Hk'].
  change (unfold (S (S f)) m' k) with
    (match m' !! k with
     | Some o => match mapM (unfold (S f) m') (obj_replies o) with
                 | Some ts => Some (Node (obj_data o) ts)
                 | None => None
                 end
     | None => None
     end).
  rewrite Hk'. cbn [obj_replies obj_data graft]. rewrite Hid.
  apply mapM_Some in Hts.
  match goal with |- context [mapM ?g ?l] =>
    assert (mapM g l = Some (map (graft c) ts ++
      if decide (parentRef c = Some k) then [Node c []] else [])) as ->; [|done]
  end.
  apply mapM_Some. apply Forall2_app.
  - eapply Forall2_map_r; [|exact Hts]. intros r t' Hr. by apply IH.
  - destruct (decide (parentRef c = Some k)); [|constructor].
    constructor; [|constructor]. by apply unfold_leaf.
Qed.

Lemma flatten_graft c t :
  flatten (graft c t) ≡ₚ
  flatten t ++
  replicate
    (length (filter (λ d, parentRef c = Some (comment_id d)) (flatten t))) c.
Proof.
  induction t as [d ts IH] using Tree_ind_Forall. cbn [graft flatten].
  rewrite filter_cons. rewrite map_app, concat_app.
  assert (concat (map flatten (map (graft c) ts)) ≡ₚ
          concat (map flatten ts) ++
          replicate (length (filter (λ d, parentRef c = Some (comment_id d))
                               (concat (map flatten ts)))) c) as ->.
  { induction IH as [|t ts Ht _ IHts]; [done|]. cbn [map concat].
    rewrite Ht, IHts, filter_app, length_app, replicate_add.
    rewrite <- !app_assoc. f_equiv. rewrite !app_assoc. f_equiv.
    apply Permutation_app_comm. }
  destruct (decide (parentRef c = Some (comment_id d))); simpl.
  - constructor. rewrite <- !app_assoc. f_equiv.
    symmetry. apply Permutation_cons_append.
  - constructor. by rewrite app_nil_r.
Qed.

Lemma flattenForest_graft c ts :
  flattenForest (map (graft c) ts) ≡ₚ
  flattenForest ts ++
  replicate (length (filter (λ d, parentRef c = Some (comment_id d))
                       (flattenForest ts))) c.
Proof.
  induction ts as [|t ts IH]; [done|]. cbn [map].
  rewrite !flattenForest_cons, flatten_graft, IH, filter_app, length_app,
    replicate_add.
  rewrite <- !app_assoc. f_equiv. rewrite !app_assoc. f_equiv.
  apply Permutation_app_comm.
Qed.
End trees.

Section chronological.
Implicit Types (cs : list Comment) (k p : string).

Lemma parentsEarlier_app seen cs1 cs2 :
  parentsEarlier seen (cs1 ++ cs2) =
  parentsEarlier seen cs1 &&
  parentsEarlier (reverse (comment_id <$> cs1) ++ seen) cs2.
Proof.
  revert seen. induction cs1 as [|c cs1 IH]; intros seen; [done|].
  cbn [app parentsEarlier]. rewrite IH, fmap_cons, reverse_cons.
  by rewrite <- !app_assoc, andb_assoc.
Qed.

Lemma parentsEarlier_elem seen cs x p :
  parentsEarlier seen cs = true → x ∈ cs → parentRef x = Some p →
  p ∈ seen ∨ p ∈ comment_id <$> cs.
Proof.
  revert seen. induction cs as [|c cs IH]; intros seen Hpe Hin Hp.
  - by apply elem_of_nil in Hin.
  - cbn [parentsEarlier] in Hpe. apply andb_true_iff in Hpe as [Hc Hrest].
    rewrite fmap_cons. apply elem_of_cons in Hin as [->|Hin].
    + rewrite Hp in Hc. apply bool_decide_eq_true in Hc. by left.
    + destruct (IH _ Hrest Hin Hp) as [Hs|Hs].
      * apply elem_of_cons in Hs as [->|Hs]; [right; left | by left].
      * right. by right.
Qed.

Lemma parentsEarlier_snoc cs c :
  parentsEarlier [] (cs ++ [c]) = true →
  parentsEarlier [] cs = true ∧
  ∀ p, parentRef c = Some p → p ∈ comment_id <$> cs.
Proof.
  rewrite parentsEarlier_app. intros [Hcs Hc]%andb_true_iff. split; [done|].
  intros p Hp. cbn [parentsEarlier] in Hc. rewrite Hp in Hc.
  apply andb_true_iff in Hc as [Hc _]. apply bool_decide_eq_true in Hc.
  rewrite app_nil_r in Hc. by apply elem_of_reverse.
Qed.

Lemma childrenOf_snoc cs c k :
  childrenOf (cs ++ [c]) k =
  childrenOf cs k ++ if decide (parentRef c = Some k) then [c] else [].
Proof.
  unfold childrenOf. rewrite filter_app, filter_cons.
  by destruct (decide (parentRef c = Some k)).
Qed.

Lemma rootsOf_snoc cs c :
  rootsOf (cs ++ [c]) =
  rootsOf cs ++ if decide (parentRef c = None) then [c] else [].
Proof.
  unfold rootsOf. rewrite filter_app, filter_cons.
  by destruct (decide (parentRef c = None)).
Qed.

Lemma withId_snoc cs c k :
  withId (cs ++ [c]) k =
  withId cs k ++ if decide (comment_id c = k) then [c] else [].
Proof.
  unfold withId. rewrite filter_app, filter_cons.
  by destruct (decide (comment_id c = k)).
Qed.

Lemma childrenOf_none cs k :
  (∀ x, x ∈ cs → parentRef x ≠ Some k) → childrenOf cs k = [].
Proof.
  unfold childrenOf. induction cs as [|x cs IH]; intros H; [done|].
  rewrite filter_cons, decide_False by (apply H; left).
  apply IH. intros y Hy. apply H. by right.
Qed.

(** How the heap changes when the input grows by a comment that nobody
    answers yet. *)
Lemma build_snoc cs c :
  comment_id c ∉ comment_id <$> cs →
  (∀ x, x ∈ cs → parentRef x ≠ Some (comment_id c)) →
  parentRef c ≠ Some (comment_id c) →
  (∀ k o, (buildCommentTree cs).1 !! k = Some o →
     comment_id (obj_data o) = k ∧
     (buildCommentTree (cs ++ [c])).1 !! k =
       Some (mkObj (obj_data o)
         (obj_replies o ++
          if decide (parentRef c = Some k) then [comment_id c] else []))) ∧
  (buildCommentTree (cs ++ [c])).1 !! comment_id c = Some (mkObj c []).
Proof.
  intros Hfresh Hleaf Hself. split.
  - intros k o Hk. destruct (build_lookup_Some _ _ _ Hk) as (Hid & Hin & Hrs).
    split; [done|].
    assert (comment_id c ≠ k) as Hne.
    { intros Heq. apply Hfresh. rewrite Heq, <- Hid.
      by apply list_elem_of_fmap_2. }
    rewrite build_lookup in Hk |- *.
    rewrite childrenOf_snoc, withId_snoc.
    rewrite (decide_False (P := comment_id c = k)), app_nil_r by done.
    destruct (last (withId cs k)) as [d|]; [|done]. injection Hk as <-.
    cbn [obj_data obj_replies fmap option_fmap option_map]. rewrite fmap_app.
    do 3 f_equal. by case_decide.
  - rewrite build_lookup, childrenOf_snoc, withId_snoc.
    rewrite withId_notin, childrenOf_none by done.
    rewrite (decide_False (P := parentRef c = Some _)) by done.
    by rewrite decide_True.
Qed.

Lemma filter_parent_of cs c :
  NoDup (comment_id <$> cs) →
  length (filter (λ d, parentRef c = Some (comment_id d)) cs) =
  match parentRef c with
  | Some p => if decide (p ∈ comment_id <$> cs) then 1%nat else 0%nat
  | None => 0%nat
  end.
Proof.
  intros Hnd. destruct (parentRef c) as [p|].
  - rewrite (list_filter_iff _ (λ d, comment_id d = p)) by naive_solver.
    fold (withId cs p). case_decide as Hp.
    + apply list_elem_of_fmap in Hp as (d & -> & Hd).
      by rewrite withId_unique.
    + by rewrite withId_notin.
  - induction cs as [|d cs IH]; [done|].
    rewrite filter_cons_False by done. apply IH.
    rewrite fmap_cons in Hnd. by apply NoDup_cons in Hnd as [_ ?].
Qed.

(** Main invariant of the builder on chronological input: the nested
    value exists and lists every input comment exactly once. *)
Lemma build_complete cs :
  NoDup (comment_id <$> cs) → parentsEarlier [] cs = true →
  ∃ forest,
    mapM (unfold (S (length cs)) (buildCommentTree cs).1)
         (buildCommentTree cs).2 = Some forest ∧
    flattenForest forest ≡ₚ cs.
Proof.
  induction cs as [|c cs IH] using rev_ind; intros Hnd Hpe.
  - exists []. done.
  - rewrite fmap_app in Hnd. apply NoDup_app in Hnd as (Hnd & Hdisj & _).
    apply parentsEarlier_snoc in Hpe as [Hpe Hpar].
    destruct (IH Hnd Hpe) as (forest & Hf & Hperm).
    assert (comment_id c ∉ comment_id <$> cs) as Hfresh.
    { intros Hin. apply (Hdisj _ Hin). simpl. left. }
    assert (∀ x, x ∈ cs → parentRef x ≠ Some (comment_id c)) as Hleaf.
    { intros x Hx Hp. apply Hfresh.
      destruct (parentsEarlier_elem _ _ _ _ Hpe Hx Hp) as [H|H]; [|done].
      by apply elem_of_nil in H. }
    assert (parentRef c ≠ Some (comment_id c)) as Hself.
    { intros Hp. by apply Hfresh, Hpar. }
    destruct (build_snoc cs c Hfresh Hleaf Hself) as [Hext Hc].
    exists (map (graft c) forest ++
            if decide (parentRef c = None) then [Node c []] else []).
    split.
    + rewrite build_roots, rootsOf_snoc, fmap_app.
      rewrite length_app, Nat.add_1_r. apply mapM_Some, Forall2_app.
      * apply mapM_Some in Hf. rewrite build_roots in Hf.
        eapply Forall2_map_r; [|exact Hf]. intros r t Hr.
        by eapply unfold_graft.
      * case_decide; [|constructor]. constructor; [|constructor].
        by apply unfold_leaf.
    + rewrite flattenForest_app, flattenForest_graft.
      rewrite Hperm at 1. rewrite <- app_assoc. f_equiv.
      assert (length (filter (λ d, parentRef c = Some (comment_id d))
                        (flattenForest forest)) =
              length (filter (λ d, parentRef c = Some (comment_id d)) cs))
      as ->.
      { by rewrite Hperm. }
      rewrite filter_parent_of by done.
      destruct (parentRef c) as [p|] eqn:Hp.
      * rewrite decide_True by by apply Hpar. rewrite decide_False by done.
        by rewrite app_nil_r.
      * rewrite decide_True by done. done.
Qed.
End chronological.

Section reachable.
Implicit Types (m : gmap string CommentObj) (cs : list Comment) (k : string).

Lemma elem_of_flattenForest ts d :
  d ∈ flattenForest ts ↔ ∃ t, t ∈ ts ∧ d ∈ flatten t.
Proof.
  unfold flattenForest. rewrite list_elem_of_In, in_concat. split.
  - intros (l & Hl & Hd). apply in_map_iff in Hl as (t & <- & Ht).
    exists t. by rewrite !list_elem_of_In.
  - intros (t & Ht & Hd). exists (flatten t). split.
    + apply in_map. by apply list_elem_of_In.
    + by apply list_elem_of_In.
Qed.

(** Every node below the cell at [k] is that cell or was pushed on some
    replies array. *)
Lemma unfold_nodes m f k t d :
  (∀ k o, m !! k = Some o → comment_id (obj_data o) = k) →
  unfold f m k = Some t → d ∈ flatten t →
  comment_id d = k ∨
  ∃ k' o', m !! k' = Some o' ∧ comment_id d ∈ obj_replies o'.
Proof.
  intros Hm. revert k t. induction f as [|f IH]; intros k t; [done|].
  intros H Hd. simpl in H. destruct (m !! k) as [o|] eqn:Hk; [|done].
  destruct (mapM (unfold f m) (obj_replies o)) as [ts|] eqn:Hts; [|done].
  injection H as <-. cbn [flatten] in Hd.
  apply elem_of_cons in Hd as [->|Hd]; [left; by apply Hm|].
  right. apply elem_of_flattenForest in Hd as (t' & Ht' & Hd).
  apply mapM_Some in Hts.
  destruct (proj1 (list_elem_of_lookup _ _) Ht') as [i Hi].
  destruct (Forall2_lookup_r _ _ _ _ _ Hts Hi) as (r & Hr & Hu).
  destruct (IH _ _ Hu Hd) as [Heq|Hex]; [|done].
  exists k, o. split; [done|]. rewrite Heq. by eapply list_elem_of_lookup_2.
Qed.
End reachable.

(** Decide a closed decidable proposition by evaluation. *)
Ltac by_compute := apply (bool_decide_unpack _); vm_compute; exact I.

(** * The claims about the tree builder *)

(** Why the identifiers have to be distinct and the parent references well
    founded: with a repeated identifier the one cell is pushed on its own
    replies array and the result has no finite nesting; two comments that
    answer each other are both attached and neither is a root. *)
Example repeated_id_cycle : commentTree [cA; cA'] = None.
Proof. by vm_compute. Qed.

Example mutual_replies_unreachable :
  commentTree [cP; cQ] = Some [] ∧
  obj_replies <$> (buildCommentTree [cP; cQ]).1 !! "P" = Some ["Q"] ∧
  obj_replies <$> (buildCommentTree [cP; cQ]).1 !! "Q" = Some ["P"].
Proof. by vm_compute. Qed.

(** C1, as stated, fails: a reply whose parent is missing is not in the
    tree, so the tree of a one-comment list can have no node. *)
Lemma commentTree_loses_orphan :
  ∃ forest, commentTree [cX] = Some forest ∧ forestCount forest ≠ length [cX].
Proof. exists []. split; [by vm_compute | by vm_compute]. Qed.

(** C1 (amended): for every list of comments with distinct identifiers in
    which each parent reference names a comment earlier in the list, the
    returned tree is finite, its node count equals the length of the list,
    and its nodes are the input comments, each exactly once. *)
Theorem commentTree_count_chronological (cs : list Comment) :
  NoDup (comment_id <$> cs) → parentsEarlier [] cs = true →
  ∃ forest, commentTree cs = Some forest ∧
            forestCount forest = length cs ∧
            flattenForest forest ≡ₚ cs.
Proof.
  intros Hnd Hpe. destruct (build_complete cs Hnd Hpe) as (forest & Hf & Hperm).
  exists forest. unfold commentTree.
  destruct (buildCommentTree cs) as [m roots]. split; [exact Hf|].
  split; [|done]. by rewrite forestCount_flatten, Hperm.
Qed.

Lemma commentTree_count_chronological_witness :
  ∃ forest, commentTree [cA; cB; cC; cD] = Some forest ∧
            forestCount forest = length [cA; cB; cC; cD] ∧
            flattenForest forest ≡ₚ [cA; cB; cC; cD].
Proof.
  apply (commentTree_count_chronological [cA; cB; cC; cD]).
  - by_compute.
  - vm_compute. reflexivity.
Defined.

(** C2, as stated, fails: the reply [cX] names a parent that is not in the
    input, and the root array that comes back is empty. *)
Lemma orphan_not_promoted_to_root :
  cX ∈ [cX] ∧ comment_parentId cX = Some "gone" ∧
  ("gone" ∉ comment_id <$> [cX]) ∧
  (comment_id cX ∉ (buildCommentTree [cX]).2) ∧
  commentTree [cX] = Some [].
Proof.
  split; [by left|]. split; [done|]. split.
  - by_compute.
  - split; [|by vm_compute].
    by_compute.
Qed.

(** C2 (amended): for every input with distinct identifiers, a comment whose
    parent reference is non-empty and matches no comment of the input is
    left out of the result: it is not in the returned root list, not in any
    replies list, and not a node of the returned tree.  The builder raises
    no error: it is a total function. *)
Theorem orphan_left_out (cs : list Comment) (c : Comment) (p : string) :
  NoDup (comment_id <$> cs) → c ∈ cs →
  comment_parentId c = Some p → p ≠ "" → p ∉ comment_id <$> cs →
  (comment_id c ∉ (buildCommentTree cs).2) ∧
  (∀ k o, (buildCommentTree cs).1 !! k = Some o →
          comment_id c ∉ obj_replies o) ∧
  (∀ forest, commentTree cs = Some forest → c ∉ flattenForest forest).
Proof.
  intros Hnd Hin Hpar Hne Hp.
  assert (parentRef c = Some p) as Href.
  { unfold parentRef. rewrite Hpar. by rewrite decide_False. }
  assert (∀ x, x ∈ cs → comment_id x = comment_id c → x = c) as Huniq.
  { intros x Hx Heq. pose proof (withId_unique cs c Hnd Hin) as Hw.
    assert (x ∈ withId cs (comment_id c)) as Hxw by by apply withId_elem.
    rewrite Hw in Hxw. by apply list_elem_of_singleton in Hxw. }
  assert (comment_id c ∉ (buildCommentTree cs).2) as Hroot.
  { rewrite build_roots. intros (x & Hid & Hx)%list_elem_of_fmap.
    apply list_elem_of_filter in Hx as [Hnone Hx].
    rewrite (Huniq x Hx (eq_sym Hid)) in Hnone. congruence. }
  assert (∀ k o, (buildCommentTree cs).1 !! k = Some o →
                 comment_id c ∉ obj_replies o) as Hrep.
  { intros k o Hk. destruct (build_lookup_Some _ _ _ Hk) as (Hid & Hd & ->).
    intros (x & Hidx & Hx)%list_elem_of_fmap.
    apply list_elem_of_filter in Hx as [Hxk Hx].
    rewrite (Huniq x Hx (eq_sym Hidx)) in Hxk.
    apply Hp. assert (p = k) as -> by congruence.
    rewrite <- Hid. by apply list_elem_of_fmap_2. }
  split; [done|]. split; [done|].
  intros forest Hf Hc. unfold commentTree in Hf.
  destruct (buildCommentTree cs) as [m roots] eqn:Hb. simpl in Hroot, Hrep.
  apply elem_of_flattenForest in Hc as (t & Ht & Hc).
  apply mapM_Some in Hf.
  destruct (proj1 (list_elem_of_lookup _ _) Ht) as [i Hi].
  destruct (Forall2_lookup_r _ _ _ _ _ Hf Hi) as (r & Hr & Hu).
  assert (∀ k o, m !! k = Some o → comment_id (obj_data o) = k) as Hm.
  { intros k o Hk. assert ((buildCommentTree cs).1 !! k = Some o) as Hk2
      by by rewrite Hb.
    by destruct (build_lookup_Some _ _ _ Hk2). }
  destruct (unfold_nodes _ _ _ _ _ Hm Hu Hc) as [Heq|(k' & o' & Hk' & Hin')].
  - apply Hroot. rewrite Heq. by eapply list_elem_of_lookup_2.
  - by apply (Hrep k' o').
Qed.

Lemma orphan_left_out_witness :
  (comment_id cX ∉ (buildCommentTree [cA; cX]).2) ∧
  (∀ k o, (buildCommentTree [cA; cX]).1 !! k = Some o →
          comment_id cX ∉ obj_replies o) ∧
  (∀ forest, commentTree [cA; cX] = Some forest → cX ∉ flattenForest forest).
Proof.
  apply (orphan_left_out [cA; cX] cX "gone").
  - by_compute.
  - by_compute.
  - reflexivity.
  - discriminate.
  - by_compute.
Defined.

(** C3: for every input with distinct identifiers, a comment whose parent
    reference matches a comment of the input is pushed exactly once, on that
    parent's replies list and nowhere else; that list holds the comments
    naming this parent in input order.  For A, B (parent A), C (parent B),
    D (parent A) the result is root [A], A.replies = [B, D],
    B.replies = [C]. *)
Theorem reply_attached_to_parent :
  (∀ (cs : list Comment) (c : Comment) (p : string),
     NoDup (comment_id <$> cs) → c ∈ cs →
     comment_parentId c = Some p → p ≠ "" → p ∈ comment_id <$> cs →
     ∃ parent,
       (buildCommentTree cs).1 !! p = Some parent ∧
       obj_replies parent = comment_id <$> childrenOf cs p ∧
       comment_id c ∈ obj_replies parent ∧
       NoDup (obj_replies parent) ∧
       (comment_id c ∉ (buildCommentTree cs).2) ∧
       (∀ k o, k ≠ p → (buildCommentTree cs).1 !! k = Some o →
               comment_id c ∉ obj_replies o)) ∧
  commentTree [cA; cB; cC; cD] =
    Some [Node cA [Node cB [Node cC []]; Node cD []]].
Proof.
  split; [|by vm_compute].
  intros cs c p Hnd Hin Hpar Hne Hp.
  assert (parentRef c = Some p) as Href.
  { unfold parentRef. rewrite Hpar. by rewrite decide_False. }
  assert (∀ x, x ∈ cs → comment_id x = comment_id c → x = c) as Huniq.
  { intros x Hx Heq. pose proof (withId_unique cs c Hnd Hin) as Hw.
    assert (x ∈ withId cs (comment_id c)) as Hxw by by apply withId_elem.
    rewrite Hw in Hxw. by apply list_elem_of_singleton in Hxw. }
  apply list_elem_of_fmap in Hp as (d & -> & Hd).
  exists (mkObj d (comment_id <$> childrenOf cs (comment_id d))).
  split; [by apply build_lookup_unique|]. split; [done|]. cbn [obj_replies].
  split; [|split; [|split]].
  - apply list_elem_of_fmap_2. by apply list_elem_of_filter.
  - eapply sublist_NoDup; [exact Hnd|].
    apply fmap_sublist, sublist_filter.
  - rewrite build_roots. intros (x & Hid & Hx)%list_elem_of_fmap.
    apply list_elem_of_filter in Hx as [Hnone Hx].
    rewrite (Huniq x Hx (eq_sym Hid)) in Hnone. congruence.
  - intros k o Hk Hlook.
    destruct (build_lookup_Some _ _ _ Hlook) as (_ & _ & ->).
    intros (x & Hid & Hx)%list_elem_of_fmap.
    apply list_elem_of_filter in Hx as [Hxk Hx].
    rewrite (Huniq x Hx (eq_sym Hid)) in Hxk. congruence.
Qed.

Lemma reply_attached_to_parent_witness :
  ∃ parent,
    (buildCommentTree [cA; cB; cC; cD]).1 !! "A" = Some parent ∧
    obj_replies parent = comment_id <$> childrenOf [cA; cB; cC; cD] "A" ∧
    comment_id cD ∈ obj_replies parent ∧
    NoDup (obj_replies parent) ∧
    (comment_id cD ∉ (buildCommentTree [cA; cB; cC; cD]).2) ∧
    (∀ k o, k ≠ "A" → (buildCommentTree [cA; cB; cC; cD]).1 !! k = Some o →
            comment_id cD ∉ obj_replies o).
Proof.
  apply (proj1 reply_attached_to_parent [cA; cB; cC; cD] cD "A").
  - by_compute.
  - by_compute.
  - reflexivity.
  - discriminate.
  - by_compute.
Defined.

(** * Properties of vote submission *)

Section votes.
Implicit Types (rows : list Vote) (v : Vote) (u t : string).
Implicit Types (tt : TargetType) (vt : VoteType).

Lemma PostDetail_votes postId u newId t tt vt (w : DB * PostDetail.State) :
  db_votes (PostDetail.handleVote postId u newId t tt vt w).1 =
  voteRows u newId t tt vt (db_votes w.1).
Proof.
  unfold PostDetail.handleVote, voteRows.
  destruct tt; cbn [fst];
    destruct (votes_list _ _ _ _ _) as [|v ?]; [done| |done|];
    by destruct (decide (vote_voteType v = vt)).
Qed.

Lemma PostFeed_votes u newId t vt (w : DB * list Post) :
  db_votes (PostFeed.handleVote u newId t vt w).1 =
  voteRows u newId t post vt (db_votes w.1).
Proof.
  unfold PostFeed.handleVote, voteRows.
  destruct (votes_list _ _ _ _ _) as [|v ?].
  - by destruct (PostFeed.find t w.2).
  - destruct (decide (vote_voteType v = vt));
      by destruct (PostFeed.find t w.2).
Qed.

(** [PostDetail.handleVote] writes to the vote collection only. *)
Lemma PostDetail_vote_counters postId u newId t tt vt
    (w : DB * PostDetail.State) :
  db_comments (PostDetail.handleVote postId u newId t tt vt w).1 =
    db_comments w.1 ∧
  db_posts (PostDetail.handleVote postId u newId t tt vt w).1 = db_posts w.1.
Proof.
  unfold PostDetail.handleVote.
  destruct tt; cbn [fst];
    destruct (votes_list _ _ _ _ _) as [|v ?]; [done| |done|];
    by destruct (decide (vote_voteType v = vt)).
Qed.

Lemma voteMatches_key u t tt v : voteMatches u t tt v ↔ voteKey v = (u, t, tt).
Proof.
  unfold voteMatches, voteKey. split.
  - by intros (-> & -> & ->).
  - by intros [= -> -> ->].
Qed.

Lemma matches_none rows u t tt :
  (∀ v, v ∈ rows → ¬ voteMatches u t tt v) ↔
  filter (voteMatches u t tt) rows = [].
Proof.
  split.
  - intros H. induction rows as [|x rows IH]; [done|].
    rewrite filter_cons_False by (apply H; left).
    apply IH. intros v Hv. apply H. by right.
  - intros H v Hv Hm. eapply filter_nil_not_elem_of; [exact H|exact Hm|done].
Qed.

Lemma matches_unique rows u t tt v :
  oneVotePerTarget rows → v ∈ rows → voteMatches u t tt v →
  filter (voteMatches u t tt) rows = [v].
Proof.
  unfold oneVotePerTarget. induction rows as [|x rows IH]; intros Hnd Hin Hm.
  - by apply elem_of_nil in Hin.
  - rewrite fmap_cons in Hnd. apply NoDup_cons in Hnd as [Hx Hnd].
    apply elem_of_cons in Hin as [->|Hin].
    + rewrite filter_cons_True by done. f_equal. apply matches_none.
      intros y Hy Hmy. apply Hx. apply voteMatches_key in Hm, Hmy.
      rewrite Hm, <- Hmy. by apply list_elem_of_fmap_2.
    + rewrite filter_cons_False; [by apply IH|].
      intros Hmx. apply Hx. apply voteMatches_key in Hm, Hmx.
      rewrite Hmx, <- Hm. by apply list_elem_of_fmap_2.
Qed.

Lemma votes_list_first rows u t tt v rest :
  votes_list u t tt 1 rows = v :: rest →
  v ∈ rows ∧ voteMatches u t tt v.
Proof.
  unfold votes_list. intros H.
  assert (v ∈ filter (voteMatches u t tt) rows) as Hv.
  { destruct (filter (voteMatches u t tt) rows) as [|y l]; [done|].
    injection H as -> _. left. }
  by apply list_elem_of_filter in Hv as [Hm Hin].
Qed.

Lemma votes_list_nil rows u t tt :
  votes_list u t tt 1 rows = [] →
  ∀ v, v ∈ rows → ¬ voteMatches u t tt v.
Proof.
  unfold votes_list. intros H. apply matches_none.
  by destruct (filter (voteMatches u t tt) rows).
Qed.

Lemma NoDup_fmap_elem_inj {A B} (f : A → B) (l : list A) x y :
  NoDup (f <$> l) → x ∈ l → y ∈ l → f x = f y → x = y.
Proof.
  induction l as [|z l IH]; intros Hnd Hx Hy Heq.
  - by apply elem_of_nil in Hx.
  - rewrite fmap_cons in Hnd. apply NoDup_cons in Hnd as [Hz Hnd].
    apply elem_of_cons in Hx as [->|Hx]; apply elem_of_cons in Hy as [->|Hy].
    + done.
    + exfalso. apply Hz. rewrite Heq. by apply list_elem_of_fmap_2.
    + exfalso. apply Hz. rewrite <- Heq. by apply list_elem_of_fmap_2.
    + by apply IH.
Qed.

Lemma filter_ext_elem {A} (P Q : A → Prop) `{!∀ x, Decision (P x)}
    `{!∀ x, Decision (Q x)} (l : list A) :
  (∀ x, x ∈ l → P x ↔ Q x) → filter P l = filter Q l.
Proof.
  induction l as [|x l IH]; intros HPQ; [done|].
  rewrite !filter_cons. rewrite IH by (intros y Hy; apply HPQ; by right).
  destruct (decide (P x)) as [HP|HP], (decide (Q x)) as [HQ|HQ]; try done.
  - exfalso. apply HQ, HPQ; [left|done].
  - exfalso. apply HP, HPQ; [left|done].
Qed.

Lemma fmap_ext_elem {A B} (f g : A → B) (l : list A) :
  (∀ x, x ∈ l → f x = g x) → f <$> l = g <$> l.
Proof.
  induction l as [|x l IH]; intros H; [done|].
  rewrite !fmap_cons. f_equal; [apply H; left|].
  apply IH. intros y Hy. apply H. by right.
Qed.

Lemma votes_delete_unique rows v :
  NoDup (vote_id <$> rows) → v ∈ rows →
  votes_delete (vote_id v) rows = filter (λ x, x ≠ v) rows.
Proof.
  intros Hnd Hin. unfold votes_delete. apply filter_ext_elem.
  intros x Hx. split; [congruence|].
  intros Hne Heq. apply Hne. by eapply NoDup_fmap_elem_inj.
Qed.

Lemma votes_update_unique rows v vt :
  NoDup (vote_id <$> rows) → v ∈ rows →
  votes_update (vote_id v) vt rows =
  (λ x, if decide (x = v) then setVoteType vt v else x) <$> rows.
Proof.
  intros Hnd Hin. unfold votes_update. apply fmap_ext_elem.
  intros x Hx. destruct (decide (vote_id x = vote_id v)) as [Heq|Hne].
  - assert (x = v) as -> by by eapply NoDup_fmap_elem_inj.
    by rewrite decide_True.
  - rewrite decide_False; [done|congruence].
Qed.

(** On a well-formed collection the handlers realise the three cases. *)
Lemma voteRows_outcome rows u newId t tt vt :
  oneVotePerTarget rows → NoDup (vote_id <$> rows) →
  voteOutcome u newId t tt vt rows (voteRows u newId t tt vt rows).
Proof.
  intros Hone Hids. unfold voteOutcome, voteRows, votes_list.
  split; [|split].
  - intros v Hv Hm Hvt. rewrite (matches_unique _ _ _ _ _ Hone Hv Hm).
    cbn [take]. rewrite decide_True by done.
    rewrite votes_delete_unique by done. split; [done|]. split.
    + intros [Hne _]%list_elem_of_filter. by apply Hne.
    + intros x [Hne Hx]%list_elem_of_filter Hmx. apply Hne.
      assert (x ∈ filter (voteMatches u t tt) rows) as Hxf
        by by apply list_elem_of_filter.
      rewrite (matches_unique _ _ _ _ _ Hone Hv Hm) in Hxf.
      by apply list_elem_of_singleton in Hxf.
  - intros v Hv Hm Hvt. rewrite (matches_unique _ _ _ _ _ Hone Hv Hm).
    cbn [take]. rewrite decide_False by done.
    by apply votes_update_unique.
  - intros Hnone. apply matches_none in Hnone. by rewrite Hnone.
Qed.

(** The invariant survives every submission, whatever the identifiers. *)
Lemma voteRows_invariant rows u newId t tt vt :
  oneVotePerTarget rows → oneVotePerTarget (voteRows u newId t tt vt rows).
Proof.
  unfold oneVotePerTarget, voteRows. intros Hnd.
  destruct (votes_list u t tt 1 rows) as [|v rest] eqn:Hl.
  - unfold votes_create. rewrite fmap_app. apply NoDup_app.
    split; [done|]. split; [|apply NoDup_singleton].
    intros k Hk Hk'. apply list_elem_of_singleton in Hk'. subst k.
    apply list_elem_of_fmap in Hk as (x & Hkey & Hx).
    apply (votes_list_nil _ _ _ _ Hl x Hx). apply voteMatches_key.
    by rewrite <- Hkey.
  - destruct (decide (vote_voteType v = vt)).
    + eapply sublist_NoDup; [exact Hnd|].
      apply fmap_sublist, sublist_filter.
    + unfold votes_update. rewrite <- list_fmap_compose.
      erewrite fmap_ext_elem; [exact Hnd|].
      intros x _. simpl. by destruct (decide (vote_id x = vote_id v)).
Qed.

(** Every submission changes the vote collection. *)
Lemma voteRows_changes rows u newId t tt vt :
  voteRows u newId t tt vt rows ≠ rows.
Proof.
  unfold voteRows.
  destruct (votes_list u t tt 1 rows) as [|v rest] eqn:Hl.
  - unfold votes_create. intros H. apply (f_equal length) in H.
    rewrite length_app in H. simpl in H. lia.
  - apply votes_list_first in Hl as [Hv Hm].
    destruct (decide (vote_voteType v = vt)) as [Heq|Hne].
    + intros H. rewrite <- H in Hv. unfold votes_delete in Hv.
      by apply list_elem_of_filter in Hv as [Hid _].
    + intros H. unfold votes_update in H.
      destruct (proj1 (list_elem_of_lookup _ _) Hv) as [i Hi].
      assert (((λ x, if decide (vote_id x = vote_id v)
                     then setVoteType vt x else x) <$> rows) !! i =
              Some (setVoteType vt v)) as Hi'.
      { rewrite list_lookup_fmap, Hi. simpl. by rewrite decide_True. }
      rewrite H, Hi in Hi'. injection Hi' as Hi'. apply Hne.
      by rewrite Hi'.
Qed.
End votes.

(** * The claims about voting *)

(** C4: on a vote collection with distinct identifiers and at most one row
    per (user, target), a submission from the post page or from the home
    feed retracts the existing row of the same direction (that row is
    removed, nothing is added), rewrites the existing row of the opposite
    direction to the new direction, and otherwise appends exactly one new
    row with the submitted direction. *)
Theorem handleVote_three_cases (postId u newId t : string) (tt : TargetType)
    (vt : VoteType) (d : DB) (st : PostDetail.State) (posts : list Post) :
  oneVotePerTarget (db_votes d) → NoDup (vote_id <$> db_votes d) →
  voteOutcome u newId t tt vt (db_votes d)
    (db_votes (PostDetail.handleVote postId u newId t tt vt (d, st)).1) ∧
  voteOutcome u newId t post vt (db_votes d)
    (db_votes (PostFeed.handleVote u newId t vt (d, posts)).1).
Proof.
  intros Hone Hids. rewrite PostDetail_votes, PostFeed_votes.
  split; by apply voteRows_outcome.
Qed.

Lemma handleVote_three_cases_witness :
  voteOutcome "u1" "v2" "c1" comment downvote (db_votes db1)
    (db_votes (PostDetail.handleVote "p1" "u1" "v2" "c1" comment downvote
                 (db1, initState)).1) ∧
  voteOutcome "u1" "v2" "c1" post downvote (db_votes db1)
    (db_votes (PostFeed.handleVote "u1" "v2" "c1" downvote (db1, [post1])).1).
Proof.
  apply (handleVote_three_cases "p1" "u1" "v2" "c1" comment downvote db1
           initState [post1]).
  - unfold oneVotePerTarget. by_compute.
  - by_compute.
Defined.

(** C5, evaluated where it fails: user [u1] has the only vote on comment
    [c1], an upvote, and submits a downvote from the post page.  One vote
    row remains, with direction downvote, but the score shown for [c1] is 1
    before and after, not 1 and then -1. *)
Theorem comment_vote_change_keeps_score :
  let w0 := (db1, PostDetail.loadPostAndComments "p1" db1 initState) in
  let w1 := PostDetail.handleVote "p1" "u1" "v2" "c1" comment downvote w0 in
  db_votes w1.1 = [mkVote "v1" "u1" "c1" comment downvote] ∧
  db_comments w1.1 = [comment1] ∧
  PostDetail.displayedScores w0.2 = Some [("c1", 1)] ∧
  PostDetail.displayedScores w1.2 = Some [("c1", 1)].
Proof. vm_compute. done. Qed.

(** C6: with no vote by the user on the comment and a fresh identifier for
    the first submission, two submissions of the same direction from the post
    page leave the store as it was, no vote row for the pair exists, and the
    page shows what a reload of the original store shows. *)
Theorem vote_twice_restores (postId u id1 id2 cid : string) (vt : VoteType)
    (d : DB) (st : PostDetail.State) :
  (∀ v, v ∈ db_votes d → ¬ voteMatches u cid comment v) →
  id1 ∉ vote_id <$> db_votes d →
  let w1 := PostDetail.handleVote postId u id1 cid comment vt (d, st) in
  let w2 := PostDetail.handleVote postId u id2 cid comment vt w1 in
  w2 = (d, PostDetail.loadComments postId d st) ∧
  (∀ v, v ∈ db_votes w2.1 → ¬ voteMatches u cid comment v) ∧
  PostDetail.displayedScores w2.2 =
    PostDetail.displayedScores (PostDetail.loadComments postId d st).
Proof.
  intros Hnone Hfresh.
  assert (PostDetail.handleVote postId u id2 cid comment vt
            (PostDetail.handleVote postId u id1 cid comment vt (d, st)) =
          (d, PostDetail.loadComments postId d st)) as Heq.
  { unfold PostDetail.handleVote at 2. cbn [fst snd].
    apply matches_none in Hnone as Hnil. unfold votes_list at 1.
    rewrite Hnil. cbn [take].
    unfold PostDetail.handleVote, votes_list, votes_create, withVotes.
    cbn [fst snd db_votes db_comments db_posts].
    rewrite filter_app, Hnil, filter_cons_True by done.
    cbn [app filter take list_filter vote_voteType vote_id].
    rewrite decide_True by done.
    unfold votes_delete. rewrite filter_app, filter_cons_False, filter_nil,
      app_nil_r by (cbn; tauto).
    assert (filter (λ v, vote_id v ≠ id1) (db_votes d) = db_votes d) as ->.
    { clear Hnone Hnil. induction (db_votes d) as [|x l IH]; [done|].
      rewrite fmap_cons in Hfresh. apply not_elem_of_cons in Hfresh as [Hx Hl].
      rewrite filter_cons_True by done. f_equal. by apply IH. }
    by destruct d. }
  cbv zeta. rewrite Heq. cbn [fst snd]. done.
Qed.

Lemma vote_twice_restores_witness :
  let w1 := PostDetail.handleVote "p1" "u2" "v2" "c1" comment upvote
              (db1, initState) in
  let w2 := PostDetail.handleVote "p1" "u2" "v3" "c1" comment upvote w1 in
  w2 = (db1, PostDetail.loadComments "p1" db1 initState) ∧
  (∀ v, v ∈ db_votes w2.1 → ¬ voteMatches "u2" "c1" comment v) ∧
  PostDetail.displayedScores w2.2 =
    PostDetail.displayedScores (PostDetail.loadComments "p1" db1 initState).
Proof.
  apply (vote_twice_restores "p1" "u2" "v2" "v3" "c1" upvote db1 initState).
  - apply matches_none. vm_compute. reflexivity.
  - by_compute.
Defined.

(** C7: the empty vote collection has at most one row per (user, target),
    and every submission from the post page or from the home feed, be it a
    retraction, a change of direction or a creation, keeps that property. *)
Theorem handleVote_keeps_one_vote_per_target :
  oneVotePerTarget [] ∧
  ∀ (postId u newId t : string) (tt : TargetType) (vt : VoteType) (d : DB)
    (st : PostDetail.State) (posts : list Post),
    oneVotePerTarget (db_votes d) →
    oneVotePerTarget
      (db_votes (PostDetail.handleVote postId u newId t tt vt (d, st)).1) ∧
    oneVotePerTarget
      (db_votes (PostFeed.handleVote u newId t vt (d, posts)).1).
Proof.
  split; [apply NoDup_nil_2|].
  intros postId u newId t tt vt d st posts Hone.
  rewrite PostDetail_votes, PostFeed_votes.
  split; by apply voteRows_invariant.
Qed.

Lemma handleVote_keeps_one_vote_per_target_witness :
  oneVotePerTarget
    (db_votes (PostDetail.handleVote "p1" "u1" "v2" "c1" comment downvote
                 (db1, initState)).1) ∧
  oneVotePerTarget
    (db_votes (PostFeed.handleVote "u1" "v2" "c1" downvote (db1, [post1])).1).
Proof.
  apply (proj2 handleVote_keeps_one_vote_per_target "p1" "u1" "v2" "c1"
           comment downvote db1 initState [post1]).
  unfold oneVotePerTarget. by_compute.
Defined.

(** * The claims about replies and about the pages without voting *)

(** What one reply submission writes: one new comment row, and the comment
    count of the post set from the page's copy [p] of the post. *)
Lemma handleSubmitReply_effect (postId u newId now parentId : string)
    (depth : Z) (d : DB) (st : PostDetail.State) (p : Post) :
  trim (PostDetail.st_replyText st) ≠ "" → PostDetail.st_post st = Some p →
  let w' := PostDetail.handleSubmitReply postId u newId now parentId depth
              (d, st) in
  db_comments w'.1 =
    db_comments d ++
    [mkComment newId (trim (PostDetail.st_replyText st)) u postId
       (Some parentId) 0 0 (Z.min (depth + 1) 10) false now] ∧
  db_posts w'.1 =
    posts_update postId (setCommentCount (post_commentCount p + 1))
      (db_posts d) ∧
  db_votes w'.1 = db_votes d ∧
  PostDetail.st_post w'.2 = Some p.
Proof.
  intros Htext Hpost. unfold PostDetail.handleSubmitReply. cbn [fst snd].
  rewrite decide_False by done. by rewrite Hpost.
Qed.

(** C8, evaluated where it fails: two replies to comment [c1] from the same
    page.  Each creates one comment row with parent [c1] and depth
    min(0 + 1, 10) = 1, but the stored comment count goes from 1 to 2 and
    stays at 2 after the second reply, because the page's copy of the post
    is not reloaded in between. *)
Theorem second_reply_does_not_increment :
  let w0 := (db1, PostDetail.loadPostAndComments "p1" db1 initState) in
  let w1 := PostDetail.handleSubmitReply "p1" "u1" "c2" "t2" "c1" 0
              (w0.1, typeReply "c1" "first reply" w0.2) in
  let w2 := PostDetail.handleSubmitReply "p1" "u1" "c3" "t3" "c1" 0
              (w1.1, typeReply "c1" "second reply" w1.2) in
  post_commentCount <$> db_posts w0.1 = [1] ∧
  post_commentCount <$> db_posts w1.1 = [2] ∧
  post_commentCount <$> db_posts w2.1 = [2] ∧
  db_comments w2.1 =
    [comment1;
     mkComment "c2" "first reply" "u1" "p1" (Some "c1") 0 0 1 false "t2";
     mkComment "c3" "second reply" "u1" "p1" (Some "c1") 0 0 1 false "t3"].
Proof. vm_compute. done. Qed.

(** * The trending list *)

Section floats.
Implicit Types (x y : float).


End floats.

Section array_sort.
Context {A : Type} (compare : A → A → float).
Implicit Types (x : A) (l : list A).

Lemma Array_insert_Permutation x l :
  TrendingLoad.Array_insert compare x l ≡ₚ x :: l.
Proof.
  induction l as [|y l IH]; [done|]. cbn [TrendingLoad.Array_insert].
  case_decide; [done|]. by rewrite IH, Permutation_swap.
Qed.

Lemma Array_sort_Permutation l : TrendingLoad.Array_sort compare l ≡ₚ l.
Proof.
  induction l as [|x l IH]; [done|]. cbn [TrendingLoad.Array_sort foldr].
  rewrite Array_insert_Permutation. by constructor.
Qed.
End array_sort.



(** The home feed adjusts both counters when a vote changes direction: the
    score of the post drops by 2 when an upvote becomes a downvote. *)
Lemma PostFeed_find_replace postId (q : Post) (posts : list Post) p :
  PostFeed.find postId posts = Some p → post_id q = postId →
  PostFeed.find postId (PostFeed.replacePost postId q posts) = Some q.
Proof.
  unfold PostFeed.find, PostFeed.replacePost. intros Hf Hq.
  induction posts as [|x posts IH]; [done|]. rewrite fmap_cons.
  rewrite filter_cons in Hf. destruct (decide (post_id x = postId)) as [Hx|Hx].
  - by rewrite filter_cons_True.
  - rewrite filter_cons_False by done. by apply IH.
Qed.

Lemma PostFeed_downvote_after_upvote (u newId : string) (d : DB)
    (posts : list Post) (p : Post) (v : Vote) (rest : list Vote) :
  votes_list u (post_id p) post 1 (db_votes d) = v :: rest →
  vote_voteType v = upvote →
  PostFeed.find (post_id p) posts = Some p →
  ∃ p', PostFeed.find (post_id p)
          (PostFeed.handleVote u newId (post_id p) downvote (d, posts)).2
        = Some p' ∧
        PostCard.getVoteScore p' = PostCard.getVoteScore p - 2.
Proof.
  intros Hl Hv Hf. unfold PostFeed.handleVote. cbn [fst snd].
  rewrite Hl, Hv, Hf. cbn.
  eexists. split; [by eapply PostFeed_find_replace|].
  rewrite decide_True, decide_False by done.
  unfold PostCard.getVoteScore, setDownvotes, setUpvotes.
  cbn [post_upvotes post_downvotes]. lia.
Qed.

(** C10: the vote handlers of the search page and of the trending page
    leave the store and the posts on the page as they are, also when called
    through a post card, so every score shown stays the same; the handlers
    of the home feed and of the post page change the vote collection on
    every call. *)
Theorem stub_handlers_change_nothing :
  (∀ (postId : string) (vt : VoteType) (w : Page),
     page_db (SearchResults.handleVote postId vt w) = page_db w ∧
     page_posts (SearchResults.handleVote postId vt w) = page_posts w ∧
     page_db (TrendingPage.handleVote postId vt w) = page_db w ∧
     page_posts (TrendingPage.handleVote postId vt w) = page_posts w) ∧
  (∀ (p : Post) (vt : VoteType) (w : Page) (userVote : option VoteType),
     let s := (PostCard.handleVote SearchResults.handleVote p vt
                 (w, userVote)).1 in
     let t := (PostCard.handleVote TrendingPage.handleVote p vt
                 (w, userVote)).1 in
     page_db s = page_db w ∧ page_db t = page_db w ∧
     PostCard.getVoteScore <$> page_posts s =
       PostCard.getVoteScore <$> page_posts w ∧
     PostCard.getVoteScore <$> page_posts t =
       PostCard.getVoteScore <$> page_posts w) ∧
  (∀ (postId u newId t : string) (tt : TargetType) (vt : VoteType) (d : DB)
     (st : PostDetail.State) (posts : list Post),
     db_votes (PostFeed.handleVote u newId t vt (d, posts)).1 ≠ db_votes d ∧
     db_votes (PostDetail.handleVote postId u newId t tt vt (d, st)).1
       ≠ db_votes d).
Proof.
  split; [done|]. split; [done|].
  intros postId u newId t tt vt d st posts.
  rewrite PostDetail_votes, PostFeed_votes. split; apply voteRows_changes.
Qed.

(** * Collapsing and rendering *)

Set Warnings "-clear-no-such-hyp".

(** X1: toggling a comment twice gives back the set of collapsed comments;
    one toggle flips the membership of that comment and of no other. *)
Theorem toggleCommentCollapse_involutive (commentId : string)
    (collapsedComments : gset string) :
  toggleCommentCollapse commentId
    (toggleCommentCollapse commentId collapsedComments) = collapsedComments ∧
  (commentId ∈ toggleCommentCollapse commentId collapsedComments ↔
   commentId ∉ collapsedComments) ∧
  (∀ other, other ≠ commentId →
     other ∈ toggleCommentCollapse commentId collapsedComments ↔
     other ∈ collapsedComments).
Proof.
  unfold toggleCommentCollapse. split; [|split].
  - destruct (decide (commentId ∈ collapsedComments)) as [Hin|Hin].
    + rewrite decide_False by set_solver.
      apply set_eq. intros x. destruct (decide (x = commentId)); set_solver.
    + rewrite decide_True by set_solver. set_solver.
  - destruct (decide (commentId ∈ collapsedComments)); set_solver.
  - intros other Hne. destruct (decide (commentId ∈ collapsedComments));
      set_solver.
Qed.

Section rendering.
Implicit Types (collapsed : gset string) (rt : option string) (t : Tree).
Implicit Types (above : list string) (depth : Z).

Lemma hidden_below_collapsed collapsed above t :
  ¬ Forall (λ k, k ∉ collapsed) above →
  filter (allExpanded collapsed) (withAncestors above t) = [].
Proof.
  revert above. induction t as [c ts IH] using Tree_ind_Forall.
  intros above Habove. cbn [withAncestors].
  rewrite filter_cons_False by done.
  assert (¬ Forall (λ k, k ∉ collapsed) (comment_id c :: above)) as Hc.
  { intros H. apply Habove. by apply Forall_cons in H as [_ ?]. }
  induction IH as [|t ts Ht _ IHts]; [done|]. cbn [map concat].
  by rewrite filter_app, Ht, IHts.
Qed.

Lemma renderComment_shown collapsed rt above t :
  Forall (λ k, k ∉ collapsed) above →
  shownAt <$> renderComment collapsed rt (Z.of_nat (length above)) t =
  nestedAt <$> filter (allExpanded collapsed) (withAncestors above t).
Proof.
  revert above. induction t as [c ts IH] using Tree_ind_Forall.
  intros above Habove. cbn [renderComment withAncestors].
  rewrite filter_cons_True by done. rewrite !fmap_cons. f_equal.
  destruct (decide (comment_id c ∈ collapsed)) as [Hc|Hc].
  - rewrite bool_decide_eq_true_2 by done.
    assert (¬ Forall (λ k, k ∉ collapsed) (comment_id c :: above)) as Hn.
    { intros H. by apply Forall_cons in H as [? _]. }
    clear IH. induction ts as [|t ts IHts]; [done|]. cbn [map concat].
    rewrite filter_app, hidden_below_collapsed by done. exact IHts.
  - rewrite bool_decide_eq_false_2 by done.
    assert (Forall (λ k, k ∉ collapsed) (comment_id c :: above)) as Hn
      by by constructor.
    replace (Z.of_nat (length above) + 1)
      with (Z.of_nat (length (comment_id c :: above)))
      by (cbn [length]; lia).
    induction IH as [|t ts Ht _ IHts]; [done|]. cbn [map concat].
    by rewrite filter_app, !fmap_app, Ht, IHts.
Qed.

Lemma withAncestors_flatten above t :
  fst <$> withAncestors above t = flatten t.
Proof.
  revert above. induction t as [c ts IH] using Tree_ind_Forall.
  intros above. cbn [withAncestors flatten]. rewrite fmap_cons. f_equal.
  induction IH as [|t ts Ht _ IHts]; [done|]. cbn [map concat].
  by rewrite fmap_app, Ht, IHts.
Qed.
End rendering.

(** X2: a comment of the thread is on the page exactly when none of the
    comments above it is collapsed, in pre-order, and at the depth at which
    it is nested (0 for a root comment). *)
Theorem renderComments_visible (collapsed : gset string)
    (rt : option string) (forest : list Tree) :
  shownAt <$> renderComments collapsed rt forest =
  nestedAt <$> filter (allExpanded collapsed)
                 (concat (map (withAncestors []) forest)).
Proof.
  unfold renderComments.
  induction forest as [|t ts IH]; [done|]. cbn [map concat].
  rewrite filter_app, !fmap_app, IH. f_equal.
  by apply (renderComment_shown collapsed rt []).
Qed.

Section rendering_rows.
Implicit Types (collapsed : gset string) (rt : option string) (t : Tree).

Lemma renderComment_sublist collapsed rt depth t :
  row_comment <$> renderComment collapsed rt depth t `sublist_of` flatten t.
Proof.
  revert depth. induction t as [c ts IH] using Tree_ind_Forall.
  intros depth. cbn [renderComment flatten]. rewrite fmap_cons.
  apply sublist_skip.
  destruct (bool_decide (comment_id c ∈ collapsed)); [apply sublist_nil_l|].
  induction IH as [|t ts Ht _ IHts]; [done|]. cbn [map concat].
  rewrite fmap_app. by apply sublist_app.
Qed.

Lemma renderComment_expanded collapsed rt depth t :
  (∀ c, c ∈ flatten t → comment_id c ∉ collapsed) →
  row_comment <$> renderComment collapsed rt depth t = flatten t.
Proof.
  revert depth. induction t as [c ts IH] using Tree_ind_Forall.
  intros depth Hall. cbn [renderComment flatten]. rewrite fmap_cons. f_equal.
  rewrite bool_decide_eq_false_2 by (apply Hall; left).
  assert (∀ x, x ∈ concat (map flatten ts) → comment_id x ∉ collapsed) as Hts.
  { intros x Hx. apply Hall. by right. }
  clear Hall. induction IH as [|t ts Ht _ IHts]; [done|].
  cbn [map concat] in *. rewrite fmap_app. f_equal.
  - apply Ht. intros x Hx. apply Hts. apply elem_of_app. by left.
  - apply IHts. intros x Hx. apply Hts. apply elem_of_app. by right.
Qed.

Lemma renderComment_rows collapsed rt depth t r :
  0 ≤ depth → r ∈ renderComment collapsed rt depth t →
  depth ≤ row_depth r ∧
  row_indent r =
    (if bool_decide (row_depth r < 8) then Some (4 * row_depth r) else None) ∧
  row_border r = bool_decide (row_depth r > 0) ∧
  row_score r =
    comment_upvotes (row_comment r) - comment_downvotes (row_comment r).
Proof.
  revert depth r. induction t as [c ts IH] using Tree_ind_Forall.
  intros depth r Hd. cbn [renderComment]. intros [->|Hr]%elem_of_cons.
  - cbn [row_depth row_indent row_border row_score row_comment].
    split; [lia|]. split; [|done]. unfold maxDepth.
    case_bool_decide; [|done]. f_equal. lia.
  - destruct (bool_decide (comment_id c ∈ collapsed));
      [by apply elem_of_nil in Hr|].
    induction IH as [|t ts Ht _ IHts]; [by apply elem_of_nil in Hr|].
    cbn [map concat] in Hr. apply elem_of_app in Hr as [Hr|Hr].
    + destruct (Ht (depth + 1) r ltac:(lia) Hr) as (? & ? & ? & ?).
      repeat split; [lia|done..].
    + by apply IHts.
Qed.
End rendering_rows.

(** X3: collapsing only hides: the comments on the page are a sublist of
    the pre-order listing of the thread, and when no comment of the thread
    is collapsed they are the whole listing. *)
Theorem renderComments_sublist (collapsed : gset string)
    (rt : option string) (forest : list Tree) :
  row_comment <$> renderComments collapsed rt forest
    `sublist_of` flattenForest forest ∧
  ((∀ c, c ∈ flattenForest forest → comment_id c ∉ collapsed) →
   row_comment <$> renderComments collapsed rt forest = flattenForest forest).
Proof.
  unfold renderComments, flattenForest. split.
  - induction forest as [|t ts IH]; [done|]. cbn [map concat].
    rewrite fmap_app. apply sublist_app; [apply renderComment_sublist|done].
  - induction forest as [|t ts IH]; [done|]. cbn [map concat]. intros Hall.
    rewrite fmap_app. f_equal.
    + apply renderComment_expanded. intros c Hc. apply Hall.
      apply elem_of_app. by left.
    + apply IH. intros c Hc. apply Hall. apply elem_of_app. by right.
Qed.

Lemma renderComments_sublist_witness :
  row_comment <$>
    renderComments {["X"]} None [Node cA [Node cB [Node cC []]; Node cD []]] =
  flattenForest [Node cA [Node cB [Node cC []]; Node cD []]].
Proof.
  apply (proj2 (renderComments_sublist {["X"]} None
                  [Node cA [Node cB [Node cC []]; Node cD []]])).
  intros c Hc. apply not_elem_of_singleton.
  assert (c ∈ [cA; cB; cC; cD]) as Hin by exact Hc.
  rewrite !elem_of_cons in Hin.
  destruct Hin as [->|[->|[->|[->|Hin]]]]; [done..|].
  by apply elem_of_nil in Hin.
Defined.

(** X4: every row is rendered at a depth of 0 or more; below depth 8 its
    left margin is four times the depth, so at most 28 and never the cap of
    32 in the code, and from depth 8 on the row has no margin class at all.
    The border is drawn exactly for nested rows, and the score shown is
    upvotes minus downvotes, which may be negative. *)
Theorem renderComments_indent (collapsed : gset string)
    (rt : option string) (forest : list Tree) (r : CommentRow) :
  r ∈ renderComments collapsed rt forest →
  0 ≤ row_depth r ∧
  ((row_depth r < 8 ∧ row_indent r = Some (4 * row_depth r) ∧
    4 * row_depth r ≤ 28) ∨
   (8 ≤ row_depth r ∧ row_indent r = None)) ∧
  row_border r = bool_decide (row_depth r > 0) ∧
  row_score r =
    comment_upvotes (row_comment r) - comment_downvotes (row_comment r).
Proof.
  unfold renderComments. intros Hr.
  induction forest as [|t ts IH]; [by apply elem_of_nil in Hr|].
  cbn [map concat] in Hr. apply elem_of_app in Hr as [Hr|Hr]; [|by apply IH].
  destruct (renderComment_rows collapsed rt 0 t r ltac:(lia) Hr)
    as (Hd & Hi & Hb & Hs).
  split; [done|]. split; [|done]. rewrite Hi.
  destruct (decide (row_depth r < 8)) as [Hlt|Hge].
  - rewrite bool_decide_eq_true_2 by done. left. repeat split; [done|lia].
  - rewrite bool_decide_eq_false_2 by done. right. split; [lia|done].
Qed.

Lemma renderComments_indent_witness :
  let r := mkRow cB 1 (Some 4) true 0 (Some false) "second" true false in
  0 ≤ row_depth r ∧
  ((row_depth r < 8 ∧ row_indent r = Some (4 * row_depth r) ∧
    4 * row_depth r ≤ 28) ∨
   (8 ≤ row_depth r ∧ row_indent r = None)) ∧
  row_border r = bool_decide (row_depth r > 0) ∧
  row_score r =
    comment_upvotes (row_comment r) - comment_downvotes (row_comment r).
Proof.
  apply (renderComments_indent ∅ None
           [Node cA [Node cB [Node cC []]; Node cD []]]).
  by_compute.
Defined.

(** * Submitting comments and replies *)

Section trimming.
Implicit Types (s r w u : string).

Lemma app_cons a s1 s2 :
  String.app (String a s1) s2 = String a (String.app s1 s2).
Proof. reflexivity. Qed.

Lemma app_empty_r s : String.app s "" = s.
Proof. induction s as [|a s IH]; [done|]. by rewrite app_cons, IH. Qed.

Lemma app_assoc s1 s2 s3 :
  String.app (String.app s1 s2) s3 = String.app s1 (String.app s2 s3).
Proof. induction s1 as [|a s1 IH]; [done|]. by rewrite !app_cons, IH. Qed.

Lemma rev_app_rev_app s1 s2 s3 :
  String.rev_app (String.rev_app s1 s2) s3 =
  String.rev_app s2 (String.app s1 s3).
Proof.
  revert s2 s3. induction s1 as [|a s1 IH]; intros s2 s3; [done|].
  cbn [String.rev_app]. by rewrite IH.
Qed.

Lemma rev_involutive s : String.rev (String.rev s) = s.
Proof.
  unfold String.rev. rewrite rev_app_rev_app. cbn [String.rev_app].
  apply app_empty_r.
Qed.

Lemma rev_app_app s1 s2 s3 :
  String.rev_app (String.app s1 s2) s3 =
  String.rev_app s2 (String.rev_app s1 s3).
Proof.
  revert s3. induction s1 as [|a s1 IH]; intros s3; [done|].
  rewrite app_cons. cbn [String.rev_app]. by rewrite IH.
Qed.

Lemma rev_app_append s1 s2 :
  String.rev_app s1 s2 = String.app (String.rev s1) s2.
Proof.
  unfold String.rev. revert s2. induction s1 as [|a s1 IH]; intros s2; [done|].
  cbn [String.rev_app]. rewrite IH, (IH (String a "")).
  by rewrite app_assoc.
Qed.

Lemma rev_app s1 s2 :
  String.rev (String.app s1 s2) = String.app (String.rev s2) (String.rev s1).
Proof. unfold String.rev at 1. by rewrite rev_app_app, rev_app_append. Qed.

Lemma isPrefix_app w s : isPrefix w s = true ↔ ∃ r, s = String.app w r.
Proof.
  revert s. induction w as [|a w IH]; intros s.
  - split; [by exists s|done].
  - destruct s as [|b s]; cbn [isPrefix].
    + split; [done|]. by intros [r Hr].
    + rewrite andb_true_iff, bool_decide_eq_true, IH. split.
      * intros [-> [r ->]]. by exists r.
      * intros [r Hr]. rewrite app_cons in Hr. injection Hr as -> ->. eauto.
Qed.

Lemma isSuffix_app w s : isSuffix w s = true ↔ ∃ r, s = String.app r w.
Proof.
  unfold isSuffix. rewrite isPrefix_app. split.
  - intros [r Hr]. exists (String.rev r).
    by rewrite <- (rev_involutive s), Hr, rev_app, rev_involutive.
  - intros [r ->]. exists (String.rev r). apply rev_app.
Qed.

Lemma existsb_false {A} (f : A → bool) (l : list A) :
  existsb f l = false ↔ ∀ x, x ∈ l → f x = false.
Proof.
  induction l as [|y l IH]; cbn [existsb].
  - split; [by intros _ x Hx%elem_of_nil|done].
  - rewrite orb_false_iff, IH. split.
    + intros [Hy Hl] x [->|Hx]%elem_of_cons; auto.
    + intros Hall. split; [apply Hall; left|intros x Hx; apply Hall; by right].
Qed.

(** The table of white space, entry by entry. *)
Ltac whiteSpace_cases Hw :=
  let Hw' := fresh in
  apply list_elem_of_In in Hw; vm_compute in Hw;
  repeat (destruct Hw as [Hw'|Hw]; [first [discriminate Hw'|subst]|]);
  try (exfalso; exact Hw).

Lemma whiteSpace_nonempty : "" ∉ whiteSpace.
Proof. intros Hw. whiteSpace_cases Hw. Qed.

(** [trimStart] strips an entry of the table from the front. *)
Lemma trimStart_whiteSpace w u :
  w ∈ whiteSpace → trimStart (String.app w u) = trimStart u.
Proof. intros Hw. whiteSpace_cases Hw; reflexivity. Qed.

(** A text that begins with an entry begins with one, two or three bytes
    that make an entry. *)
Lemma isPrefix_whiteSpace w s :
  w ∈ whiteSpace → isPrefix w s = true →
  match s with
  | String a r1 =>
      isWhiteSpace (String a "") = true ∨
      match r1 with
      | String b r2 =>
          isWhiteSpace (String a (String b "")) = true ∨
          match r2 with
          | String c _ =>
              isWhiteSpace (String a (String b (String c ""))) = true
          | EmptyString => False
          end
      | EmptyString => False
      end
  | EmptyString => False
  end.
Proof.
  intros Hw [r ->]%isPrefix_app. whiteSpace_cases Hw; vm_compute; auto.
Qed.

Lemma trimStart_no_space s w :
  w ∈ whiteSpace → isPrefix w (trimStart s) = false.
Proof.
  intros Hw. remember (String.length s) as n eqn:Hn.
  revert s Hn. induction n as [n IH] using lt_wf_ind. intros s ->.
  destruct s as [|a r1]; [by whiteSpace_cases Hw|].
  cbn [trimStart].
  destruct (isWhiteSpace (String a "")) eqn:H1.
  { apply (IH (String.length r1)); [cbn; lia|done]. }
  destruct r1 as [|b r2].
  { apply not_true_is_false. intros Hp%isPrefix_whiteSpace; [|done].
    rewrite H1 in Hp. by destruct Hp. }
  destruct (isWhiteSpace (String a (String b ""))) eqn:H2.
  { apply (IH (String.length r2)); [cbn; lia|done]. }
  destruct r2 as [|c r3].
  { apply not_true_is_false. intros Hp%isPrefix_whiteSpace; [|done].
    rewrite H1, H2 in Hp. by destruct Hp as [?|[?|?]]. }
  destruct (isWhiteSpace (String a (String b (String c "")))) eqn:H3.
  { apply (IH (String.length r3)); [cbn; lia|done]. }
  apply not_true_is_false. intros Hp%isPrefix_whiteSpace; [|done].
  rewrite H1, H2, H3 in Hp. by destruct Hp as [?|[?|?]].
Qed.

(** [trimEnd] cuts a rest that [trimStart] would strip whole. *)
Lemma trimEnd_split s :
  ∃ u, s = String.app (trimEnd s) u ∧ trimStart u = "".
Proof.
  induction s as [|a s (u & Hs & Hu)]; [by exists ""|].
  cbn [trimEnd]. destruct (decide (trimStart (String a s) = "")) as [He|He].
  - by exists (String a s).
  - exists u. by rewrite app_cons, <- Hs.
Qed.

Lemma trimEnd_no_space s w r :
  w ∈ whiteSpace → trimEnd s ≠ String.app r w.
Proof.
  intros Hw. revert r. induction s as [|a s IH]; intros r.
  - cbn. destruct r; [|done]. intros Heq. apply whiteSpace_nonempty.
    by rewrite Heq.
  - cbn [trimEnd]. destruct (decide (trimStart (String a s) = "")) as [He|He].
    + destruct r; [|done]. intros Heq. apply whiteSpace_nonempty.
      by rewrite Heq.
    + destruct r as [|b r].
      * intros Heq. apply He. destruct (trimEnd_split s) as (u & Hs & Hu).
        rewrite Hs, <- app_cons, Heq. change (String.app "" w) with w.
        by rewrite trimStart_whiteSpace.
      * rewrite app_cons. intros [= _ Heq]. by eapply IH.
Qed.

(** [trim] gives the empty string on text made of ASCII white space. *)
Lemma trimStart_allSpace s : allSpace s = true → trimStart s = "".
Proof.
  induction s as [|a s IH]; [done|]. cbn [allSpace trimStart].
  intros [Ha Hs]%andb_true_iff.
  assert (isWhiteSpace (String a "") = true) as ->; [|by apply IH].
  clear -Ha. by destruct a as [[] [] [] [] [] [] [] []].
Qed.

Lemma trim_allSpace s : allSpace s = true → trim s = "".
Proof. intros Hs%trimStart_allSpace. unfold trim. by rewrite Hs. Qed.

(** The result of [trim] neither begins nor ends with white space. *)
Lemma trim_trimmed s :
  startsWithSpace (trim s) = false ∧ endsWithSpace (trim s) = false.
Proof.
  unfold startsWithSpace, endsWithSpace, trim. split; apply existsb_false.
  - intros w Hw. apply not_true_is_false. intros [r Hr]%isPrefix_app.
    destruct (trimEnd_split (trimStart s)) as (u & Hs & _).
    assert (isPrefix w (trimStart s) = true) as Hp.
    { apply isPrefix_app. exists (String.app r u).
      by rewrite Hs at 1; rewrite Hr, app_assoc. }
    by rewrite trimStart_no_space in Hp.
  - intros w Hw. apply not_true_is_false. intros [r Hr]%isSuffix_app.
    by eapply trimEnd_no_space.
Qed.

Lemma twoBytes_continuation a b : twoBytes a b = true → continuation b = true.
Proof. unfold twoBytes. by intros [_ ?]%andb_true_iff. Qed.

Lemma threeBytes_continuation a b c :
  threeBytes a b c = true → continuation b = true ∧ continuation c = true.
Proof.
  unfold threeBytes, continuation, within.
  rewrite !andb_true_iff, !orb_true_iff, !andb_true_iff, !N.leb_le. lia.
Qed.

Lemma fourBytes_continuation a b c d :
  fourBytes a b c d = true →
  continuation b = true ∧ continuation c = true ∧ continuation d = true.
Proof.
  unfold fourBytes, continuation, within.
  rewrite !andb_true_iff, !orb_true_iff, !andb_true_iff, !N.leb_le. lia.
Qed.

End trimming.

(** ** Text as code points

    [trim] on the bytes is [String.prototype.trim] on the code points: of a
    text made of white space, a body and white space it leaves the body. *)

Section code_points.
Implicit Types (c : N) (cs ws body : list N) (s r u : string).

Ltac divlia := zify; Z.to_euclidean_division_equations; lia.

Lemma byteCode_byteOf n : (n < 256)%N → byteCode (byteOf n) = n.
Proof. apply Stdlib.Strings.Ascii.N_ascii_embedding. Qed.

Lemma byteOf_inj n n' :
  (n < 256)%N → (n' < 256)%N → byteOf n = byteOf n' → n = n'.
Proof.
  intros Hn Hn' Heq. apply (f_equal byteCode) in Heq.
  by rewrite !byteCode_byteOf in Heq.
Qed.

(** The bytes of a code point are one of the four forms of well-formed
    UTF-8. *)
Lemma utf8_cases c :
  scalar c = true →
  (∃ a, utf8 c = String a "" ∧ within 0 0x7F a = true) ∨
  (∃ a b, utf8 c = String a (String b "") ∧
          within 0 0x7F a = false ∧ twoBytes a b = true) ∨
  (∃ a b d, utf8 c = String a (String b (String d "")) ∧
            within 0 0x7F a = false ∧ twoBytes a b = false ∧
            threeBytes a b d = true) ∨
  (∃ a b d e, utf8 c = String a (String b (String d (String e ""))) ∧
              within 0 0x7F a = false ∧ twoBytes a b = false ∧
              threeBytes a b d = false ∧ fourBytes a b d e = true).
Proof.
  unfold scalar, utf8. intros Hc.
  apply orb_true_iff in Hc. rewrite andb_true_iff, !N.ltb_lt in Hc.
  destruct (N.ltb_spec c 0x80) as [H1|H1].
  { left. eexists. split; [done|]. unfold within.
    rewrite byteCode_byteOf by lia. apply andb_true_iff.
    rewrite !N.leb_le. lia. }
  right. destruct (N.ltb_spec c 0x800) as [H2|H2].
  { left. do 2 eexists. split; [done|].
    unfold twoBytes, continuation, within.
    rewrite !byteCode_byteOf by divlia.
    rewrite andb_false_iff, !andb_true_iff, !N.leb_le, !N.leb_gt. divlia. }
  right. destruct (N.ltb_spec c 0x10000) as [H3|H3].
  { left. do 3 eexists. split; [done|].
    unfold threeBytes, twoBytes, continuation, within.
    rewrite !byteCode_byteOf by divlia.
    rewrite !andb_false_iff, !andb_true_iff, !orb_true_iff, !andb_true_iff,
      !N.leb_le, !N.leb_gt. divlia. }
  right. do 4 eexists. split; [done|].
  unfold fourBytes, threeBytes, twoBytes, continuation, within.
  rewrite !byteCode_byteOf by divlia.
  rewrite !andb_false_iff, !andb_true_iff, !orb_true_iff, !orb_false_iff,
    !andb_false_iff, !andb_true_iff, !N.leb_le, !N.leb_gt. divlia.
Qed.

Lemma textOf_app cs1 cs2 :
  textOf (cs1 ++ cs2) = String.app (textOf cs1) (textOf cs2).
Proof.
  induction cs1 as [|c cs1 IH]; [done|]. cbn [app textOf foldr].
  fold (textOf (cs1 ++ cs2)) (textOf cs1). by rewrite IH, app_assoc.
Qed.

Lemma textOf_cons c cs : textOf (c :: cs) = String.app (utf8 c) (textOf cs).
Proof. reflexivity. Qed.

(** The text of scalar values is well-formed. *)
Lemma wellFormed_utf8 c s :
  scalar c = true → wellFormed (String.app (utf8 c) s) = wellFormed s.
Proof.
  intros [(a & -> & Ha)|[(a & b & -> & Ha & Hb)|
    [(a & b & d & -> & Ha & Hb & Hd)|
     (a & b & d & e & -> & Ha & Hb & Hd & He)]]]%utf8_cases;
    rewrite ?app_cons; change (String.app "" s) with s; cbn [wellFormed];
    by rewrite ?Ha, ?Hb, ?Hd, ?He.
Qed.

Lemma wellFormed_textOf cs :
  Forall (λ c, scalar c = true) cs → wellFormed (textOf cs) = true.
Proof.
  induction 1 as [|c cs Hc _ IH]; [done|].
  by rewrite textOf_cons, wellFormed_utf8.
Qed.

(** Distinct code points have distinct bytes. *)
Lemma utf8_inj c c' :
  (c < 0x110000)%N → (c' < 0x110000)%N → utf8 c = utf8 c' → c = c'.
Proof.
  unfold utf8. intros Hc Hc'.
  destruct (N.ltb_spec c 0x80);
    [|destruct (N.ltb_spec c 0x800); [|destruct (N.ltb_spec c 0x10000)]];
    (destruct (N.ltb_spec c' 0x80);
     [|destruct (N.ltb_spec c' 0x800); [|destruct (N.ltb_spec c' 0x10000)]]);
    try discriminate; intros Heq; injection Heq as Heq;
    repeat match goal with
           | H : byteOf _ = byteOf _ |- _ =>
               apply byteOf_inj in H; [|divlia..]
           end.
  - lia.
  - divlia.
  - divlia.
  - divlia.
Qed.

Lemma whiteSpace_utf8 c :
  scalar c = true → utf8 c ∈ whiteSpace → c ∈ whiteSpaceCodePoints.
Proof.
  intros Hc (w & Heq & Hw)%list_elem_of_fmap.
  assert (w < 0x110000)%N as Hlt.
  { clear -Hw. apply list_elem_of_In in Hw. cbn in Hw.
    repeat (destruct Hw as [<-|Hw]; [done|]). done. }
  assert (c < 0x110000)%N as Hlt'.
  { unfold scalar in Hc. apply orb_true_iff in Hc.
    rewrite andb_true_iff, !N.ltb_lt in Hc. lia. }
  by rewrite (utf8_inj c w Hlt' Hlt Heq).
Qed.


Lemma utf8_whiteSpace c : c ∈ whiteSpaceCodePoints → utf8 c ∈ whiteSpace.
Proof. apply list_elem_of_fmap_2. Qed.

Lemma trimStart_textOf_whiteSpace ws s :
  Forall (λ c, c ∈ whiteSpaceCodePoints) ws →
  trimStart (String.app (textOf ws) s) = trimStart s.
Proof.
  induction 1 as [|c ws Hc _ IH]; [done|].
  rewrite textOf_cons, app_assoc, trimStart_whiteSpace; [done|].
  by apply utf8_whiteSpace.
Qed.

(** The first byte of an entry of the table tells its length. *)
Lemma isWhiteSpace_1 a :
  isWhiteSpace (String a "") = true → within 0 0x7F a = true.
Proof.
  intros Hw%bool_decide_eq_true. apply list_elem_of_In in Hw.
  vm_compute in Hw.
  repeat (destruct Hw as [Hw|Hw]; [by simplify_eq|]). done.
Qed.

Lemma isWhiteSpace_2 a b :
  isWhiteSpace (String a (String b "")) = true →
  within 0 0x7F a = false ∧ twoBytes a b = true.
Proof.
  intros Hw%bool_decide_eq_true. apply list_elem_of_In in Hw.
  vm_compute in Hw.
  repeat (destruct Hw as [Hw|Hw]; [by simplify_eq|]). done.
Qed.

Lemma isWhiteSpace_3 a b d :
  isWhiteSpace (String a (String b (String d ""))) = true →
  within 0 0x7F a = false ∧ twoBytes a b = false ∧ threeBytes a b d = true.
Proof.
  intros Hw%bool_decide_eq_true. apply list_elem_of_In in Hw.
  vm_compute in Hw.
  repeat (destruct Hw as [Hw|Hw]; [by simplify_eq|]). done.
Qed.

(** [trimStart] stops at a code point that is not white space. *)
Lemma trimStart_utf8 c s :
  scalar c = true → c ∉ whiteSpaceCodePoints →
  trimStart (String.app (utf8 c) s) = String.app (utf8 c) s.
Proof.
  intros Hc Hw.
  assert (utf8 c ∉ whiteSpace) as Hn by (by intros ?%whiteSpace_utf8).
  destruct (utf8_cases c Hc) as
    [(a & Heq & Ha)|[(a & b & Heq & Ha & Hb)|
      [(a & b & d & Heq & Ha & Hb & Hd)|
       (a & b & d & e & Heq & Ha & Hb & Hd & He)]]];
    rewrite Heq in Hn |- *; rewrite ?app_cons;
    change (String.app "" s) with s; cbn [trimStart].
  - unfold isWhiteSpace at 1. rewrite bool_decide_eq_false_2 by done.
    destruct s as [|b r2]; [done|].
    destruct (isWhiteSpace (String a (String b ""))) eqn:H2.
    { apply isWhiteSpace_2 in H2 as [? _]. congruence. }
    destruct r2 as [|d r3]; [done|].
    destruct (isWhiteSpace (String a (String b (String d "")))) eqn:H3;
      [|done].
    apply isWhiteSpace_3 in H3 as [? _]. congruence.
  - destruct (isWhiteSpace (String a "")) eqn:H1.
    { apply isWhiteSpace_1 in H1. congruence. }
    unfold isWhiteSpace at 1. rewrite bool_decide_eq_false_2 by done.
    destruct s as [|d r3]; [done|].
    destruct (isWhiteSpace (String a (String b (String d "")))) eqn:H3;
      [|done].
    apply isWhiteSpace_3 in H3 as (_ & ? & _). congruence.
  - destruct (isWhiteSpace (String a "")) eqn:H1.
    { apply isWhiteSpace_1 in H1. congruence. }
    destruct (isWhiteSpace (String a (String b ""))) eqn:H2.
    { apply isWhiteSpace_2 in H2 as [_ ?]. congruence. }
    unfold isWhiteSpace. by rewrite bool_decide_eq_false_2.
  - destruct (isWhiteSpace (String a "")) eqn:H1.
    { apply isWhiteSpace_1 in H1. congruence. }
    destruct (isWhiteSpace (String a (String b ""))) eqn:H2.
    { apply isWhiteSpace_2 in H2 as [_ ?]. congruence. }
    destruct (isWhiteSpace (String a (String b (String d "")))) eqn:H3;
      [|done].
    apply isWhiteSpace_3 in H3 as (_ & _ & ?). congruence.
Qed.


(** [trimEnd] keeps what comes before a code point that is not white
    space. *)
Lemma trimStart_continuation a r :
  continuation a = true → trimStart (String a r) = String a r.
Proof.
  intros Ha. cbn [trimStart].
  destruct (isWhiteSpace (String a "")) eqn:H1.
  { apply isWhiteSpace_1 in H1. unfold continuation, within in *.
    rewrite !andb_true_iff, !N.leb_le in *. lia. }
  destruct r as [|b r2]; [done|].
  destruct (isWhiteSpace (String a (String b ""))) eqn:H2.
  { apply isWhiteSpace_2 in H2 as [_ H2].
    unfold twoBytes, continuation, within in *.
    rewrite !andb_true_iff, !N.leb_le in *. lia. }
  destruct r2 as [|d r3]; [done|].
  destruct (isWhiteSpace (String a (String b (String d "")))) eqn:H3; [|done].
  apply isWhiteSpace_3 in H3 as (_ & _ & H3).
  unfold threeBytes, continuation, within in *.
  rewrite !andb_true_iff, !orb_true_iff, !andb_true_iff, !N.leb_le in *. lia.
Qed.

Lemma trimEnd_cons a r :
  trimStart (String a r) ≠ "" → trimEnd (String a r) = String a (trimEnd r).
Proof. intros Hne. cbn [trimEnd]. by rewrite decide_False. Qed.

Lemma trimEnd_continuation a r :
  continuation a = true → trimEnd (String a r) = String a (trimEnd r).
Proof. intros Ha. apply trimEnd_cons. by rewrite trimStart_continuation. Qed.

Lemma trimEnd_blank u : trimStart u = "" → trimEnd u = "".
Proof.
  destruct u; [done|]. intros Hu. cbn [trimEnd]. by rewrite decide_True.
Qed.

Lemma trimEnd_utf8 c s :
  scalar c = true → trimStart (String.app (utf8 c) s) ≠ "" →
  trimEnd (String.app (utf8 c) s) = String.app (utf8 c) (trimEnd s).
Proof.
  intros [(a & -> & Ha)|[(a & b & -> & Ha & Hb)|
    [(a & b & d & -> & Ha & Hb & Hd)|
     (a & b & d & e & -> & Ha & Hb & Hd & He)]]]%utf8_cases;
    rewrite ?app_cons; change (String.app "" s) with s; intros Hne;
    rewrite trimEnd_cons by done; f_equal.
  - apply twoBytes_continuation in Hb. by apply trimEnd_continuation.
  - apply threeBytes_continuation in Hd as [Hb' Hd'].
    by rewrite !trimEnd_continuation.
  - apply fourBytes_continuation in He as (Hb' & Hd' & He').
    by rewrite !trimEnd_continuation.
Qed.

Lemma utf8_nonempty c s : String.app (utf8 c) s ≠ "".
Proof. unfold utf8. by repeat case_match. Qed.

(** A text that ends in a code point other than white space is not blank,
    whatever follows. *)
Lemma trimStart_textOf_nonblank body c u :
  Forall (λ c, scalar c = true) body → last body = Some c →
  c ∉ whiteSpaceCodePoints →
  trimStart (String.app (textOf body) u) ≠ "".
Proof.
  intros Hbody Hlast Hc. induction Hbody as [|c0 body Hc0 Hbody IH]; [done|].
  rewrite textOf_cons, app_assoc.
  destruct (decide (c0 ∈ whiteSpaceCodePoints)) as [Hw|Hw].
  - rewrite trimStart_whiteSpace by (by apply utf8_whiteSpace).
    destruct body as [|c1 body]; [|by apply IH].
    cbn in Hlast. by simplify_eq.
  - rewrite trimStart_utf8 by done. apply utf8_nonempty.
Qed.

Lemma trimEnd_textOf body u :
  Forall (λ c, scalar c = true) body →
  (∀ c, last body = Some c → c ∉ whiteSpaceCodePoints) →
  trimStart u = "" →
  trimEnd (String.app (textOf body) u) = textOf body.
Proof.
  intros Hbody Hlast Hu. induction Hbody as [|c0 body Hc0 Hbody IH].
  { by apply trimEnd_blank. }
  destruct (last (c0 :: body)) as [c|] eqn:Hl;
    [|by apply last_None in Hl].
  rewrite textOf_cons, app_assoc, trimEnd_utf8; [|done|].
  - f_equal. apply IH. intros c' Hc'. apply Hlast.
    destruct body; [done|]. rewrite <- Hc'. symmetry. exact Hl.
  - rewrite <- app_assoc, <- textOf_cons.
    eapply trimStart_textOf_nonblank; [by constructor|done|by apply Hlast].
Qed.

(** [trim] takes the white space off both ends of a text and nothing
    else. *)
Lemma trim_textOf ws1 body ws2 :
  Forall (λ c, c ∈ whiteSpaceCodePoints) ws1 →
  Forall (λ c, c ∈ whiteSpaceCodePoints) ws2 →
  Forall (λ c, scalar c = true) body →
  (∀ c, head body = Some c → c ∉ whiteSpaceCodePoints) →
  (∀ c, last body = Some c → c ∉ whiteSpaceCodePoints) →
  trim (textOf (ws1 ++ body ++ ws2)) = textOf body.
Proof.
  intros Hws1 Hws2 Hbody Hhead Hlast. unfold trim.
  rewrite !textOf_app, trimStart_textOf_whiteSpace by done.
  assert (trimStart (textOf ws2) = "") as Hblank.
  { rewrite <- (app_empty_r (textOf ws2)).
    by rewrite trimStart_textOf_whiteSpace. }
  destruct body as [|c body].
  { change (String.app (textOf []) (textOf ws2)) with (textOf ws2).
    by rewrite Hblank. }
  rewrite textOf_cons, app_assoc, trimStart_utf8;
    [|by apply Forall_cons in Hbody as [? _]|by apply Hhead].
  rewrite <- app_assoc, <- textOf_cons. by apply trimEnd_textOf.
Qed.

Lemma byteOf_byteCode (a : Stdlib.Strings.Ascii.ascii) :
  byteOf (byteCode a) = a.
Proof. apply Stdlib.Strings.Ascii.ascii_N_embedding. Qed.

Lemma byteCode_bound (a : Stdlib.Strings.Ascii.ascii) : (byteCode a < 256)%N.
Proof. apply Stdlib.Strings.Ascii.N_ascii_bounded. Qed.

(** Every well-formed text is the text of a list of code points. *)
Lemma wellFormed_code_points s :
  wellFormed s = true →
  ∃ cs, Forall (λ c, scalar c = true) cs ∧ s = textOf cs.
Proof.
  remember (String.length s) as n eqn:Hn.
  revert s Hn. induction n as [n IH] using lt_wf_ind. intros s ->.
  destruct s as [|a r1]; [by exists []|]. cbn [wellFormed].
  pose proof (byteCode_bound a) as Hba.
  destruct (within 0 127 a) eqn:H1.
  { intros (cs & Hcs & ->)%(IH (String.length r1)); [|cbn; lia|done].
    exists (byteCode a :: cs). unfold within in H1.
    apply andb_true_iff in H1. rewrite !N.leb_le in H1. split.
    - constructor; [|done]. unfold scalar. apply orb_true_iff. left.
      apply N.ltb_lt. lia.
    - rewrite textOf_cons. unfold utf8.
      destruct (N.ltb_spec (byteCode a) 128); [|lia].
      by rewrite byteOf_byteCode. }
  destruct r1 as [|b r2]; [done|]. pose proof (byteCode_bound b) as Hbb.
  destruct (twoBytes a b) eqn:H2.
  { intros (cs & Hcs & ->)%(IH (String.length r2)); [|cbn; lia|done].
    exists (((byteCode a - 0xC0) * 0x40 + (byteCode b - 0x80))%N :: cs).
    unfold twoBytes, continuation, within in H2.
    rewrite !andb_true_iff, !N.leb_le in H2. split.
    - constructor; [|done]. unfold scalar. apply orb_true_iff. left.
      apply N.ltb_lt. lia.
    - rewrite textOf_cons. unfold utf8.
      destruct (N.ltb_spec
                  ((byteCode a - 192) * 64 + (byteCode b - 128)) 128); [lia|].
      destruct (N.ltb_spec
                  ((byteCode a - 192) * 64 + (byteCode b - 128)) 2048);
        [|lia].
      replace (192 + ((byteCode a - 192) * 64 + (byteCode b - 128)) / 64)%N
        with (byteCode a) by divlia.
      replace (128 + ((byteCode a - 192) * 64 + (byteCode b - 128)) mod 64)%N
        with (byteCode b) by divlia.
      by rewrite !byteOf_byteCode. }
  destruct r2 as [|d r3]; [done|]. pose proof (byteCode_bound d) as Hbd.
  destruct (threeBytes a b d) eqn:H3.
  { intros (cs & Hcs & ->)%(IH (String.length r3)); [|cbn; lia|done].
    set (c := ((byteCode a - 0xE0) * 0x1000 + (byteCode b - 0x80) * 0x40 +
               (byteCode d - 0x80))%N).
    exists (c :: cs).
    unfold threeBytes, continuation, within in H3.
    rewrite !andb_true_iff, !orb_true_iff, !andb_true_iff, !N.leb_le in H3.
    split.
    - constructor; [|done]. unfold scalar.
      rewrite orb_true_iff, andb_true_iff, !N.ltb_lt. subst c. lia.
    - rewrite textOf_cons. unfold utf8.
      destruct (N.ltb_spec c 128); [subst c; lia|].
      destruct (N.ltb_spec c 2048); [subst c; lia|].
      destruct (N.ltb_spec c 65536); [|subst c; lia].
      replace (224 + c / 4096)%N with (byteCode a) by (subst c; divlia).
      replace (128 + c / 64 mod 64)%N with (byteCode b) by (subst c; divlia).
      replace (128 + c mod 64)%N with (byteCode d) by (subst c; divlia).
      by rewrite !byteOf_byteCode. }
  destruct r3 as [|e r4]; [done|]. pose proof (byteCode_bound e) as Hbe.
  intros [H4 (cs & Hcs & ->)%(IH (String.length r4))]%andb_true_iff;
    [|cbn; lia|done].
  set (c := ((byteCode a - 0xF0) * 0x40000 + (byteCode b - 0x80) * 0x1000 +
             (byteCode d - 0x80) * 0x40 + (byteCode e - 0x80))%N).
  exists (c :: cs).
  unfold fourBytes, continuation, within in H4.
  rewrite !andb_true_iff, !orb_true_iff, !andb_true_iff, !N.leb_le in H4.
  split.
  - constructor; [|done]. unfold scalar.
    rewrite orb_true_iff, andb_true_iff, !N.ltb_lt. subst c. lia.
  - rewrite textOf_cons. unfold utf8.
    destruct (N.ltb_spec c 128); [subst c; lia|].
    destruct (N.ltb_spec c 2048); [subst c; lia|].
    destruct (N.ltb_spec c 65536); [subst c; lia|].
    replace (240 + c / 262144)%N with (byteCode a) by (subst c; divlia).
    replace (128 + c / 4096 mod 64)%N with (byteCode b) by (subst c; divlia).
    replace (128 + c / 64 mod 64)%N with (byteCode d) by (subst c; divlia).
    replace (128 + c mod 64)%N with (byteCode e) by (subst c; divlia).
    by rewrite !byteOf_byteCode.
Qed.
(** Every list of code points is white space, a body and white space. *)
Lemma spaces_at_end cs :
  ∃ body ws2, cs = body ++ ws2 ∧ spaces ws2 ∧
    ∀ c, last body = Some c → c ∉ whiteSpaceCodePoints.
Proof.
  induction cs as [|c cs IH] using rev_ind.
  { exists [], []. split; [done|]. split; [constructor|done]. }
  destruct (decide (c ∈ whiteSpaceCodePoints)) as [Hc|Hc].
  - destruct IH as (body & ws2 & -> & Hws2 & Hlast).
    exists body, (ws2 ++ [c]). rewrite (assoc_L (++)). split; [done|].
    split; [|done]. apply Forall_app. split; [done|]. by constructor.
  - exists (cs ++ [c]), []. rewrite (right_id_L [] (++)). split; [done|].
    split; [constructor|]. intros c'. rewrite last_snoc. by intros [= <-].
Qed.

Lemma spaces_around cs :
  ∃ ws1 body ws2, cs = ws1 ++ body ++ ws2 ∧ spaces ws1 ∧ spaces ws2 ∧
    (∀ c, head body = Some c → c ∉ whiteSpaceCodePoints) ∧
    (∀ c, last body = Some c → c ∉ whiteSpaceCodePoints).
Proof.
  induction cs as [|c cs IH].
  { exists [], [], []. split; [done|]. split; [constructor|].
    split; [constructor|done]. }
  destruct (decide (c ∈ whiteSpaceCodePoints)) as [Hc|Hc].
  - destruct IH as (ws1 & body & ws2 & -> & Hws1 & Hws2 & Hhead & Hlast).
    exists (c :: ws1), body, ws2. split; [done|].
    split; [by constructor|done].
  - destruct (spaces_at_end (c :: cs)) as (body & ws2 & Heq & Hws2 & Hlast).
    exists [], body, ws2. split; [done|]. split; [constructor|].
    split; [done|]. split; [|done].
    destruct body as [|c' body]; [done|]. injection Heq as <- _.
    by intros ? [= <-].
Qed.

(** So [trim], on every well-formed text, is [String.prototype.trim]: the
    text is code points, white space then a body then white space, and what
    is left is the body. *)
Lemma trim_code_points s :
  wellFormed s = true →
  ∃ ws1 body ws2,
    s = textOf (ws1 ++ body ++ ws2) ∧ spaces ws1 ∧ spaces ws2 ∧
    (∀ c, head body = Some c → c ∉ whiteSpaceCodePoints) ∧
    (∀ c, last body = Some c → c ∉ whiteSpaceCodePoints) ∧
    trim s = textOf body.
Proof.
  intros (cs & Hcs & ->)%wellFormed_code_points.
  destruct (spaces_around cs)
    as (ws1 & body & ws2 & -> & Hws1 & Hws2 & Hh & Hl).
  exists ws1, body, ws2. repeat (split; [done|]).
  apply trim_textOf; try done.
  apply Forall_app in Hcs as [_ Hcs]. by apply Forall_app in Hcs as [Hcs _].
Qed.
End code_points.

(** X5: a submission whose text is empty or white space only changes
    neither the store nor the page, for a top-level comment and for a reply
    alike. *)
Theorem blank_submission_ignored (postId u newId now parentId : string)
    (depth : Z) (d : DB) (st : PostDetail.State) :
  (allSpace (PostDetail.st_newComment st) = true →
   PostDetail.handleSubmitComment postId u newId now (d, st) = (d, st)) ∧
  (allSpace (PostDetail.st_replyText st) = true →
   PostDetail.handleSubmitReply postId u newId now parentId depth (d, st)
     = (d, st)).
Proof.
  unfold PostDetail.handleSubmitComment, PostDetail.handleSubmitReply.
  split; intros H%trim_allSpace; cbn [snd]; by rewrite decide_True.
Qed.

Lemma blank_submission_ignored_witness :
  PostDetail.handleSubmitReply "p1" "u1" "c2" "t2" "c1" 0
    (db1, typeReply "c1" "  " initState) = (db1, typeReply "c1" "  " initState).
Proof.
  apply (proj2 (blank_submission_ignored "p1" "u1" "c2" "t2" "c1" 0 db1
                  (typeReply "c1" "  " initState))).
  reflexivity.
Defined.

Section loading.
Implicit Types (cs rows : list Comment) (c : Comment) (k postId : string).

Lemma comments_list_elem postId rows c :
  c ∈ comments_list postId rows ↔ c ∈ rows ∧ comment_postId c = postId.
Proof.
  unfold comments_list. rewrite merge_sort_Permutation, list_elem_of_filter.
  tauto.
Qed.

(** Every comment of the input has its cell, holding a comment with that
    identifier and the replies that name it. *)
Lemma build_cell cs c :
  c ∈ cs →
  ∃ o, (buildCommentTree cs).1 !! comment_id c = Some o ∧
       comment_id (obj_data o) = comment_id c ∧
       obj_replies o = comment_id <$> childrenOf cs (comment_id c).
Proof.
  intros Hin. rewrite build_lookup.
  assert (is_Some (last (withId cs (comment_id c)))) as [x Hx].
  { apply last_is_Some. intros Hnil.
    assert (c ∈ withId cs (comment_id c)) as Hc by by apply withId_elem.
    rewrite Hnil in Hc. by apply elem_of_nil in Hc. }
  rewrite Hx. eexists. split; [done|]. cbn. split; [|done].
  apply last_Some_elem_of in Hx.
  by destruct (proj1 (withId_elem _ _ _) Hx).
Qed.

Global Instance createdAtLe_total : Total createdAtLe.
Proof. intros a b. unfold createdAtLe. apply String.le_total. Qed.

Global Instance createdAtLe_trans : Transitive createdAtLe.
Proof.
  intros a b c. unfold createdAtLe.
  apply (transitivity (R := String.le)).
Qed.

Lemma StronglySorted_filter {A} (R : relation A) (P : A → Prop)
    `{!∀ x, Decision (P x)} (l : list A) :
  StronglySorted R l → StronglySorted R (filter P l).
Proof.
  induction 1 as [|x l Hl IH Hx]; [constructor|].
  rewrite filter_cons. destruct (decide (P x)); [|done].
  constructor; [done|]. apply Forall_forall. intros y Hy.
  apply list_elem_of_filter in Hy as [_ Hy].
  by eapply Forall_forall in Hx.
Qed.
End loading.

(** The shape of a submission with text: the store after it, and the page
    reloaded from that store with the form emptied. *)
Lemma handleSubmitComment_result (postId u newId now : string) (d : DB)
    (st : PostDetail.State) :
  trim (PostDetail.st_newComment st) ≠ "" →
  ∃ d2,
    PostDetail.handleSubmitComment postId u newId now (d, st) =
      (d2, PostDetail.loadComments postId d2
             (PostDetail.mkState (PostDetail.st_post st)
                (PostDetail.st_comments st) "" (PostDetail.st_replyingTo st)
                (PostDetail.st_replyText st))) ∧
    db_comments d2 =
      db_comments d ++
      [mkComment newId (trim (PostDetail.st_newComment st)) u postId None
         0 0 0 false now] ∧
    db_votes d2 = db_votes d ∧
    db_posts d2 =
      match PostDetail.st_post st with
      | Some p =>
          posts_update postId (setCommentCount (post_commentCount p + 1))
            (db_posts d)
      | None => db_posts d
      end.
Proof.
  intros Hne. unfold PostDetail.handleSubmitComment. cbn [fst snd].
  rewrite decide_False by done. eexists. split; [reflexivity|].
  by destruct (PostDetail.st_post st).
Qed.

Lemma handleSubmitReply_result (postId u newId now parentId : string)
    (depth : Z) (d : DB) (st : PostDetail.State) :
  trim (PostDetail.st_replyText st) ≠ "" →
  ∃ d2,
    PostDetail.handleSubmitReply postId u newId now parentId depth (d, st) =
      (d2, PostDetail.loadComments postId d2
             (PostDetail.mkState (PostDetail.st_post st)
                (PostDetail.st_comments st) (PostDetail.st_newComment st)
                None "")) ∧
    db_comments d2 =
      db_comments d ++
      [mkComment newId (trim (PostDetail.st_replyText st)) u postId
         (Some parentId) 0 0 (Z.min (depth + 1) 10) false now] ∧
    db_votes d2 = db_votes d ∧
    db_posts d2 =
      match PostDetail.st_post st with
      | Some p =>
          posts_update postId (setCommentCount (post_commentCount p + 1))
            (db_posts d)
      | None => db_posts d
      end.
Proof.
  intros Hne. unfold PostDetail.handleSubmitReply. cbn [fst snd].
  rewrite decide_False by done. eexists. split; [reflexivity|].
  by destruct (PostDetail.st_post st).
Qed.

(** X6: of a text made of white space, a body and white space again, a new
    comment or reply stores the body: the white space around it is gone,
    Unicode white space included, and nothing else is.  What is stored is
    well-formed and neither begins nor ends with a white space code
    point. *)
Theorem submitted_text_trimmed (postId u newId now parentId : string)
    (depth : Z) (d : DB) (st : PostDetail.State) (ws1 body ws2 : list N) :
  spaces ws1 → spaces ws2 → solid body →
  (PostDetail.st_newComment st = textOf (ws1 ++ body ++ ws2) →
   ∃ c, last (db_comments
               (PostDetail.handleSubmitComment postId u newId now (d, st)).1)
          = Some c ∧
        comment_content c = textOf body ∧
        wellFormed (comment_content c) = true ∧
        startsWithSpace (comment_content c) = false ∧
        endsWithSpace (comment_content c) = false) ∧
  (PostDetail.st_replyText st = textOf (ws1 ++ body ++ ws2) →
   ∃ c, last (db_comments
               (PostDetail.handleSubmitReply postId u newId now parentId depth
                  (d, st)).1)
          = Some c ∧
        comment_content c = textOf body ∧
        wellFormed (comment_content c) = true ∧
        startsWithSpace (comment_content c) = false ∧
        endsWithSpace (comment_content c) = false).
Proof.
  intros Hws1 Hws2 (Hne & Hscalar & Hhead & Hlast).
  pose proof (trim_textOf ws1 body ws2 Hws1 Hws2 Hscalar Hhead Hlast)
    as Htrim.
  assert (textOf body ≠ "") as Hbody.
  { destruct body as [|c body]; [done|]. apply utf8_nonempty. }
  assert (wellFormed (textOf body) = true ∧
          startsWithSpace (textOf body) = false ∧
          endsWithSpace (textOf body) = false) as Hshape.
  { split; [by apply wellFormed_textOf|]. rewrite <- Htrim.
    apply trim_trimmed. }
  split; intros Htext.
  - destruct (handleSubmitComment_result postId u newId now d st)
      as (d2 & Heq & Hcs & _); [by rewrite Htext, Htrim|].
    rewrite Heq. cbn [fst]. rewrite Hcs.
    eexists. split; [apply last_snoc|]. cbn [comment_content].
    by rewrite Htext, Htrim.
  - destruct (handleSubmitReply_result postId u newId now parentId depth d st)
      as (d2 & Heq & Hcs & _); [by rewrite Htext, Htrim|].
    rewrite Heq. cbn [fst]. rewrite Hcs.
    eexists. split; [apply last_snoc|]. cbn [comment_content].
    by rewrite Htext, Htrim.
Qed.

Lemma submitted_text_trimmed_witness :
  ∃ c, last (db_comments
              (PostDetail.handleSubmitReply "p1" "u1" "c2" "t2" "c1" 0
                 (db1, typeReply "c1" paddedText initState)).1)
         = Some c ∧
       comment_content c = textOf wellSaid ∧
       wellFormed (comment_content c) = true ∧
       startsWithSpace (comment_content c) = false ∧
       endsWithSpace (comment_content c) = false.
Proof.
  refine (proj2 (submitted_text_trimmed "p1" "u1" "c2" "t2" "c1" 0 db1
                   (typeReply "c1" paddedText initState)
                   [0xA0; 0x20]%N wellSaid [0x3000; 0xFEFF]%N _ _ _) _).
  - by_compute.
  - by_compute.
  - split; [done|]. split; [by_compute|].
    split; intros c [= <-]; by_compute.
  - reflexivity.
Defined.

(** X24: a submission whose text is made of white space code points only,
    no-break spaces for one, changes neither the store nor the page. *)
Theorem unicode_blank_submission_ignored (postId u newId now parentId : string)
    (depth : Z) (d : DB) (st : PostDetail.State) (ws : list N) :
  spaces ws →
  (PostDetail.st_newComment st = textOf ws →
   PostDetail.handleSubmitComment postId u newId now (d, st) = (d, st)) ∧
  (PostDetail.st_replyText st = textOf ws →
   PostDetail.handleSubmitReply postId u newId now parentId depth (d, st)
     = (d, st)).
Proof.
  intros Hws.
  assert (trim (textOf ws) = "") as Htrim.
  { rewrite <- (app_nil_r ws) at 1.
    by apply (trim_textOf ws [] []). }
  unfold PostDetail.handleSubmitComment, PostDetail.handleSubmitReply.
  split; intros Htext; cbn [snd]; by rewrite Htext, decide_True.
Qed.

Lemma unicode_blank_submission_ignored_witness :
  PostDetail.handleSubmitReply "p1" "u1" "c2" "t2" "c1" 0
    (db1, typeReply "c1" (textOf [0xA0; 0x3000; 0x9]%N) initState)
  = (db1, typeReply "c1" (textOf [0xA0; 0x3000; 0x9]%N) initState).
Proof.
  refine (proj2 (unicode_blank_submission_ignored "p1" "u1" "c2" "t2" "c1" 0
                   db1 (typeReply "c1" (textOf [0xA0; 0x3000; 0x9]%N)
                          initState)
                   [0xA0; 0x3000; 0x9]%N _) _).
  - by_compute.
  - reflexivity.
Defined.

(** X7: a top-level comment whose text, well-formed, is not white space
    only adds exactly one comment row, with the trimmed text, no parent,
    depth 0 and zero counters, leaves the votes alone, empties the comment
    box, and after the reload the new comment is one of the root comments
    on the page. *)
Theorem top_level_comment_shown (postId u newId now : string) (d : DB)
    (st : PostDetail.State) :
  wellFormed (PostDetail.st_newComment st) = true →
  trim (PostDetail.st_newComment st) ≠ "" →
  let w' := PostDetail.handleSubmitComment postId u newId now (d, st) in
  db_comments w'.1 =
    db_comments d ++
    [mkComment newId (trim (PostDetail.st_newComment st)) u postId None
       0 0 0 false now] ∧
  db_votes w'.1 = db_votes d ∧
  PostDetail.st_newComment w'.2 = "" ∧
  newId ∈ (PostDetail.st_comments w'.2).2 ∧
  ∃ o, (PostDetail.st_comments w'.2).1 !! newId = Some o ∧
       comment_id (obj_data o) = newId.
Proof.
  intros _ Hne.
  destruct (handleSubmitComment_result postId u newId now d st Hne)
    as (d2 & Heq & Hcs & Hvs & _).
  cbv zeta. rewrite Heq. cbn [fst snd].
  split; [done|]. split; [done|]. split; [done|].
  unfold PostDetail.loadComments, PostDetail.setComments.
  cbn [PostDetail.st_comments].
  set (c := mkComment newId _ u postId None 0 0 0 false now) in Hcs.
  assert (c ∈ comments_list postId (db_comments d2)) as Hc.
  { apply comments_list_elem. split; [|done]. rewrite Hcs.
    apply elem_of_app. right. left. }
  split.
  - rewrite build_roots. apply (list_elem_of_fmap_2 comment_id _ c).
    by apply list_elem_of_filter.
  - destruct (build_cell _ _ Hc) as (o & Ho & Hid & _). by exists o.
Qed.

Lemma top_level_comment_shown_witness :
  let st := PostDetail.mkState None (∅, []) "  hi " None "" in
  let w' := PostDetail.handleSubmitComment "p1" "u1" "c9" "t9" (db1, st) in
  db_comments w'.1 =
    db_comments db1 ++
    [mkComment "c9" (trim "  hi ") "u1" "p1" None 0 0 0 false "t9"] ∧
  db_votes w'.1 = db_votes db1 ∧
  PostDetail.st_newComment w'.2 = "" ∧
  "c9" ∈ (PostDetail.st_comments w'.2).2 ∧
  ∃ o, (PostDetail.st_comments w'.2).1 !! "c9" = Some o ∧
       comment_id (obj_data o) = "c9".
Proof.
  apply (top_level_comment_shown "p1" "u1" "c9" "t9" db1
           (PostDetail.mkState None (∅, []) "  hi " None "")).
  - reflexivity.
  - vm_compute. discriminate.
Defined.



Lemma renderComments_depth_nonneg (collapsed : gset string)
    (rt : option string) (forest : list Tree) (r : CommentRow) :
  r ∈ renderComments collapsed rt forest → 0 ≤ row_depth r.
Proof.
  unfold renderComments. intros Hr.
  induction forest as [|t ts IH]; [by apply elem_of_nil in Hr|].
  cbn [map concat] in Hr. apply elem_of_app in Hr as [Hr|Hr]; [|by apply IH].
  by destruct (renderComment_rows collapsed rt 0 t r ltac:(lia) Hr).
Qed.

(** X9: the reply form of a rendered row submits the depth at which the row
    is rendered, so a reply whose text, well-formed, is not white space
    only is stored with that comment as parent and with depth
    min(nesting depth + 1, 10), a value from 1 to 10. *)
Theorem reply_depth_from_row (collapsed : gset string) (rt : option string)
    (forest : list Tree) (r : CommentRow) (postId u newId now : string)
    (d : DB) (st : PostDetail.State) :
  r ∈ renderComments collapsed rt forest → row_replyForm r = true →
  wellFormed (PostDetail.st_replyText st) = true →
  trim (PostDetail.st_replyText st) ≠ "" →
  rt = Some (comment_id (row_comment r)) ∧
  ∃ c, last (db_comments
               (PostDetail.handleSubmitReply postId u newId now
                  (comment_id (row_comment r)) (row_depth r) (d, st)).1)
         = Some c ∧
       comment_parentId c = Some (comment_id (row_comment r)) ∧
       comment_depth c = Z.min (row_depth r + 1) 10 ∧
       1 ≤ comment_depth c ≤ 10.
Proof.
  intros Hr Hform _ Hne. split.
  - clear Hne. unfold renderComments in Hr.
    induction forest as [|t ts IH]; [by apply elem_of_nil in Hr|].
    cbn [map concat] in Hr. apply elem_of_app in Hr as [Hr|Hr]; [|by apply IH].
    clear IH. generalize 0 as depth, Hr. clear Hr.
    induction t as [c ts' IHt] using Tree_ind_Forall. intros depth.
    cbn [renderComment]. intros [->|Hr]%elem_of_cons.
    + cbn in Hform. by apply bool_decide_eq_true in Hform.
    + destruct (bool_decide (comment_id c ∈ collapsed));
        [by apply elem_of_nil in Hr|].
      induction IHt as [|t' ts' Ht' _ IHts];
        [by apply elem_of_nil in Hr|].
      cbn [map concat] in Hr. apply elem_of_app in Hr as [Hr|Hr];
        [by eapply Ht'|by apply IHts].
  - pose proof (renderComments_depth_nonneg collapsed rt forest r Hr) as Hd.
    destruct (handleSubmitReply_result postId u newId now
                (comment_id (row_comment r)) (row_depth r) d st Hne)
      as (d2 & Heq & Hcs & _).
    rewrite Heq. cbn [fst]. rewrite Hcs. eexists. split; [apply last_snoc|].
    cbn. split; [done|]. split; [done|]. lia.
Qed.

Lemma reply_depth_from_row_witness :
  let r := mkRow cB 1 (Some 4) true 0 (Some false) "second" true true in
  Some "B" = Some (comment_id (row_comment r)) ∧
  ∃ c, last (db_comments
               (PostDetail.handleSubmitReply "p1" "u1" "c2" "t2"
                  (comment_id (row_comment r)) (row_depth r)
                  (db1, typeReply "B" "ok" initState)).1)
         = Some c ∧
       comment_parentId c = Some (comment_id (row_comment r)) ∧
       comment_depth c = Z.min (row_depth r + 1) 10 ∧
       1 ≤ comment_depth c ≤ 10.
Proof.
  apply (reply_depth_from_row ∅ (Some "B")
           [Node cA [Node cB [Node cC []]; Node cD []]]
           (mkRow cB 1 (Some 4) true 0 (Some false) "second" true true)
           "p1" "u1" "c2" "t2" db1 (typeReply "B" "ok" initState)).
  - by_compute.
  - reflexivity.
  - reflexivity.
  - vm_compute. discriminate.
Defined.

(** * Loading the page *)

(** X10: in the result of the tree builder no reference dangles: every
    root and every entry of a replies list is the key of a cell, the cell at
    a key holds an input comment with that identifier, and every input
    comment has its cell, also when it is not reachable from a root. *)
Theorem buildCommentTree_no_dangling (cs : list Comment) :
  (∀ k, k ∈ (buildCommentTree cs).2 →
        is_Some ((buildCommentTree cs).1 !! k)) ∧
  (∀ k o, (buildCommentTree cs).1 !! k = Some o →
     comment_id (obj_data o) = k ∧ obj_data o ∈ cs ∧
     ∀ r, r ∈ obj_replies o → is_Some ((buildCommentTree cs).1 !! r)) ∧
  (∀ c, c ∈ cs → is_Some ((buildCommentTree cs).1 !! comment_id c)).
Proof.
  assert (∀ c, c ∈ cs → is_Some ((buildCommentTree cs).1 !! comment_id c))
    as Hcell.
  { intros c Hc. destruct (build_cell cs c Hc) as (o & Ho & _). by exists o. }
  split; [|split; [|done]].
  - intros k. rewrite build_roots. intros (c & -> & Hc)%list_elem_of_fmap.
    apply Hcell. by apply list_elem_of_filter in Hc as [_ ?].
  - intros k o Hk. destruct (build_lookup_Some _ _ _ Hk) as (Hid & Hin & Hrs).
    split; [done|]. split; [done|]. intros r. rewrite Hrs.
    intros (c & -> & Hc)%list_elem_of_fmap.
    apply Hcell. by apply list_elem_of_filter in Hc as [_ ?].
Qed.

(** X11: after loading, the page holds comments of this post only, each a
    row of the store, and every stored comment of the post has its cell;
    the post, the comment box and the reply form are left as they were. *)
Theorem loadComments_this_post (postId : string) (d : DB)
    (st : PostDetail.State) :
  let st' := PostDetail.loadComments postId d st in
  (∀ k o, (PostDetail.st_comments st').1 !! k = Some o →
     obj_data o ∈ db_comments d ∧ comment_postId (obj_data o) = postId) ∧
  (∀ c, c ∈ db_comments d → comment_postId c = postId →
     is_Some ((PostDetail.st_comments st').1 !! comment_id c)) ∧
  PostDetail.st_post st' = PostDetail.st_post st ∧
  PostDetail.st_newComment st' = PostDetail.st_newComment st ∧
  PostDetail.st_replyingTo st' = PostDetail.st_replyingTo st ∧
  PostDetail.st_replyText st' = PostDetail.st_replyText st.
Proof.
  cbv zeta. unfold PostDetail.loadComments, PostDetail.setComments.
  cbn [PostDetail.st_comments PostDetail.st_post PostDetail.st_newComment
       PostDetail.st_replyingTo PostDetail.st_replyText].
  split; [|split; [|done]].
  - intros k o Hk. destruct (build_lookup_Some _ _ _ Hk) as (_ & Hin & _).
    by apply comments_list_elem in Hin.
  - intros c Hc Hp.
    assert (c ∈ comments_list postId (db_comments d)) as Hin
      by by apply comments_list_elem.
    destruct (build_cell _ _ Hin) as (o & Ho & _). by exists o.
Qed.

(** X12: after loading, the root comments are in ascending order of
    creation time, and so are the replies of every comment. *)
Theorem loadComments_chronological (postId : string) (d : DB)
    (st : PostDetail.State) :
  let st' := PostDetail.loadComments postId d st in
  (∃ rs, (PostDetail.st_comments st').2 = comment_id <$> rs ∧
         (∀ c, c ∈ rs → c ∈ db_comments d ∧ parentRef c = None) ∧
         StronglySorted createdAtLe rs) ∧
  (∀ k o, (PostDetail.st_comments st').1 !! k = Some o →
     ∃ rs, obj_replies o = comment_id <$> rs ∧
           (∀ c, c ∈ rs → parentRef c = Some k) ∧
           StronglySorted createdAtLe rs).
Proof.
  cbv zeta. unfold PostDetail.loadComments, PostDetail.setComments.
  cbn [PostDetail.st_comments].
  assert (StronglySorted createdAtLe
            (comments_list postId (db_comments d))) as Hs.
  { unfold comments_list. apply StronglySorted_merge_sort; apply _. }
  split.
  - eexists. split; [apply build_roots|]. split.
    + intros c [Hroot Hc]%list_elem_of_filter.
      by apply comments_list_elem in Hc as [? _].
    + by apply StronglySorted_filter.
  - intros k o Hk. destruct (build_lookup_Some _ _ _ Hk) as (_ & _ & Hrs).
    eexists. split; [exact Hrs|]. split.
    + intros c Hc. by apply list_elem_of_filter in Hc as [? _].
    + by apply StronglySorted_filter.
Qed.

(** The post a load puts on the page. *)
Lemma loadPostAndComments_found (postId : string) (d : DB)
    (st : PostDetail.State) :
  ((∀ p, p ∈ db_posts d → post_id p ≠ postId) →
   PostDetail.loadPostAndComments postId d st = st) ∧
  (∀ p, p ∈ db_posts d → post_id p = postId →
   ∃ p', PostDetail.st_post (PostDetail.loadPostAndComments postId d st)
           = Some p' ∧
         p' ∈ db_posts d ∧ post_id p' = postId ∧
         head (filter (λ q, post_id q = postId) (db_posts d)) = Some p' ∧
         PostDetail.st_comments (PostDetail.loadPostAndComments postId d st)
           = buildCommentTree (comments_list postId (db_comments d))).
Proof.
  unfold PostDetail.loadPostAndComments, posts_list. split.
  - intros Hnone.
    assert (filter (λ p, post_id p = postId) (db_posts d) = []) as ->; [|done].
    induction (db_posts d) as [|x l IH]; [done|].
    rewrite filter_cons_False by (apply Hnone; left).
    apply IH. intros p Hp. apply Hnone. by right.
  - intros p Hp Hid.
    destruct (filter (λ q, post_id q = postId) (db_posts d)) as [|p' l] eqn:Hf.
    + exfalso. eapply filter_nil_not_elem_of; [exact Hf| |exact Hp]. done.
    + cbn [take]. exists p'.
      assert (p' ∈ filter (λ q, post_id q = postId) (db_posts d)) as Hp'
        by (rewrite Hf; left).
      apply list_elem_of_filter in Hp' as [Hid' Hin'].
      by repeat split.
Qed.

(** X13: when the store has no post with the requested identifier the page
    keeps its state and loads no comment; otherwise the page's post is the
    first stored row with that identifier and the comments are loaded. *)
Theorem loadPostAndComments_cases (postId : string) (d : DB)
    (st : PostDetail.State) :
  ((∀ p, p ∈ db_posts d → post_id p ≠ postId) →
   PostDetail.loadPostAndComments postId d st = st) ∧
  (∀ p, p ∈ db_posts d → post_id p = postId →
   ∃ p', PostDetail.st_post (PostDetail.loadPostAndComments postId d st)
           = Some p' ∧
         p' ∈ db_posts d ∧ post_id p' = postId ∧
         head (filter (λ q, post_id q = postId) (db_posts d)) = Some p' ∧
         PostDetail.st_comments (PostDetail.loadPostAndComments postId d st)
           = buildCommentTree (comments_list postId (db_comments d))).
Proof. apply loadPostAndComments_found. Qed.

Lemma loadPostAndComments_cases_witness :
  PostDetail.loadPostAndComments "p2" db1 initState = initState.
Proof.
  apply (proj1 (loadPostAndComments_cases "p2" db1 initState)).
  intros p Hp. assert (p ∈ [post1]) as Hin by exact Hp.
  apply list_elem_of_singleton in Hin. by subst p.
Defined.

(** * Votes and counters on the home feed *)

Section feed.
Implicit Types (rows : list Vote) (v : Vote) (u pid newId : string).
Implicit Types (vt : VoteType) (p q : Post) (posts : list Post) (d : DB).

Lemma bump_self du dd p :
  bump du dd p p =
  setDownvotes (post_downvotes p + dd) (setUpvotes (post_upvotes p + du) p).
Proof.
  unfold bump. destruct p. cbn.
  destruct (decide (du = 0)) as [->|], (decide (dd = 0)) as [->|];
    by rewrite ?Z.add_0_r.
Qed.

Ltac solve_delta p pid :=
  split;
  [ f_equal; rewrite bump_self; destruct p;
    unfold setUpvotes, setDownvotes; cbn; f_equal; lia
  | split; [|done];
    cbn [db_posts withPosts withVotes]; unfold posts_update;
    apply fmap_ext_elem; intros q _;
    destruct (decide (post_id q = pid)); [|done];
    unfold bump, setUpvotes, setDownvotes; destruct p, q; cbn;
    f_equal; lia ].

(** [PostFeed.handleVote] in terms of the change it applies. *)
Lemma PostFeed_handleVote_delta u newId pid vt d posts p :
  PostFeed.find pid posts = Some p →
  let e := vote_voteType <$> head (votes_list u pid post 1 (db_votes d)) in
  let w' := PostFeed.handleVote u newId pid vt (d, posts) in
  w'.2 = PostFeed.replacePost pid
           (bump (voteDelta e vt).1 (voteDelta e vt).2 p p) posts ∧
  db_posts w'.1 =
    posts_update pid (bump (voteDelta e vt).1 (voteDelta e vt).2 p)
      (db_posts d) ∧
  db_comments w'.1 = db_comments d.
Proof.
  intros Hf. cbv zeta. unfold PostFeed.handleVote. cbn [fst snd].
  destruct (votes_list u pid post 1 (db_votes d)) as [|v rest];
    cbn [head fmap option_fmap option_map].
  - rewrite Hf. destruct vt; cbn [voteDelta fst snd]; solve_delta p pid.
  - destruct (decide (vote_voteType v = vt)) as [Hv|Hv]; rewrite Hf.
    + rewrite Hv. destruct vt; cbn [voteDelta fst snd]; solve_delta p pid.
    + destruct (vote_voteType v) eqn:Hvt, vt; try done;
        cbn [voteDelta fst snd]; solve_delta p pid.
Qed.

Lemma votes_delete_absent id rows :
  id ∉ vote_id <$> rows → votes_delete id rows = rows.
Proof.
  unfold votes_delete. induction rows as [|x rows IH]; [done|].
  rewrite fmap_cons. intros [Hx Hrows]%not_elem_of_cons.
  rewrite filter_cons_True by done. f_equal. by apply IH.
Qed.

Lemma votes_update_absent id vt rows :
  id ∉ vote_id <$> rows → votes_update id vt rows = rows.
Proof.
  unfold votes_update. induction rows as [|x rows IH]; [done|].
  rewrite !fmap_cons. intros [Hx Hrows]%not_elem_of_cons.
  rewrite decide_False by done. f_equal. by apply IH.
Qed.

Lemma count_cons (P : Vote → Prop) `{!∀ x, Decision (P x)} x rows :
  Z.of_nat (length (filter P (x :: rows))) =
  indicator (P x) + Z.of_nat (length (filter P rows)).
Proof.
  unfold indicator. rewrite filter_cons.
  destruct (decide (P x)); cbn [length]; lia.
Qed.

Lemma count_delete (P : Vote → Prop) `{!∀ x, Decision (P x)} rows v :
  NoDup (vote_id <$> rows) → v ∈ rows →
  Z.of_nat (length (filter P (votes_delete (vote_id v) rows))) =
  Z.of_nat (length (filter P rows)) - indicator (P v).
Proof.
  induction rows as [|x rows IH]; intros Hnd Hv;
    [by apply elem_of_nil in Hv|].
  rewrite fmap_cons in Hnd. apply NoDup_cons in Hnd as [Hx Hnd].
  apply elem_of_cons in Hv as [->|Hv].
  - unfold votes_delete at 1. rewrite filter_cons_False by tauto.
    fold (votes_delete (vote_id x) rows).
    rewrite votes_delete_absent by done. rewrite count_cons. lia.
  - assert (vote_id x ≠ vote_id v) as Hne.
    { intros Heq. apply Hx. rewrite Heq. by apply list_elem_of_fmap_2. }
    unfold votes_delete at 1. rewrite filter_cons_True by done.
    fold (votes_delete (vote_id v) rows). rewrite !count_cons, IH by done. lia.
Qed.

Lemma count_update (P : Vote → Prop) `{!∀ x, Decision (P x)} rows v vt :
  NoDup (vote_id <$> rows) → v ∈ rows →
  Z.of_nat (length (filter P (votes_update (vote_id v) vt rows))) =
  Z.of_nat (length (filter P rows)) - indicator (P v)
    + indicator (P (setVoteType vt v)).
Proof.
  induction rows as [|x rows IH]; intros Hnd Hv;
    [by apply elem_of_nil in Hv|].
  rewrite fmap_cons in Hnd. apply NoDup_cons in Hnd as [Hx Hnd].
  unfold votes_update. rewrite fmap_cons.
  fold (votes_update (vote_id v) vt rows).
  apply elem_of_cons in Hv as [->|Hv].
  - rewrite decide_True by done. rewrite votes_update_absent by done.
    rewrite !count_cons. lia.
  - assert (vote_id x ≠ vote_id v) as Hne.
    { intros Heq. apply Hx. rewrite Heq. by apply list_elem_of_fmap_2. }
    rewrite decide_False by done. rewrite !count_cons, IH by done. lia.
Qed.

Lemma count_create (P : Vote → Prop) `{!∀ x, Decision (P x)} rows x :
  Z.of_nat (length (filter P (votes_create x rows))) =
  Z.of_nat (length (filter P rows)) + indicator (P x).
Proof.
  unfold votes_create, indicator. rewrite filter_app, length_app, filter_cons.
  destruct (decide (P x)); cbn [length filter]; rewrite ?filter_nil;
    cbn [length]; lia.
Qed.

(** How a submission from the feed changes the number of votes of each
    direction on each post. *)
Lemma countVotes_voteRows u newId pid vt rows pid' vt' :
  NoDup (vote_id <$> rows) →
  let e := vote_voteType <$> head (votes_list u pid post 1 rows) in
  countVotes pid' vt' (voteRows u newId pid post vt rows) =
  countVotes pid' vt' rows +
  if decide (pid' = pid)
  then match vt' with
       | upvote => (voteDelta e vt).1
       | downvote => (voteDelta e vt).2
       end
  else 0.
Proof.
  intros Hnd. cbv zeta. unfold countVotes, voteRows.
  destruct (votes_list u pid post 1 rows) as [|v rest] eqn:Hl;
    cbn [head fmap option_fmap option_map].
  - rewrite count_create. unfold indicator.
    repeat case_decide; unfold countsFor in *; cbn in *;
      destruct vt, vt'; cbn; try lia; exfalso; naive_solver.
  - apply votes_list_first in Hl as [Hv (Hu & Ht & Htt)].
    destruct (decide (vote_voteType v = vt)) as [Hvt|Hvt].
    + rewrite count_delete by done. unfold indicator.
      repeat case_decide; unfold countsFor in *; cbn in *;
        destruct (vote_voteType v) eqn:Hty, vt, vt'; cbn; try lia;
        exfalso; naive_solver.
    + rewrite count_update by done. unfold indicator.
      repeat case_decide; unfold countsFor in *; cbn in *;
        destruct (vote_voteType v) eqn:Hty, vt, vt'; cbn; try lia;
        exfalso; naive_solver.
Qed.

Lemma PostFeed_find_Some pid posts :
  pid ∈ post_id <$> posts →
  ∃ p, PostFeed.find pid posts = Some p ∧ post_id p = pid ∧ p ∈ posts.
Proof.
  unfold PostFeed.find. intros (q & -> & Hq)%list_elem_of_fmap.
  destruct (filter (λ p, post_id p = post_id q) posts) as [|p l] eqn:Hf.
  - exfalso. eapply filter_nil_not_elem_of; [exact Hf| |exact Hq]. done.
  - exists p. assert (p ∈ filter (λ p, post_id p = post_id q) posts) as Hp
      by (rewrite Hf; left).
    by apply list_elem_of_filter in Hp as [? ?].
Qed.

Lemma PostFeed_find_elem pid posts p :
  PostFeed.find pid posts = Some p → post_id p = pid ∧ p ∈ posts.
Proof.
  unfold PostFeed.find. intros Hf.
  destruct (filter (λ p, post_id p = pid) posts) as [|p' l] eqn:Hl; [done|].
  injection Hf as ->.
  assert (p ∈ filter (λ p, post_id p = pid) posts) as Hp
    by (rewrite Hl; left).
  by apply list_elem_of_filter in Hp as [? ?].
Qed.

Lemma voteRows_ids u newId pid tt vt rows :
  NoDup (vote_id <$> rows) → newId ∉ vote_id <$> rows →
  NoDup (vote_id <$> voteRows u newId pid tt vt rows).
Proof.
  intros Hnd Hfresh. unfold voteRows.
  destruct (votes_list u pid tt 1 rows) as [|v rest].
  - unfold votes_create. rewrite fmap_app. apply NoDup_app.
    split; [done|]. split; [|apply NoDup_singleton].
    intros k Hk Hk'. apply list_elem_of_singleton in Hk'. by subst k.
  - destruct (decide (vote_voteType v = vt)).
    + eapply sublist_NoDup; [exact Hnd|].
      apply fmap_sublist, sublist_filter.
    + unfold votes_update. rewrite <- list_fmap_compose.
      erewrite fmap_ext_elem; [exact Hnd|].
      intros x _. simpl. by destruct (decide (vote_id x = vote_id v)).
Qed.

Lemma head_take_1 {A} (l : list A) : head (take 1 l) = head l.
Proof. by destruct l. Qed.
End feed.

(** X14: on the home feed the counters follow the votes.  If the vote rows
    have distinct identifiers, the generated identifier is new, the post is
    on the page, and the counters of every stored post and of every post on
    the page equal the numbers of upvote and downvote rows on it, then all
    of this still holds after a vote. *)
Theorem PostFeed_keeps_tally (u newId pid : string) (vt : VoteType) (d : DB)
    (posts : list Post) :
  NoDup (vote_id <$> db_votes d) → newId ∉ vote_id <$> db_votes d →
  pid ∈ post_id <$> posts →
  (∀ q, q ∈ db_posts d → tallied (db_votes d) q) →
  (∀ q, q ∈ posts → tallied (db_votes d) q) →
  let w' := PostFeed.handleVote u newId pid vt (d, posts) in
  NoDup (vote_id <$> db_votes w'.1) ∧
  (∀ q, q ∈ db_posts w'.1 → tallied (db_votes w'.1) q) ∧
  (∀ q, q ∈ w'.2 → tallied (db_votes w'.1) q).
Proof.
  intros Hnd Hfresh Hpid Hdb Hpage. cbv zeta.
  destruct (PostFeed_find_Some pid posts Hpid) as (p & Hf & Hp & Hin).
  destruct (PostFeed_handleVote_delta u newId pid vt d posts p Hf)
    as (Hposts & Hrows & _).
  rewrite Hposts, Hrows, PostFeed_votes. cbn [fst].
  set (e := vote_voteType <$> head (votes_list u pid post 1 (db_votes d))).
  set (du := (voteDelta e vt).1). set (dd := (voteDelta e vt).2).
  assert (∀ q q0, tallied (db_votes d) q0 →
            q = (if decide (post_id q0 = pid) then bump du dd p q0 else q0) →
            tallied (voteRows u newId pid post vt (db_votes d)) q) as Hstep.
  { intros q q0 [Hup Hdown] ->. destruct (Hpage p Hin) as [Hpup Hpdown].
    rewrite Hp in Hpup, Hpdown. unfold tallied.
    destruct (decide (post_id q0 = pid)) as [Hq0|Hq0].
    - assert (post_id (bump du dd p q0) = pid) as -> by by destruct q0.
      rewrite Hq0 in Hup, Hdown.
      rewrite !(countVotes_voteRows u newId pid vt (db_votes d) pid) by done.
      rewrite !decide_True by done. fold e du dd.
      unfold bump, setUpvotes, setDownvotes.
      cbn [post_upvotes post_downvotes].
      destruct (decide (du = 0)), (decide (dd = 0)); lia.
    - rewrite !(countVotes_voteRows u newId pid vt (db_votes d) (post_id q0))
        by done.
      rewrite !decide_False by done. lia. }
  split; [by apply voteRows_ids|]. split.
  - unfold posts_update. intros q (q0 & -> & Hq0)%list_elem_of_fmap.
    by eapply Hstep; [apply Hdb|].
  - unfold PostFeed.replacePost. intros q (q0 & -> & Hq0)%list_elem_of_fmap.
    destruct (decide (post_id q0 = pid)) as [Hid|Hid].
    + eapply (Hstep _ p); [by apply Hpage|]. by rewrite decide_True.
    + eapply (Hstep _ q0); [by apply Hpage|]. by rewrite decide_False.
Qed.

Lemma PostFeed_keeps_tally_witness :
  let w' := PostFeed.handleVote "u2" "v2" "p1" downvote (dbF, [postF]) in
  NoDup (vote_id <$> db_votes w'.1) ∧
  (∀ q, q ∈ db_posts w'.1 → tallied (db_votes w'.1) q) ∧
  (∀ q, q ∈ w'.2 → tallied (db_votes w'.1) q).
Proof.
  apply (PostFeed_keeps_tally "u2" "v2" "p1" downvote dbF [postF]).
  - by_compute.
  - by_compute.
  - by_compute.
  - intros q Hq. assert (q ∈ [postF]) as Hin by exact Hq.
    apply list_elem_of_singleton in Hin. subst q. by vm_compute.
  - intros q Hq. apply list_elem_of_singleton in Hq. subst q. by vm_compute.
Defined.

(** X15: a vote on the home feed moves the score of the post on the page
    by +1 or -1 when the user had no vote, by -1 or +1 when the click takes
    the vote back, and by +2 or -2 when it turns the vote around; the
    comments in the store are not touched. *)
Theorem PostFeed_score_change (u newId pid : string) (vt : VoteType) (d : DB)
    (posts : list Post) (p : Post) :
  PostFeed.find pid posts = Some p →
  let w' := PostFeed.handleVote u newId pid vt (d, posts) in
  ∃ p', PostFeed.find pid w'.2 = Some p' ∧
        PostCard.getVoteScore p' =
          PostCard.getVoteScore p +
          match userVoteOf u pid (db_votes d), vt with
          | None, upvote => 1
          | None, downvote => -1
          | Some upvote, upvote => -1
          | Some downvote, downvote => 1
          | Some downvote, upvote => 2
          | Some upvote, downvote => -2
          end ∧
        db_comments w'.1 = db_comments d.
Proof.
  intros Hf. cbv zeta.
  destruct (PostFeed_handleVote_delta u newId pid vt d posts p Hf)
    as (Hposts & _ & Hcs).
  destruct (PostFeed_find_elem _ _ _ Hf) as [Hid _].
  rewrite Hposts. eexists. split.
  { eapply PostFeed_find_replace; [exact Hf|]. by destruct p. }
  split; [|done]. unfold votes_list. rewrite head_take_1.
  fold (userVoteOf u pid (db_votes d)).
  rewrite bump_self. unfold PostCard.getVoteScore, setUpvotes, setDownvotes.
  cbn [post_upvotes post_downvotes].
  destruct (userVoteOf u pid (db_votes d)) as [[]|], vt; cbn; lia.
Qed.

Lemma PostFeed_score_change_witness :
  let w' := PostFeed.handleVote "u1" "v2" "p1" downvote (dbF, [postF]) in
  ∃ p', PostFeed.find "p1" w'.2 = Some p' ∧
        PostCard.getVoteScore p' =
          PostCard.getVoteScore postF +
          match userVoteOf "u1" "p1" (db_votes dbF), downvote with
          | None, upvote => 1
          | None, downvote => -1
          | Some upvote, upvote => -1
          | Some downvote, downvote => 1
          | Some downvote, upvote => 2
          | Some upvote, downvote => -2
          end ∧
        db_comments w'.1 = db_comments dbF.
Proof.
  apply (PostFeed_score_change "u1" "v2" "p1" downvote dbF [postF] postF).
  reflexivity.
Defined.

Section feed_round_trip.
Implicit Types (rows : list Vote) (v : Vote) (u pid : string).
Implicit Types (vt : VoteType) (p q : Post) (posts : list Post) (d : DB).

Lemma DB_eta d : d = mkDB (db_votes d) (db_comments d) (db_posts d).
Proof. by destruct d. Qed.

Lemma voteRows_twice u id1 id2 pid tt vt rows :
  (∀ v, v ∈ rows → ¬ voteMatches u pid tt v) → id1 ∉ vote_id <$> rows →
  voteRows u id2 pid tt vt (voteRows u id1 pid tt vt rows) = rows.
Proof.
  intros Hnone Hfresh. apply matches_none in Hnone.
  unfold voteRows at 2. unfold votes_list. rewrite Hnone. cbn [take].
  unfold voteRows, votes_list, votes_create.
  rewrite filter_app, Hnone, filter_cons_True by done.
  cbn [app filter take list_filter vote_voteType vote_id].
  rewrite decide_True by done.
  unfold votes_delete. rewrite filter_app, filter_cons_False, filter_nil,
    app_nil_r by (cbn; tauto).
  fold (votes_delete id1 rows). by apply votes_delete_absent.
Qed.

Lemma voteRows_first u id1 pid tt vt rows :
  (∀ v, v ∈ rows → ¬ voteMatches u pid tt v) →
  head (votes_list u pid tt 1 rows) = None ∧
  vote_voteType <$>
    head (votes_list u pid tt 1 (voteRows u id1 pid tt vt rows)) = Some vt.
Proof.
  intros Hnone. apply matches_none in Hnone.
  unfold voteRows, votes_list. rewrite Hnone. cbn [take]. split; [done|].
  unfold votes_create. by rewrite filter_app, Hnone, filter_cons_True.
Qed.

Lemma bump_back vt p q :
  post_upvotes q = post_upvotes p → post_downvotes q = post_downvotes p →
  bump (voteDelta (Some vt) vt).1 (voteDelta (Some vt) vt).2
    (bump (voteDelta None vt).1 (voteDelta None vt).2 p p)
    (bump (voteDelta None vt).1 (voteDelta None vt).2 p q) = q.
Proof.
  destruct p, q. cbn [post_upvotes post_downvotes]. intros -> ->.
  destruct vt; unfold bump, voteDelta, setUpvotes, setDownvotes;
    cbn [fst snd post_id post_title post_authorId post_communityId
         post_upvotes post_downvotes post_commentCount post_createdAt];
    repeat case_decide; try lia; f_equal; lia.
Qed.

Lemma replacePost_twice pid p p1 posts :
  NoDup (post_id <$> posts) → p ∈ posts → post_id p = pid →
  post_id p1 = pid →
  PostFeed.replacePost pid p (PostFeed.replacePost pid p1 posts) = posts.
Proof.
  intros Hnd Hin Hp Hp1. unfold PostFeed.replacePost.
  rewrite <- list_fmap_compose. rewrite <- (list_fmap_id posts) at 2.
  apply fmap_ext_elem. intros q Hq. cbn.
  destruct (decide (post_id q = pid)) as [Hid|Hid].
  - rewrite decide_True by done.
    eapply NoDup_fmap_elem_inj; [exact Hnd|done..|]. by rewrite Hp, Hid.
  - by rewrite decide_False.
Qed.
End feed_round_trip.

(** X16: on the home feed a second click on the same arrow undoes the
    first.  If the user had no vote on the post, the first generated
    identifier is new, post identifiers on the page are distinct and the
    stored counters of the post equal those of the page's copy, then voting
    twice in the same direction gives back the store and the page. *)
Theorem PostFeed_vote_twice_restores (u id1 id2 pid : string) (vt : VoteType)
    (d : DB) (posts : list Post) (p : Post) :
  (∀ v, v ∈ db_votes d → ¬ voteMatches u pid post v) →
  id1 ∉ vote_id <$> db_votes d →
  PostFeed.find pid posts = Some p → NoDup (post_id <$> posts) →
  (∀ q, q ∈ db_posts d → post_id q = pid →
        post_upvotes q = post_upvotes p ∧
        post_downvotes q = post_downvotes p) →
  PostFeed.handleVote u id2 pid vt
    (PostFeed.handleVote u id1 pid vt (d, posts)) = (d, posts).
Proof.
  intros Hnone Hfresh Hf Hnd Hsync.
  destruct (PostFeed_find_elem _ _ _ Hf) as [Hid Hin].
  destruct (voteRows_first u id1 pid post vt (db_votes d) Hnone)
    as [He1 He2].
  destruct (PostFeed_handleVote_delta u id1 pid vt d posts p Hf)
    as (Hposts1 & Hrows1 & Hcs1).
  pose proof (PostFeed_votes u id1 pid vt (d, posts)) as Hvotes1.
  rewrite He1 in Hposts1, Hrows1. cbn [fmap option_fmap option_map] in *.
  set (w1 := PostFeed.handleVote u id1 pid vt (d, posts)) in *.
  set (p1 := bump (voteDelta None vt).1 (voteDelta None vt).2 p p) in *.
  assert (post_id p1 = pid) as Hp1 by by destruct p.
  assert (PostFeed.find pid w1.2 = Some p1) as Hf1.
  { rewrite Hposts1. by eapply PostFeed_find_replace. }
  destruct (PostFeed_handleVote_delta u id2 pid vt w1.1 w1.2 p1 Hf1)
    as (Hposts2 & Hrows2 & Hcs2).
  pose proof (PostFeed_votes u id2 pid vt (w1.1, w1.2)) as Hvotes2.
  cbn [fst] in Hvotes1, Hvotes2. rewrite Hvotes1 in Hvotes2, Hposts2, Hrows2.
  rewrite He2 in Hposts2, Hrows2.
  replace (w1.1, w1.2) with w1 in * by by destruct w1.
  destruct (PostFeed.handleVote u id2 pid vt w1) as [d2 posts2].
  cbn [fst snd] in *. f_equal.
  - rewrite (DB_eta d2), (DB_eta d). f_equal.
    + rewrite Hvotes2. by apply voteRows_twice.
    + by rewrite Hcs2, Hcs1.
    + rewrite Hrows2, Hrows1. unfold posts_update.
      rewrite <- list_fmap_compose. rewrite <- (list_fmap_id (db_posts d)) at 2.
      apply fmap_ext_elem. intros q Hq. cbn.
      destruct (decide (post_id q = pid)) as [Hq'|Hq'].
      * rewrite decide_True by by destruct q.
        destruct (Hsync q Hq Hq') as [Hup Hdown]. by apply bump_back.
      * by rewrite decide_False.
  - rewrite Hposts2, Hposts1.
    assert (bump (voteDelta (Some vt) vt).1 (voteDelta (Some vt) vt).2 p1 p1
            = p) as ->.
    { by apply bump_back. }
    by apply replacePost_twice.
Qed.

Lemma PostFeed_vote_twice_restores_witness :
  PostFeed.handleVote "u2" "v3" "p1" upvote
    (PostFeed.handleVote "u2" "v2" "p1" upvote (dbF, [postF]))
  = (dbF, [postF]).
Proof.
  apply (PostFeed_vote_twice_restores "u2" "v2" "v3" "p1" upvote dbF [postF]
           postF).
  - apply matches_none. by vm_compute.
  - by_compute.
  - reflexivity.
  - by_compute.
  - intros q Hq Hid. assert (q ∈ [postF]) as Hin by exact Hq.
    apply list_elem_of_singleton in Hin. by subst q.
Defined.

Section highlight.
Implicit Types (rows : list Vote) (v : Vote) (u pid : string).

Lemma matches_at_most_one rows u pid tt :
  oneVotePerTarget rows →
  filter (voteMatches u pid tt) rows = [] ∨
  ∃ v, v ∈ rows ∧ voteMatches u pid tt v ∧
       filter (voteMatches u pid tt) rows = [v].
Proof.
  intros Hone.
  destruct (filter (voteMatches u pid tt) rows) as [|v l] eqn:Hf; [by left|].
  right. exists v.
  assert (v ∈ filter (voteMatches u pid tt) rows) as Hv by (rewrite Hf; left).
  apply list_elem_of_filter in Hv as [Hm Hin].
  rewrite <- Hf. split; [done|]. split; [done|]. by apply matches_unique.
Qed.

Lemma filter_fmap_preserved {A} (P : A → Prop) `{!∀ x, Decision (P x)}
    (f : A → A) (l : list A) :
  (∀ x, P (f x) ↔ P x) → filter P (f <$> l) = f <$> filter P l.
Proof.
  intros Hf. induction l as [|x l IH]; [done|].
  rewrite fmap_cons, !filter_cons, IH.
  destruct (decide (P (f x))) as [H1|H1], (decide (P x)) as [H2|H2];
    try done; exfalso; [apply H2|apply H1]; by apply Hf.
Qed.
End highlight.

(** X17: the highlight of a post card on the home feed follows the vote
    rows.  If the user has at most one vote per target and the highlight
    shows the direction of the user's vote on the post (none if there is
    none), it still does after a click on either arrow. *)
Theorem PostCard_highlight_agrees (u newId : string) (p : Post)
    (vt : VoteType) (d : DB) (posts : list Post)
    (userVote : option VoteType) :
  oneVotePerTarget (db_votes d) →
  userVote = userVoteOf u (post_id p) (db_votes d) →
  let r := PostCard.handleVote (PostFeed.handleVote u newId) p vt
             ((d, posts), userVote) in
  r.2 = userVoteOf u (post_id p) (db_votes r.1.1).
Proof.
  intros Hone ->. cbv zeta. unfold PostCard.handleVote. cbn [fst snd].
  rewrite PostFeed_votes. cbn [fst]. unfold userVoteOf, voteRows, votes_list.
  destruct (matches_at_most_one (db_votes d) u (post_id p) post Hone)
    as [Hnil|(v & Hv & Hm & Hf)].
  - rewrite Hnil. cbn [take head fmap option_fmap option_map].
    rewrite decide_False by done. unfold votes_create.
    by rewrite filter_app, Hnil, filter_cons_True.
  - rewrite Hf. cbn [take head fmap option_fmap option_map].
    destruct (decide (vote_voteType v = vt)) as [Hvt|Hvt].
    + rewrite decide_True by by rewrite Hvt.
      unfold votes_delete. rewrite list_filter_filter.
      rewrite (list_filter_iff _ (λ x, vote_id x ≠ vote_id v ∧
                                   voteMatches u (post_id p) post x))
        by (intros x; tauto).
      rewrite <- list_filter_filter, Hf, filter_cons_False by tauto. done.
    + rewrite decide_False by congruence.
      unfold votes_update. rewrite filter_fmap_preserved.
      * rewrite Hf. cbn. by rewrite decide_True.
      * intros x. destruct (decide (vote_id x = vote_id v)); [|done].
        by destruct x.
Qed.

Lemma PostCard_highlight_agrees_witness :
  let r := PostCard.handleVote (PostFeed.handleVote "u1" "v2") postF upvote
             ((dbF, [postF]), Some upvote) in
  r.2 = userVoteOf "u1" (post_id postF) (db_votes r.1.1).
Proof.
  apply (PostCard_highlight_agrees "u1" "v2" postF upvote dbF [postF]
           (Some upvote)).
  - unfold oneVotePerTarget. by_compute.
  - reflexivity.
Defined.

(** * Loading the home feed *)

Section feed_load.
Import PostFeedLoad.

Global Instance orderBy_total sortBy : Total (orderBy sortBy).
Proof.
  intros a b. destruct sortBy; unfold orderBy, byUpvotesDesc, byCreatedAtDesc.
  - lia.
  - destruct (String.le_total (post_createdAt a) (post_createdAt b)); auto.
  - lia.
Qed.

Global Instance orderBy_trans sortBy : Transitive (orderBy sortBy).
Proof.
  intros a b c. destruct sortBy; unfold orderBy, byUpvotesDesc, byCreatedAtDesc.
  - lia.
  - intros H1 H2. by apply (transitivity (R := String.le) H2 H1).
  - lia.
Qed.
End feed_load.

(** X18: the home feed shows at most 20 posts, in the requested order, and
    they are the first in that order: every stored post that is left out
    comes no earlier than every post shown.  The tabs Hot and Top show the
    same posts. *)
Theorem loadPosts_first_twenty (sortBy : PostFeedLoad.SortBy) (d : DB) :
  let shown := PostFeedLoad.loadPosts sortBy d in
  length shown = (20 `min` length (db_posts d))%nat ∧
  StronglySorted (PostFeedLoad.orderBy sortBy) shown ∧
  (∃ rest, shown ++ rest ≡ₚ db_posts d ∧
           ∀ x y, x ∈ shown → y ∈ rest → PostFeedLoad.orderBy sortBy x y) ∧
  PostFeedLoad.loadPosts PostFeedLoad.hot d =
    PostFeedLoad.loadPosts PostFeedLoad.top d.
Proof.
  cbv zeta. unfold PostFeedLoad.loadPosts, PostFeedLoad.posts_listOrdered.
  set (R := PostFeedLoad.orderBy sortBy).
  set (l := merge_sort R (db_posts d)).
  assert (StronglySorted R l) as Hs
    by (apply StronglySorted_merge_sort; apply _).
  assert (l ≡ₚ db_posts d) as Hp by apply merge_sort_Permutation.
  rewrite <- (take_drop 20 l) in Hs.
  apply StronglySorted_app in Hs as (Hcross & Hshown & _).
  split; [by rewrite length_take, Hp|]. split; [done|]. split; [|done].
  exists (drop 20 l). split; [by rewrite take_drop|done].
Qed.

(** * The comment counter *)

(** X19: the first top-level comment after the page has loaded, with a
    well-formed text that is not white space only, raises the stored
    comment count of the post by exactly one and leaves every other post as
    it is, when post identifiers in the store are distinct. *)
Theorem first_comment_increments_count (postId u newId now text : string)
    (d : DB) (st : PostDetail.State) (p : Post) :
  NoDup (post_id <$> db_posts d) → p ∈ db_posts d → post_id p = postId →
  wellFormed text = true → trim text ≠ "" →
  let st1 := typeComment text (PostDetail.loadPostAndComments postId d st) in
  let w' := PostDetail.handleSubmitComment postId u newId now (d, st1) in
  db_posts w'.1 =
    (λ q, if decide (q = p)
          then setCommentCount (post_commentCount p + 1) p else q)
      <$> db_posts d ∧
  setCommentCount (post_commentCount p + 1) p ∈ db_posts w'.1 ∧
  length (db_comments w'.1) = S (length (db_comments d)).
Proof.
  intros Hnd Hin Hid _ Htext. cbv zeta.
  destruct (proj2 (loadPostAndComments_found postId d st) p Hin Hid)
    as (p' & Hpost & Hin' & Hid' & _).
  assert (p' = p) as ->.
  { eapply NoDup_fmap_elem_inj; [exact Hnd|done..|]. by rewrite Hid. }
  set (st1 := typeComment text (PostDetail.loadPostAndComments postId d st)).
  assert (trim (PostDetail.st_newComment st1) ≠ "") as Hne by done.
  destruct (handleSubmitComment_result postId u newId now d st1 Hne)
    as (d2 & Heq & Hcs & _ & Hps).
  rewrite Heq. cbn [fst]. rewrite Hcs, Hps.
  assert (PostDetail.st_post st1 = Some p) as -> by exact Hpost.
  assert (posts_update postId (setCommentCount (post_commentCount p + 1))
            (db_posts d) =
          (λ q, if decide (q = p)
                then setCommentCount (post_commentCount p + 1) p else q)
            <$> db_posts d) as ->.
  { unfold posts_update. apply fmap_ext_elem. intros q Hq.
    destruct (decide (post_id q = postId)) as [Hq'|Hq'].
    - assert (q = p) as -> by
        (eapply NoDup_fmap_elem_inj; [exact Hnd|done..|]; by rewrite Hid).
      by rewrite decide_True.
    - rewrite decide_False; [done|]. intros ->. by apply Hq'. }
  split; [done|]. split.
  - apply list_elem_of_fmap. exists p. by rewrite decide_True.
  - rewrite length_app. cbn. lia.
Qed.

Lemma first_comment_increments_count_witness :
  let st1 := typeComment "hi"
               (PostDetail.loadPostAndComments "p1" db1 initState) in
  let w' := PostDetail.handleSubmitComment "p1" "u1" "c9" "t9" (db1, st1) in
  db_posts w'.1 =
    (λ q, if decide (q = post1)
          then setCommentCount (post_commentCount post1 + 1) post1 else q)
      <$> db_posts db1 ∧
  setCommentCount (post_commentCount post1 + 1) post1 ∈ db_posts w'.1 ∧
  length (db_comments w'.1) = S (length (db_comments db1)).
Proof.
  apply (first_comment_increments_count "p1" "u1" "c9" "t9" "hi" db1
           initState post1).
  - by_compute.
  - by_compute.
  - reflexivity.
  - reflexivity.
  - vm_compute. discriminate.
Defined.

(** * Notifications *)

Section notifications.
Implicit Types (ns rows : list Notification) (n : Notification) (id : string).

Lemma markReadAt_id id n :
  notification_id (markReadAt id n) = notification_id n.
Proof. unfold markReadAt. by destruct (decide (notification_id n = id)). Qed.

Lemma unread_mark_absent id ns :
  id ∉ notification_id <$> ns → markReadAt id <$> ns = ns.
Proof.
  induction ns as [|x ns IH]; [done|]. rewrite !fmap_cons.
  intros [Hx Hns]%not_elem_of_cons. unfold markReadAt at 1.
  rewrite decide_False by done. f_equal. by apply IH.
Qed.

Lemma unread_mark ns n :
  NoDup (notification_id <$> ns) → n ∈ ns → notification_isRead n = false →
  Z.of_nat (length (unread (markReadAt (notification_id n) <$> ns))) =
  Z.of_nat (length (unread ns)) - 1.
Proof.
  unfold unread. induction ns as [|x ns IH]; intros Hnd Hn Hun;
    [by apply elem_of_nil in Hn|].
  rewrite fmap_cons in Hnd. apply NoDup_cons in Hnd as [Hx Hnd].
  rewrite fmap_cons. apply elem_of_cons in Hn as [->|Hn].
  - rewrite unread_mark_absent by done. unfold markReadAt.
    rewrite decide_True by done.
    rewrite filter_cons_False by done. rewrite filter_cons_True by done.
    cbn [length]. lia.
  - assert (notification_id x ≠ notification_id n) as Hne.
    { intros Heq. apply Hx. rewrite Heq. by apply list_elem_of_fmap_2. }
    unfold markReadAt at 1. rewrite decide_False by done.
    rewrite !filter_cons. destruct (decide (notification_isRead x = false)).
    + cbn [length]. rewrite !Nat2Z.inj_succ, IH by done. lia.
    + by apply IH.
Qed.

Lemma markReadIn_cons n0 (us : list Notification) x :
  markReadIn (notification_id <$> us) (markReadAt (notification_id n0) x) =
  markReadIn (notification_id <$> n0 :: us) x.
Proof.
  unfold markReadIn, markReadAt. rewrite fmap_cons.
  destruct (decide (notification_id x = notification_id n0)) as [Heq|Hne].
  - rewrite (decide_True (P := notification_id x ∈ _ :: _))
      by (rewrite Heq; left).
    by destruct (decide (notification_id (markRead x)
                           ∈ notification_id <$> us)).
  - destruct (decide (notification_id x ∈ notification_id <$> us))
      as [Hin|Hin].
    + rewrite decide_True; [done|by right].
    + rewrite decide_False; [done|].
      intros [?|?]%elem_of_cons; [by apply Hne|by apply Hin].
Qed.

(** The state after [onMarkAsRead] has run for each notification of [us]. *)
Lemma markAll_fold (us : list Notification) rows (inbox : App.Inbox) :
  0 ≤ App.unreadCount inbox →
  let w' := foldl (λ w' n, App.markNotificationAsRead (notification_id n) w')
              (rows, inbox) us in
  w'.1 = markReadIn (notification_id <$> us) <$> rows ∧
  App.notifications w'.2 =
    markReadIn (notification_id <$> us) <$> App.notifications inbox ∧
  App.unreadCount w'.2 =
    Z.max 0 (App.unreadCount inbox - Z.of_nat (length us)).
Proof.
  revert rows inbox. induction us as [|n0 us IH]; intros rows inbox Hc.
  - cbn. split; [|split; [|lia]].
    + rewrite <- (list_fmap_id rows) at 1. by apply fmap_ext_elem.
    + rewrite <- (list_fmap_id (App.notifications inbox)) at 1.
      by apply fmap_ext_elem.
  - cbn [foldl]. unfold App.markNotificationAsRead at 2 4 6. cbn [fst snd].
    set (inbox1 := App.mkInbox _ _).
    destruct (IH (notifications_update (notification_id n0) rows) inbox1)
      as (Hrows & Hns & Hcount); [cbn; lia|].
    cbv zeta in *. rewrite Hrows, Hns, Hcount. cbn [App.notifications
      App.unreadCount inbox1]. unfold notifications_update.
    rewrite <- !list_fmap_compose. split; [|split].
    + apply fmap_ext_elem. intros x _. apply markReadIn_cons.
    + apply fmap_ext_elem. intros x _. apply markReadIn_cons.
    + cbn [length]. lia.
Qed.

Lemma markAll_store (us : list Notification) rows :
  foldl (λ rows n, notifications_update (notification_id n) rows) rows us =
  markReadIn (notification_id <$> us) <$> rows.
Proof.
  revert rows. induction us as [|n0 us IH]; intros rows.
  - cbn. rewrite <- (list_fmap_id rows) at 1. by apply fmap_ext_elem.
  - cbn [foldl]. rewrite IH. unfold notifications_update.
    rewrite <- list_fmap_compose. apply fmap_ext_elem. intros x _.
    apply markReadIn_cons.
Qed.
End notifications.

(** X20: marking an unread notification of the list as read keeps the
    number on the bell equal to the number of unread notifications, when the
    notifications on the page have distinct identifiers; the notification
    is read afterwards and the others are as they were. *)
Theorem markNotificationAsRead_keeps_badge (rows : list Notification)
    (inbox : App.Inbox) (n : Notification) :
  NoDup (notification_id <$> App.notifications inbox) →
  n ∈ App.notifications inbox → notification_isRead n = false →
  App.unreadCount inbox
    = Z.of_nat (length (unread (App.notifications inbox))) →
  let w' := App.markNotificationAsRead (notification_id n) (rows, inbox) in
  App.unreadCount w'.2
    = Z.of_nat (length (unread (App.notifications w'.2))) ∧
  App.notifications w'.2 =
    (λ x, if decide (x = n) then markRead n else x)
      <$> App.notifications inbox ∧
  (∀ r, r ∈ w'.1 → notification_id r = notification_id n →
        notification_isRead r = true).
Proof.
  intros Hnd Hn Hun Hc. cbv zeta. unfold App.markNotificationAsRead.
  cbn [fst snd App.notifications App.unreadCount]. split; [|split].
  - rewrite unread_mark by done. rewrite Hc.
    assert (n ∈ unread (App.notifications inbox)) as Hin
      by by apply list_elem_of_filter.
    destruct (unread (App.notifications inbox)); [by apply elem_of_nil in Hin|].
    cbn [length]. lia.
  - apply fmap_ext_elem. intros x Hx. unfold markReadAt.
    destruct (decide (notification_id x = notification_id n)) as [Heq|Hne].
    + assert (x = n) as -> by by eapply NoDup_fmap_elem_inj.
      by rewrite decide_True.
    + rewrite decide_False; [done|congruence].
  - unfold notifications_update. intros r (x & -> & Hx)%list_elem_of_fmap.
    rewrite markReadAt_id. intros Hid. unfold markReadAt.
    by rewrite decide_True.
Qed.

Lemma markNotificationAsRead_keeps_badge_witness :
  let inbox := App.mkInbox [note1; note2] 1 in
  let w' := App.markNotificationAsRead (notification_id note1)
              ([note1; note2], inbox) in
  App.unreadCount w'.2
    = Z.of_nat (length (unread (App.notifications w'.2))) ∧
  App.notifications w'.2 =
    (λ x, if decide (x = note1) then markRead note1 else x)
      <$> App.notifications inbox ∧
  (∀ r, r ∈ w'.1 → notification_id r = notification_id note1 →
        notification_isRead r = true).
Proof.
  apply (markNotificationAsRead_keeps_badge [note1; note2]
           (App.mkInbox [note1; note2] 1) note1).
  - by_compute.
  - by_compute.
  - reflexivity.
  - reflexivity.
Defined.

(** X21: after "Mark All Read", started with the number on the bell equal
    to the number of unread notifications, every notification on the page
    is read, the number on the bell is 0, the list has the same
    notifications in the same order, and every stored row of a notification
    that was unread on the page is read. *)
Theorem markAllAsRead_clears (rows : list Notification) (inbox : App.Inbox) :
  App.unreadCount inbox
    = Z.of_nat (length (unread (App.notifications inbox))) →
  let w' := NotificationCenter.markAllAsRead (rows, inbox) in
  Forall (λ n, notification_isRead n = true) (App.notifications w'.2) ∧
  App.unreadCount w'.2 = 0 ∧
  notification_id <$> App.notifications w'.2 =
    notification_id <$> App.notifications inbox ∧
  (∀ r, r ∈ w'.1 →
        notification_id r
          ∈ notification_id <$> unread (App.notifications inbox) →
        notification_isRead r = true).
Proof.
  intros Hc. cbv zeta. unfold NotificationCenter.markAllAsRead. cbn [fst snd].
  set (us := unread (App.notifications inbox)) in *.
  rewrite markAll_store.
  destruct (markAll_fold us (markReadIn (notification_id <$> us) <$> rows)
              inbox ltac:(lia)) as (Hrows & Hns & Hcount).
  cbv zeta in *. rewrite Hrows, Hns, Hcount. split; [|split; [|split]].
  - apply Forall_forall. intros x (y & -> & Hy)%list_elem_of_fmap.
    unfold markReadIn.
    destruct (decide (notification_id y ∈ notification_id <$> us)) as [|Hnot];
      [done|].
    destruct (notification_isRead y) eqn:Hread; [done|]. exfalso.
    apply Hnot. apply list_elem_of_fmap_2. by apply list_elem_of_filter.
  - lia.
  - rewrite <- list_fmap_compose. apply fmap_ext_elem. intros x _. cbn.
    unfold markReadIn. by destruct (decide (_ ∈ _)).
  - rewrite <- list_fmap_compose.
    intros r (x & -> & Hx)%list_elem_of_fmap. cbn.
    assert (∀ y, notification_id (markReadIn (notification_id <$> us) y)
                 = notification_id y) as Hid.
    { intros y. unfold markReadIn. by destruct (decide (_ ∈ _)). }
    rewrite !Hid. intros Hin. unfold markReadIn at 1.
    rewrite decide_True; [done|]. by rewrite Hid.
Qed.

Lemma markAllAsRead_clears_witness :
  let inbox := App.mkInbox [note1; note2] 1 in
  let w' := NotificationCenter.markAllAsRead ([note1; note2], inbox) in
  Forall (λ n, notification_isRead n = true) (App.notifications w'.2) ∧
  App.unreadCount w'.2 = 0 ∧
  notification_id <$> App.notifications w'.2 =
    notification_id <$> App.notifications inbox ∧
  (∀ r, r ∈ w'.1 →
        notification_id r
          ∈ notification_id <$> unread (App.notifications inbox) →
        notification_isRead r = true).
Proof.
  apply (markAllAsRead_clears [note1; note2] (App.mkInbox [note1; note2] 1)).
  reflexivity.
Defined.

(** * The trending list, on every input *)

Section trending_list.
Implicit Types (f : nat → Post → float) (l : list Post).

Lemma fmap_imap_post f l :
  TrendingLoad.tp_post <$>
    imap (λ i p, TrendingLoad.mkTrendingPost p (f i p)) l = l.
Proof.
  revert f. induction l as [|p l IH]; intros f; [done|].
  cbn [imap fmap list_fmap]. f_equal. apply IH.
Qed.

Lemma elem_of_imap_score f l tp :
  tp ∈ imap (λ i p, TrendingLoad.mkTrendingPost p (f i p)) l →
  ∃ i, l !! i = Some (TrendingLoad.tp_post tp) ∧
       TrendingLoad.tp_trendingScore tp = f i (TrendingLoad.tp_post tp).
Proof.
  intros (i & p & -> & Hp)%elem_of_lookup_imap. by exists i.
Qed.
End trending_list.

(** X22: whatever the store, the clock and the cutoff, the trending page
    shows at most 20 entries; they are posts of the store, none more often
    than the store holds it; every one is stamped at or after the cutoff and
    carries the score (upvotes - downvotes) / (hoursOld + 2)^1.5 computed
    from a reading of the clock. *)
Theorem trending_list_inside_cutoff (Math_pow : float → float → float)
    (Date_getTime : string → float) (dateNow : nat → float)
    (timeframeCutoff : float) (d : DB) :
  let shown :=
    TrendingLoad.loadTrendingContent Math_pow Date_getTime dateNow
      timeframeCutoff d in
  (length shown ≤ 20)%nat ∧
  TrendingLoad.tp_post <$> shown ⊆+ db_posts d ∧
  ∀ tp, tp ∈ shown →
    (timeframeCutoff <=?
       Date_getTime (post_createdAt (TrendingLoad.tp_post tp)))%float = true ∧
    ∃ i, TrendingLoad.tp_trendingScore tp =
           TrendingLoad.trendingScore Math_pow Date_getTime (dateNow i)
             (TrendingLoad.tp_post tp).
Proof.
  intros shown. subst shown.
  unfold TrendingLoad.loadTrendingContent, TrendingLoad.enrichedPosts.
  cbv zeta. set (postsData := PostFeedLoad.posts_listOrdered _ _ _).
  set (enriched := imap _ postsData).
  set (sorted := TrendingLoad.Array_sort _ _).
  assert (sorted ≡ₚ
          filter (TrendingLoad.insideCutoff Date_getTime timeframeCutoff)
            enriched) as Hperm by apply Array_sort_Permutation.
  split; [rewrite length_take; lia|]. split.
  - etrans; [apply sublist_submseteq, fmap_sublist, sublist_take|].
    rewrite Hperm.
    etrans; [apply sublist_submseteq, fmap_sublist, sublist_filter|].
    subst enriched. rewrite fmap_imap_post. subst postsData.
    unfold PostFeedLoad.posts_listOrdered.
    etrans; [apply sublist_submseteq, sublist_take|].
    by rewrite merge_sort_Permutation.
  - intros tp Htp. apply elem_of_take in Htp as (j & Htp & _).
    apply list_elem_of_lookup_2 in Htp. rewrite Hperm in Htp.
    apply list_elem_of_filter in Htp as [Hin Htp]. split; [done|].
    apply elem_of_imap_score in Htp as (i & _ & Hs). by exists i.
Qed.

(** ** The order of the scores

    Subtraction and comparison of binary64 numbers, from their
    specification in the Standard Library: the comparator
    [b.trendingScore - a.trendingScore] is positive exactly when [a] has
    the lower score, as long as neither score is NaN. *)

Section binary64.
Implicit Types (x y z : float) (X Y : spec_float) (m : positive) (e : Z).

Lemma SFltb_zero r : SFltb (S754_zero false) r = SFpos r.
Proof. by destruct r as [[]|[]| |[] ? ?]. Qed.

Lemma digits2_size m : digits2_pos m = Pos.size m.
Proof. induction m as [m IH|m IH|]; cbn; by rewrite ?IH. Qed.

Lemma digits2_bounds m :
  Z.pos m < 2 ^ Z.pos (digits2_pos m) ∧
  2 ^ Z.pos (digits2_pos m) ≤ 2 * Z.pos m.
Proof.
  rewrite digits2_size. split.
  - pose proof (Pos.size_gt m) as H. apply Pos2Z.pos_lt_pos in H.
    by rewrite Pos2Z.inj_pow in H.
  - pose proof (Pos.size_le m) as H. apply Pos2Z.pos_le_pos in H.
    by rewrite Pos2Z.inj_pow in H.
Qed.

(** The sign of a rounded number is the sign it is given. *)
Lemma binary_round_aux_neg mz e l :
  SFpos (binary_round_aux prec emax true mz e l) = false.
Proof.
  unfold binary_round_aux.
  destruct (shr_fexp prec emax mz e l) as [mrs' e'].
  destruct (shr_fexp prec emax _ e' loc_Exact) as [mrs'' e''].
  destruct (shr_m mrs''); [done| |done]. by destruct (_ <=? _).
Qed.

Lemma binary_round_neg m e : SFpos (binary_round prec emax true m e) = false.
Proof.
  unfold binary_round. destruct (shl_align _ _ _) as [mz ez].
  apply binary_round_aux_neg.
Qed.

(** Shifting to the right halves the mantissa. *)
Lemma shr_1_m mrs : 0 ≤ shr_m mrs → shr_m (shr_1 mrs) = shr_m mrs / 2.
Proof.
  destruct mrs as [mz r s]. cbn [shr_m]. intros Hm.
  rewrite <- Z.div2_div. by destruct mz as [|[p|p|]|p].
Qed.

Lemma pow2_xI n : 2 ^ Z.pos n~1 = 2 * (2 ^ Z.pos n * 2 ^ Z.pos n).
Proof.
  rewrite (Pos2Z.inj_xI n).
  replace (2 * Z.pos n + 1) with (1 + Z.pos n + Z.pos n) by lia.
  rewrite 2!Z.pow_add_r by lia. by rewrite Z.pow_1_r, Z.mul_assoc.
Qed.

Lemma pow2_xO n : 2 ^ Z.pos n~0 = 2 ^ Z.pos n * 2 ^ Z.pos n.
Proof.
  rewrite (Pos2Z.inj_xO n).
  replace (2 * Z.pos n) with (Z.pos n + Z.pos n) by lia.
  by rewrite Z.pow_add_r by lia.
Qed.

Lemma iter_shr_1_m n mrs :
  0 ≤ shr_m mrs →
  shr_m (iter_pos shr_1 n mrs) = shr_m mrs / 2 ^ Z.pos n.
Proof.
  revert mrs. induction n as [n IH|n IH|]; intros mrs Hm; cbn [iter_pos].
  - assert (0 < 2 ^ Z.pos n) as Hp by (by apply Z.pow_pos_nonneg).
    assert (0 ≤ shr_m (shr_1 mrs)) as H1.
    { rewrite shr_1_m by done. by apply Z.div_pos. }
    assert (0 ≤ shr_m (iter_pos shr_1 n (shr_1 mrs))) as H2.
    { rewrite IH by done. by apply Z.div_pos. }
    rewrite !IH, shr_1_m by done.
    rewrite !Z.div_div by lia. by rewrite pow2_xI, Z.mul_assoc.
  - assert (0 < 2 ^ Z.pos n) as Hp by (by apply Z.pow_pos_nonneg).
    assert (0 ≤ shr_m (iter_pos shr_1 n mrs)) as H2.
    { rewrite IH by done. by apply Z.div_pos. }
    rewrite !IH by done. rewrite !Z.div_div by lia. by rewrite pow2_xO.
  - by rewrite shr_1_m.
Qed.

Lemma shr_record_of_loc_m mz l : shr_m (shr_record_of_loc mz l) = mz.
Proof. by destruct l as [|[]]. Qed.

(** No exponent is below [emin], so rounding a positive mantissa at such an
    exponent leaves a positive mantissa. *)
Lemma shr_fexp_pos mz e l :
  0 < mz → emin ≤ e →
  0 < shr_m (shr_fexp prec emax mz e l).1 ∧
  emin ≤ (shr_fexp prec emax mz e l).2.
Proof.
  intros Hm He. destruct mz as [|m|m]; [lia| |lia].
  unfold shr_fexp, shr. cbn [Zdigits2].
  destruct (fexp prec emax (Z.pos (digits2_pos m) + e) - e) as [|n|n] eqn:Hn;
    cbn [fst snd]; rewrite ?shr_record_of_loc_m; [done| |done].
  unfold fexp in Hn. split; [|lia].
  rewrite iter_shr_1_m by (rewrite shr_record_of_loc_m; lia).
  rewrite shr_record_of_loc_m.
  destruct (digits2_bounds m) as [_ Hd].
  assert (Z.pos n = Z.pos (digits2_pos m) - prec) as Hn'.
  { unfold emin in *. lia. }
  apply Z.div_str_pos. split; [by apply Z.pow_pos_nonneg|].
  assert (2 ^ Z.pos n * 2 ≤ 2 ^ Z.pos (digits2_pos m)); [|lia].
  rewrite <- (Z.pow_1_r 2) at 2. rewrite <- Z.pow_add_r by lia.
  apply Z.pow_le_mono_r; [lia|]. rewrite Hn'. unfold prec. lia.
Qed.

Lemma round_nearest_even_pos mz l : 0 < mz → 0 < round_nearest_even mz l.
Proof.
  intros Hm. destruct l as [|[]]; cbn; try lia. destruct (Z.even mz); lia.
Qed.

Lemma binary_round_aux_pos mz e l :
  0 < mz → emin ≤ e →
  SFpos (binary_round_aux prec emax false mz e l) = true.
Proof.
  intros Hm He. unfold binary_round_aux.
  destruct (shr_fexp_pos mz e l Hm He) as [Hm' He'].
  destruct (shr_fexp prec emax mz e l) as [mrs' e']. cbn [fst snd] in *.
  pose proof (round_nearest_even_pos _ (loc_of_shr_record mrs') Hm') as Hr.
  destruct (shr_fexp_pos _ e' loc_Exact Hr He') as [Hm'' _].
  destruct (shr_fexp prec emax _ e' loc_Exact) as [mrs'' e''].
  cbn [fst] in Hm''. destruct (shr_m mrs''); [lia| |lia].
  by destruct (_ <=? _).
Qed.

Lemma binary_round_pos m e :
  emin ≤ e → SFpos (binary_round prec emax false m e) = true.
Proof.
  intros He. unfold binary_round, shl_align.
  destruct (fexp prec emax (Z.pos (digits2_pos m) + e) - e) eqn:Hn;
    apply binary_round_aux_pos; try done.
  unfold fexp. lia.
Qed.

(** Aligning a mantissa to a lower exponent multiplies it by a power of
    two. *)
Lemma shl_align_value m e e' :
  e' ≤ e → Z.pos (shl_align m e e').1 = Z.pos m * 2 ^ (e - e').
Proof.
  intros He. unfold shl_align. destruct (e' - e) as [|d|d] eqn:Hd; [|lia|].
  - cbn [fst]. replace (e - e') with 0 by lia. lia.
  - cbn [fst]. replace (e - e') with (Z.pos d) by lia.
    change (Pos.iter xO m d) with (shift_pos d m).
    rewrite shift_pos_correct. change (Z.pow_pos 2 d) with (2 ^ Z.pos d). lia.
Qed.

(** In the canonical representation the exponent decides the order. *)
Lemma bounded_emin m e : bounded prec emax m e = true → emin ≤ e.
Proof.
  unfold bounded, canonical_mantissa, fexp.
  intros [He _]%andb_true_iff. apply Z.eqb_eq in He. lia.
Qed.

Lemma bounded_exponent_lt m1 e1 m2 e2 :
  bounded prec emax m1 e1 = true → bounded prec emax m2 e2 = true →
  e1 < e2 → Z.pos m1 < Z.pos m2 * 2 ^ (e2 - e1).
Proof.
  unfold bounded, canonical_mantissa, fexp.
  intros [H1 _]%andb_true_iff [H2 _]%andb_true_iff He.
  apply Z.eqb_eq in H1, H2.
  destruct (digits2_bounds m1) as [Hm1 _], (digits2_bounds m2) as [_ Hm2].
  assert (Z.pos (digits2_pos m1) ≤ 53) as Hd1 by (unfold prec in *; lia).
  assert (Z.pos (digits2_pos m2) = 53) as Hd2 by (unfold prec, emin in *; lia).
  rewrite Hd2 in Hm2.
  assert (2 ^ Z.pos (digits2_pos m1) ≤ 2 ^ 53) as Hp1
    by (apply Z.pow_le_mono_r; lia).
  assert (2 ^ 1 ≤ 2 ^ (e2 - e1)) as Hp2 by (apply Z.pow_le_mono_r; lia).
  rewrite Z.pow_1_r in Hp2. nia.
Qed.

(** The sign of a difference.  [compare X Y = Lt] makes [Y - X] positive;
    a positive [X - Y] leaves [Y - X] not positive. *)
Lemma SFsub_pos_asym X Y :
  SFpos (SF64sub X Y) = true → SFpos (SF64sub Y X) = false.
Proof.
  destruct X as [sx|sx| |sx mx ex], Y as [sy|sy| |sy my ey];
    try done; try (by destruct sx, sy); try (by destruct sx);
    try (by destruct sy).
  unfold SF64sub, SFsub. rewrite (Z.min_comm ey ex).
  set (vx := cond_Zopp sx _). set (vy := cond_Zopp sy _).
  replace (vy - vx) with (- (vx - vy)) by lia.
  destruct (vx - vy) as [|p|p]; cbn [Z.opp binary_normalize]; [done| |].
  - intros _. apply binary_round_neg.
  - by rewrite binary_round_neg.
Qed.

Lemma SFsub_pos_of_lt X Y :
  valid_binary X = true → valid_binary Y = true →
  SFltb X Y = true → SFpos (SF64sub Y X) = true.
Proof.
  destruct X as [sx|sx| |sx mx ex], Y as [sy|sy| |sy my ey];
    try done; try (by destruct sx, sy); try (by destruct sx);
    try (by destruct sy).
  cbn [valid_binary]. intros HX HY.
  pose proof (bounded_emin _ _ HX) as HeX.
  pose proof (bounded_emin _ _ HY) as HeY.
  unfold SFltb, SFcompare, SF64sub, SFsub.
  rewrite !shl_align_value by lia.
  change (Pos.compare_cont Eq mx my) with (mx ?= my)%positive.
  intros Hlt.
  assert (0 < cond_Zopp sy (Z.pos my * 2 ^ (ey - Z.min ey ex)) -
              cond_Zopp sx (Z.pos mx * 2 ^ (ex - Z.min ey ex))) as Hpos.
  { assert (0 < 2 ^ (ey - Z.min ey ex)) by (apply Z.pow_pos_nonneg; lia).
    assert (0 < 2 ^ (ex - Z.min ey ex)) by (apply Z.pow_pos_nonneg; lia).
    destruct sx, sy; cbn [cond_Zopp]; try done.
    - destruct (Z.compare_spec ex ey) as [->|He|He]; try done.
      + destruct (Pos.compare_spec mx my) as [->|Hm|Hm]; try done.
        rewrite Z.min_id, Z.sub_diag. cbn. lia.
      + pose proof (bounded_exponent_lt _ _ _ _ HY HX He) as Hb.
        rewrite Z.min_l, Z.sub_diag by lia. cbn [Z.pow]. lia.
    - nia.
    - destruct (Z.compare_spec ex ey) as [->|He|He]; try done.
      + destruct (Pos.compare_spec mx my) as [->|Hm|Hm]; try done.
        rewrite Z.min_id, Z.sub_diag. cbn. lia.
      + pose proof (bounded_exponent_lt _ _ _ _ HX HY He) as Hb.
        rewrite Z.min_r, Z.sub_diag by lia. cbn [Z.pow]. lia. }
  destruct (_ - _) as [|p|p]; [lia| |lia].
  cbn [binary_normalize]. apply binary_round_pos. lia.
Qed.

(** The order of binary64 numbers: total apart from NaN, and transitive. *)
Lemma SFleb_of_not_ltb X Y :
  X ≠ S754_nan → Y ≠ S754_nan → SFltb X Y = false → SFleb Y X = true.
Proof.
  destruct X as [sx|sx| |sx mx ex], Y as [sy|sy| |sy my ey];
    try done; try (by destruct sx, sy); try (by destruct sx);
    try (by destruct sy).
  intros _ _. unfold SFltb, SFleb, SFcompare.
  change (Pos.compare_cont Eq mx my) with (mx ?= my)%positive.
  change (Pos.compare_cont Eq my mx) with (my ?= mx)%positive.
  rewrite (Z.compare_antisym ex ey), (Pos.compare_antisym mx my).
  by destruct sx, sy, (ex ?= ey), (mx ?= my)%positive.
Qed.

Lemma SFleb_trans X Y Z' :
  SFleb X Y = true → SFleb Y Z' = true → SFleb X Z' = true.
Proof.
  destruct X as [sx|sx| |sx mx ex], Y as [sy|sy| |sy my ey],
    Z' as [sz|sz| |sz mz ez];
    try done; try (by destruct sx, sy, sz); try (by destruct sx, sy);
    try (by destruct sx, sz); try (by destruct sy, sz).
  unfold SFleb, SFcompare.
  change (Pos.compare_cont Eq mx my) with (mx ?= my)%positive.
  change (Pos.compare_cont Eq my mz) with (my ?= mz)%positive.
  change (Pos.compare_cont Eq mx mz) with (mx ?= mz)%positive.
  destruct sx, sy, sz; try done;
    destruct (Z.compare_spec ex ey), (Z.compare_spec ey ez),
      (Z.compare_spec ex ez); try done; try lia;
    destruct (Pos.compare_spec mx my), (Pos.compare_spec my mz),
      (Pos.compare_spec mx mz); try done; lia.
Qed.

(** The same on the numbers themselves. *)
Lemma ltb_0_sub x y :
  (0 <? y - x)%float = SFpos (SF64sub (Prim2SF y) (Prim2SF x)).
Proof.
  rewrite ltb_spec, sub_spec. change (Prim2SF 0) with (S754_zero false).
  apply SFltb_zero.
Qed.

Lemma is_nan_false x : is_nan x = false → Prim2SF x ≠ S754_nan.
Proof.
  unfold is_nan. rewrite eqb_spec. intros Hx Hn. by rewrite Hn in Hx.
Qed.

Lemma sub_pos_asym x y :
  (0 <? y - x)%float = true → (0 <? x - y)%float = false.
Proof. rewrite !ltb_0_sub. apply SFsub_pos_asym. Qed.

Lemma leb_of_sub_not_pos x y :
  is_nan x = false → is_nan y = false →
  (0 <? y - x)%float = false → (y <=? x)%float = true.
Proof.
  intros Hx%is_nan_false Hy%is_nan_false. rewrite ltb_0_sub, leb_spec.
  intros Hsub. apply SFleb_of_not_ltb; [done..|].
  destruct (SFltb (Prim2SF x) (Prim2SF y)) eqn:Hlt; [|done].
  apply SFsub_pos_of_lt in Hlt; [congruence|apply Prim2SF_valid..].
Qed.

Lemma leb_trans x y z :
  (x <=? y)%float = true → (y <=? z)%float = true → (x <=? z)%float = true.
Proof. rewrite !leb_spec. apply SFleb_trans. Qed.

End binary64.

Section sorted_lists.
Context {A : Type}.
Implicit Types (R : relation A) (l : list A).

Lemma Sorted_take R n l : Sorted R l → Sorted R (take n l).
Proof.
  intros Hl. revert n. induction Hl as [|a l Hl IH Hhd]; intros [|n];
    cbn [take]; try constructor; [apply IH|].
  destruct Hhd as [|b l' Hab]; [destruct n; constructor|].
  destruct n; cbn [take]; by constructor.
Qed.

Lemma Sorted_Forall_impl R R' (P : A → Prop) l :
  (∀ a b, P a → P b → R a b → R' a b) →
  Forall P l → Sorted R l → Sorted R' l.
Proof.
  intros Himpl HP Hl. induction Hl as [|a l Hl IH Hhd]; [constructor|].
  apply Forall_cons in HP as [Ha HP]. constructor; [by apply IH|].
  destruct Hhd as [|b l' Hab]; constructor.
  apply Forall_cons in HP as [Hb _]. by apply Himpl.
Qed.

Lemma HdRel_Array_insert (compare : A → A → float) x y l :
  TrendingLoad.notAfter compare y x →
  HdRel (TrendingLoad.notAfter compare) y l →
  HdRel (TrendingLoad.notAfter compare) y
    (TrendingLoad.Array_insert compare x l).
Proof.
  intros Hyx Hhd. destruct Hhd as [|z l Hyz]; cbn [TrendingLoad.Array_insert];
    [by constructor|]. case_decide; by constructor.
Qed.

Lemma Sorted_Array_insert (compare : A → A → float)
    `{!Total (TrendingLoad.notAfter compare)} x l :
  Sorted (TrendingLoad.notAfter compare) l →
  Sorted (TrendingLoad.notAfter compare)
    (TrendingLoad.Array_insert compare x l).
Proof.
  induction 1 as [|y l Hl IH Hhd]; cbn [TrendingLoad.Array_insert].
  { by repeat constructor. }
  case_decide as Hxy.
  - constructor; [by constructor|by constructor].
  - constructor; [done|]. apply HdRel_Array_insert; [|done].
    by destruct (total (TrendingLoad.notAfter compare) x y).
Qed.

Lemma Sorted_Array_sort (compare : A → A → float)
    `{!Total (TrendingLoad.notAfter compare)} l :
  Sorted (TrendingLoad.notAfter compare) (TrendingLoad.Array_sort compare l).
Proof.
  induction l as [|x l IH]; [constructor|].
  cbn [TrendingLoad.Array_sort foldr]. by apply Sorted_Array_insert.
Qed.

Lemma Sorted_lookup_next R l i a b :
  Sorted R l → l !! i = Some a → l !! S i = Some b → R a b.
Proof.
  intros Hl. revert i. induction Hl as [|c l Hl IH Hhd]; intros i; [done|].
  destruct i as [|i]; cbn [lookup list_lookup].
  - intros [= ->] Hb. destruct Hhd as [|b' l' Hab]; [done|].
    cbn in Hb. by injection Hb as ->.
  - apply IH.
Qed.
End sorted_lists.

Section score_order.

Global Instance byTrendingScore_total :
  Total (TrendingLoad.notAfter TrendingLoad.byTrendingScore).
Proof.
  intros a b. unfold TrendingLoad.notAfter, TrendingLoad.byTrendingScore.
  destruct (0 <? TrendingLoad.tp_trendingScore b -
                 TrendingLoad.tp_trendingScore a)%float eqn:Hab; [|by left].
  right. by apply sub_pos_asym.
Qed.

Global Instance scoreNotAbove_trans : Transitive scoreNotAbove.
Proof. intros a b c Hab Hbc. by eapply leb_trans. Qed.

End score_order.

(** X23: when none of the fetched posts inside the cutoff has the score
    NaN, the trending list is in non-increasing order of score: no entry
    has a score below that of an entry after it. *)
Theorem trending_list_sorted (Math_pow : float → float → float)
    (Date_getTime : string → float) (dateNow : nat → float)
    (timeframeCutoff : float) (d : DB) :
  let shown :=
    TrendingLoad.loadTrendingContent Math_pow Date_getTime dateNow
      timeframeCutoff d in
  Forall (λ tp, TrendingLoad.insideCutoff Date_getTime timeframeCutoff tp →
                is_nan (TrendingLoad.tp_trendingScore tp) = false)
    (TrendingLoad.enrichedPosts Math_pow Date_getTime dateNow d) →
  TrendingLoad.nonIncreasing shown ∧ StronglySorted scoreNotAbove shown.
Proof.
  intros shown Hnan.
  assert (Forall (λ tp, is_nan (TrendingLoad.tp_trendingScore tp) = false)
            shown) as Hshown.
  { apply Forall_forall. intros tp Htp.
    apply elem_of_take in Htp as (j & Htp & _).
    apply list_elem_of_lookup_2 in Htp.
    rewrite Array_sort_Permutation in Htp.
    apply list_elem_of_filter in Htp as [Hin Htp].
    by apply (proj1 (Forall_forall _ _) Hnan). }
  assert (Sorted scoreNotAbove shown) as Hsorted.
  { eapply (Sorted_Forall_impl
              (TrendingLoad.notAfter TrendingLoad.byTrendingScore));
      [|exact Hshown|].
    - intros a b Ha Hb Hab. by apply leb_of_sub_not_pos.
    - apply Sorted_take, Sorted_Array_sort, _. }
  split.
  - intros i a b Ha Hb. by eapply (Sorted_lookup_next scoreNotAbove).
  - by apply (Sorted_StronglySorted scoreNotAbove).
Qed.

Lemma trending_list_sorted_witness :
  let shown :=
    TrendingLoad.loadTrendingContent powSample getTimeSample
      (λ _, 1714561200000%float) 1714474800000%float
      (mkDB [] [] [postOlder; postPast]) in
  TrendingLoad.nonIncreasing shown ∧ StronglySorted scoreNotAbove shown.
Proof.
  apply (trending_list_sorted powSample getTimeSample
           (λ _, 1714561200000%float) 1714474800000%float
           (mkDB [] [] [postOlder; postPast])).
  by_compute.
Defined.
